(** * MoneyGrowAI ticker discovery: a shallow embedding and its properties

  Source: [src/ticker_discovery/ticker_discovery_service.py].

  Text is modelled as [string] over 7-bit ASCII.  The Python functions
  [str.upper], [str.strip], the classes [\s], [\w], [\b] are Unicode
  aware; here every character of code 128 and above is an ordinary
  character: not a space, not a word character, and left alone by
  [upper] and [lower].  The flag [(?i)] likewise pairs only the letters
  a-z with A-Z.  What is proved of a text is proved of the service on
  texts of characters below code 128; [ascii_text] says so in the
  statements that need it. *)

From Stdlib Require Import Ascii NArith ZArith QArith Lia Lqa.
From stdpp Require Import base option list gmap sets strings sorting.

Local Open Scope nat_scope.

(** ** Characters *)

Module Chr.

Definition code (c : ascii) : N := N_of_ascii c.

Definition between (lo hi : N) (c : ascii) : bool :=
  ((lo <=? code c) && (code c <=? hi))%N.

(** [[A-Z]] *)
Definition is_AZ : ascii -> bool := between 65 90.
Definition is_az : ascii -> bool := between 97 122.
Definition is_digit : ascii -> bool := between 48 57.

(** [\s] of a [str] pattern, and [str.isspace], below code 128:
    TAB LF VT FF CR, FS GS RS US, and the space. *)
Definition is_space (c : ascii) : bool :=
  between 9 13 c || between 28 31 c || (code c =? 32)%N.

(** [\w] *)
Definition is_word (c : ascii) : bool :=
  is_AZ c || is_az c || is_digit c || (code c =? 95)%N.

Definition upper (c : ascii) : ascii :=
  if is_az c then ascii_of_N (code c - 32) else c.

Definition lower (c : ascii) : ascii :=
  if is_AZ c then ascii_of_N (code c + 32) else c.

Definition eqb (a b : ascii) : bool := (code a =? code b)%N.

(** a literal character of the pattern *)
Definition lit (a : ascii) : ascii -> bool := eqb a.

(** a literal character under the flag [(?i)] *)
Definition lit_i (a : ascii) : ascii -> bool := fun c => eqb (lower a) (lower c).

(** [.]: anything but a line feed *)
Definition dot (c : ascii) : bool := negb (code c =? 10)%N.

Definition one_of (l : list ascii) (c : ascii) : bool := existsb (eqb c) l.

End Chr.

(** ** The string methods the service calls *)

Module Str.

Fixpoint map (f : ascii -> ascii) (s : string) : string :=
  match s with
  | EmptyString => EmptyString
  | String c s' => String (f c) (map f s')
  end.

(** [s.upper()], [s.lower()] *)
Definition upper : string -> string := map Chr.upper.
Definition lower : string -> string := map Chr.lower.

(** [s.capitalize()] *)
Definition capitalize (s : string) : string :=
  match s with
  | EmptyString => EmptyString
  | String c s' => String (Chr.upper c) (lower s')
  end.

Fixpoint lstrip (s : string) : string :=
  match s with
  | String c s' => if Chr.is_space c then lstrip s' else s
  | EmptyString => EmptyString
  end.

(** [s.strip()] *)
Definition strip (s : string) : string :=
  String.rev (lstrip (String.rev (lstrip s))).

(** [sep.join(l)] *)
Definition join (sep : string) (l : list string) : string := String.concat sep l.

(** [s.split(c)] for a separator of one character: the pieces between the
    occurrences of [c], empty pieces kept. *)
Fixpoint split_go (c : ascii) (cur : string) (s : string) : list string :=
  match s with
  | EmptyString => [String.rev cur]
  | String x s' =>
      if Chr.eqb c x then String.rev cur :: split_go c EmptyString s'
      else split_go c (String x cur) s'
  end.
Definition split (c : ascii) (s : string) : list string := split_go c EmptyString s.

(** [c in s] *)
Fixpoint mem (c : ascii) (s : string) : bool :=
  match s with
  | EmptyString => false
  | String x s' => Chr.eqb c x || mem c s'
  end.

End Str.

(** ** Regular expressions

  The constructs the five patterns of the service use, run by a
  backtracking matcher with the priorities of Python's [re]: the left
  branch of an alternative first, repetitions greedy.  Every repetition
  in the source is over one character class, so [Rep] takes the class. *)

Module Re.

Inductive re : Type :=
| Eps
| Cls (p : ascii -> bool)
| Seq (r1 r2 : re)
| Alt (r1 r2 : re)
| Rep (p : ascii -> bool) (lo : nat) (hi : option nat)
| Grp (n : nat) (r : re)
| WordB
| Bol
| Eol.

(** [r?] *)
Definition Opt (r : re) : re := Alt r Eps.
(** [[p]+] and [[p]*] *)
Definition Plus (p : ascii -> bool) : re := Rep p 1 None.
Definition Star (p : ascii -> bool) : re := Rep p 0 None.

Fixpoint Lit (s : string) : re :=
  match s with
  | EmptyString => Eps
  | String c s' => Seq (Cls (Chr.lit c)) (Lit s')
  end.

Fixpoint Lit_i (s : string) : re :=
  match s with
  | EmptyString => Eps
  | String c s' => Seq (Cls (Chr.lit_i c)) (Lit_i s')
  end.

(** the groups captured so far, latest first *)
Definition caps : Type := list (nat * string).

Definition group (n : nat) (g : caps) : option string :=
  snd <$> List.find (fun e => Nat.eqb (fst e) n) g.

Definition word_opt (o : option ascii) : bool :=
  match o with Some c => Chr.is_word c | None => false end.

Definition head (s : string) : option ascii :=
  match s with String c _ => Some c | EmptyString => None end.

Definition is_empty (s : string) : bool :=
  match s with EmptyString => true | _ => false end.

(** [$] without MULTILINE: at the end, or before a final line feed *)
Definition at_eol (s : string) : bool :=
  match s with
  | EmptyString => true
  | String c EmptyString => (Chr.code c =? 10)%N
  | _ => false
  end.

Definition hi_open (hi : option nat) : bool :=
  match hi with Some 0 => false | _ => true end.

Section matcher.
Context {R : Type}.

(** a continuation receives the character before the position, the
    text from the position on, and the groups *)
Definition cont : Type := option ascii -> string -> caps -> option R.

Fixpoint rep (p : ascii -> bool) (lo : nat) (hi : option nat)
    (prev : option ascii) (s : string) (g : caps) (k : cont) : option R :=
  let stop := match lo with 0 => k prev s g | S _ => None end in
  match s with
  | String c s' =>
      if p c && hi_open hi then
        match rep p (Nat.pred lo) (Nat.pred <$> hi) (Some c) s' g k with
        | Some r => Some r
        | None => stop
        end
      else stop
  | EmptyString => stop
  end.

Fixpoint run (r : re) (prev : option ascii) (s : string) (g : caps)
    (k : cont) : option R :=
  match r with
  | Eps => k prev s g
  | Cls p =>
      match s with
      | String c s' => if p c then k (Some c) s' g else None
      | EmptyString => None
      end
  | Seq r1 r2 => run r1 prev s g (fun prev' s' g' => run r2 prev' s' g' k)
  | Alt r1 r2 =>
      match run r1 prev s g k with
      | Some x => Some x
      | None => run r2 prev s g k
      end
  | Rep p lo hi => rep p lo hi prev s g k
  | Grp n r1 =>
      run r1 prev s g (fun prev' s' g' =>
        k prev' s' ((n, String.substring 0 (String.length s - String.length s') s) :: g'))
  | WordB => if xorb (word_opt prev) (word_opt (head s)) then k prev s g else None
  | Bol => match prev with None => k prev s g | Some _ => None end
  | Eol => if at_eol s then k prev s g else None
  end.
End matcher.

(** one match: where it starts and ends, and its groups *)
Record mtch : Type := Mtch { m_start : nat; m_end : nat; m_caps : caps }.

Definition m_group (n : nat) (m : mtch) : string :=
  default EmptyString (group n (m_caps m)).

(** the match at the position, if any: its groups and the text left *)
Definition at_pos (r : re) (prev : option ascii) (s : string) : option (caps * string) :=
  run r prev s [] (fun _ s' g => Some (g, s')).

(** [re.fullmatch(r, s)] *)
Definition fullmatch (r : re) (s : string) : option caps :=
  run r None s [] (fun _ s' g => if is_empty s' then Some g else None).

(** [r.match(s)]: at the start of [s] only *)
Definition match_start (r : re) (s : string) : option mtch :=
  match at_pos r None s with
  | Some (g, s') => Some (Mtch 0 (String.length s - String.length s') g)
  | None => None
  end.

(** [r.finditer(s)]: the matches from left to right, none overlapping.
    [skip] counts the characters still inside the previous match.  No
    pattern of the service matches the empty string. *)
Fixpoint scan (r : re) (i : nat) (skip : nat) (prev : option ascii) (s : string)
    : list mtch :=
  match s with
  | EmptyString => []
  | String c s' =>
      match skip with
      | S n => scan r (S i) n (Some c) s'
      | 0 =>
          match at_pos r prev s with
          | Some (g, rest) =>
              let len := String.length s - String.length rest in
              Mtch i (i + len) g :: scan r (S i) (Nat.pred len) (Some c) s'
          | None => scan r (S i) 0 (Some c) s'
          end
      end
  end.

Definition finditer (r : re) (s : string) : list mtch := scan r 0 0 None s.

(** the pieces of [s] between the matches *)
Fixpoint cut (s : string) (from : nat) (ms : list mtch) : list string :=
  match ms with
  | [] => [String.substring from (String.length s - from) s]
  | m :: ms' => String.substring from (m_start m - from) s :: cut s (m_end m) ms'
  end.

(** [re.split(r, s)] for a pattern without groups *)
Definition split (r : re) (s : string) : list string := cut s 0 (finditer r s).

(** [re.sub(r, repl, s)] for a pattern without groups and a literal [repl] *)
Definition sub (r : re) (repl : string) (s : string) : string :=
  String.concat repl (split r s).

End Re.

(** ** The patterns of the service *)

Import Re.

Declare Scope re_scope.
Delimit Scope re_scope with re.
Infix "+>" := Seq (at level 60, right associativity) : re_scope.
Local Open Scope re_scope.

Definition ch (s : string) : ascii :=
  match s with String c _ => c | EmptyString => Ascii.zero end.

(** [[A-Z]{1,5}(?:\.[A-Z]{1,2})?], the canonical shape of a symbol *)
Definition SUFFIX : re := Opt (Cls (Chr.lit (ch ".")) +> Rep Chr.is_AZ 1 (Some 2)).
Definition SHAPE : re := Rep Chr.is_AZ 1 (Some 5) +> SUFFIX.

(** [\$([A-Z]{1,5}(?:\.[A-Z]{1,2})?)\b] *)
Definition CASHTAG : re := Cls (Chr.lit (ch "$")) +> Grp 1 SHAPE +> WordB.

(** [\(([A-Z]{1,5})(?::[A-Z]+)?\)] *)
Definition PAREN : re :=
  Cls (Chr.lit (ch "(")) +> Grp 1 (Rep Chr.is_AZ 1 (Some 5))
  +> Opt (Cls (Chr.lit (ch ":")) +> Plus Chr.is_AZ) +> Cls (Chr.lit (ch ")")).

(** [\b([A-Z]{2,5})(?:\.[A-Z]{1,2})?\b] *)
Definition UPPERC : re := WordB +> Grp 1 (Rep Chr.is_AZ 2 (Some 5)) +> SUFFIX +> WordB.

(** [/(quote|symbol|ticker)/([A-Z]{1,5}(?:\.[A-Z]{1,2})?)] *)
Definition URL_TKR : re :=
  Cls (Chr.lit (ch "/")) +> Grp 1 (Alt (Lit "quote") (Alt (Lit "symbol") (Lit "ticker")))
  +> Cls (Chr.lit (ch "/")) +> Grp 2 SHAPE.

(** [(?i)^\s*(keep|cut|sell)\s*:\s*(.+)$] *)
Definition ACTION : re :=
  Bol +> Star Chr.is_space
  +> Grp 1 (Alt (Lit_i "keep") (Alt (Lit_i "cut") (Lit_i "sell")))
  +> Star Chr.is_space +> Cls (Chr.lit (ch ":")) +> Star Chr.is_space
  +> Grp 2 (Plus Chr.dot) +> Eol.

(** [[,\s;/]+] *)
Definition SEPARATORS : re :=
  Plus (fun c => Chr.one_of [ch ","; ch ";"; ch "/"] c || Chr.is_space c).

(** the stop-list, as the source spells it ([USD] twice) *)
Definition STOP_words : list string :=
  [ "AI"; "CEO"; "EPS"; "ETF"; "GDP"; "USD"; "IPO"; "YOY"; "EBIT"; "EBITDA";
    "FCF"; "FED"; "SEC"; "CPI"; "PPI"; "PE"; "EV"; "PS"; "GAAP"; "ADR"; "OTC";
    "BTC"; "ETH"; "USD"; "EUR"; "NET"; "FIG" ].

Definition STOP : gset string := list_to_set STOP_words.

(** [html.unescape]: the library returns its argument when it holds no
    ampersand, and otherwise replaces the character references; the
    replacement needs the HTML5 entity table and is a parameter. *)
Definition html_unescape (charref : string -> string) (s : string) : string :=
  if Str.mem (ch "&") s then charref s else s.

Definition _clean (charref : string -> string) (s : string) : string :=
  Str.strip (Re.sub (Plus Chr.is_space) " " (html_unescape charref s)).

Definition shaped (s : string) : bool :=
  match fullmatch SHAPE s with Some _ => true | None => false end.

Definition _split_symbols (s : string) : list string :=
  let parts := Re.split SEPARATORS (Str.strip s) in
  filter (fun p => shaped p = true) ((fun p => Str.upper (Str.strip p)) <$> parts).

(** [s.isdigit()], below code 128 *)
Fixpoint all_digits (s : string) : bool :=
  match s with
  | EmptyString => true
  | String c s' => Chr.is_digit c && all_digits s'
  end.
Definition isdigit (s : string) : bool := negb (is_empty s) && all_digits s.

(** ** Stories, candidates and tallies *)

(** The fields of [N8nComment] and [N8nStory] that the service reads; the
    others ([author], [score], [created_utc], [sentiment], ...) reach no
    function. *)
Record N8nComment : Type := { body : option string }.

Record N8nStory : Type := {
  url : option string;
  title : option string;
  excerpt : option string;
  combined_text : option string;
  comments : list N8nComment
}.

(** an entry of the dict [candidates] *)
Record entry : Type := { symbol : string; reasons : gset string }.

(** an entry of the dict [tallies] *)
Record tally : Type := { ticker : string; keep : nat; cut : nat; sell : nat }.

(** [t[action]] *)
Definition count (action : string) (t : tally) : nat :=
  if String.eqb action "keep" then keep t
  else if String.eqb action "cut" then cut t
  else if String.eqb action "sell" then sell t
  else 0.

(** [t[action] += 1].  The keys of [t] are keep, cut and sell, and [action]
    is the lower-cased first group of [ACTION]: on the text modelled here,
    of characters below code 128, it is one of the three (lemma
    [ACTION_verb] below), and the last branch is never taken.  Under
    [(?i)] Python also lets the long s (U+017F) stand for s and the
    Kelvin sign (U+212A) for k; for a line that spells sell with the
    long s the key is none of the three and the statement raises
    KeyError.  Such lines are outside the text modelled. *)
Definition bump (action : string) (t : tally) : tally :=
  if String.eqb action "keep" then
    {| ticker := ticker t; keep := S (keep t); cut := cut t; sell := sell t |}
  else if String.eqb action "cut" then
    {| ticker := ticker t; keep := keep t; cut := S (cut t); sell := sell t |}
  else if String.eqb action "sell" then
    {| ticker := ticker t; keep := keep t; cut := cut t; sell := S (sell t) |}
  else t.

(** the inner function [add] of [detect_from_story], on the dict it closes over *)
Definition add (sym reason : string) (candidates : gmap string entry)
    : gmap string entry :=
  let sym := Str.upper sym in
  if 6 <? String.length sym then candidates
  else if bool_decide (sym ∈ STOP) then candidates
  else if negb (shaped sym) then candidates
  else
    let e := default {| symbol := sym; reasons := ∅ |} (candidates !! sym) in
    <[sym := {| symbol := symbol e; reasons := reasons e ∪ {[reason]} |}]> candidates.

(** [for m in r.finditer(joined): add(m.group(n), reason)] *)
Definition add_matches (r : re) (n : nat) (reason : string) (joined : string)
    (candidates : gmap string entry) : gmap string entry :=
  foldl (fun acc m => add (m_group n m) reason acc) candidates (finditer r joined).

(** the three statements of the inner loop over [sym_list] *)
Definition tally_sym (action sym : string) (tallies : gmap string tally)
    : gmap string tally :=
  let t := default {| ticker := sym; keep := 0; cut := 0; sell := 0 |} (tallies !! sym) in
  <[sym := bump action t]> tallies.

Definition list_sym (action : string)
    (st : gmap string entry * gmap string tally) (sym : string)
    : gmap string entry * gmap string tally :=
  (add sym ("list:" +:+ Str.capitalize action) (fst st), tally_sym action sym (snd st)).

(** one turn of the loop over [joined.split("\n")] *)
Definition action_line (st : gmap string entry * gmap string tally)
    (raw_line : string) : gmap string entry * gmap string tally :=
  match match_start ACTION raw_line with
  | None => st
  | Some m =>
      let action := Str.lower (m_group 1 m) in
      let sym_list := _split_symbols (m_group 2 m) in
      foldl (list_sym action) st sym_list
  end.

(** one turn of the loop over [UPPERC.finditer(joined)] *)
Definition allcaps (candidates : gmap string entry) (m : mtch) : gmap string entry :=
  let sym := Str.upper (m_group 1 m) in
  if bool_decide (sym ∉ STOP) && (String.length sym <=? 5) && negb (isdigit sym)
  then add sym "allcaps" candidates
  else candidates.

(** [sorted(l, key=key)] on strings; Python compares strings by code point,
    as [String.le] does.  Every list the service sorts has distinct keys. *)
Definition sorted_on {A : Type} (key : A -> string) (l : list A) : list A :=
  merge_sort (fun a b => String.le (key a) (key b)) l.

(** [sorted(s)] of a set of strings *)
Definition sorted_set (s : gset string) : list string :=
  merge_sort String.le (elements s).

Record candidate : Type := { c_symbol : string; c_reasons : list string }.

Record story_result : Type := {
  r_url : option string;
  r_title : option string;
  candidates : list candidate;
  tallies : list tally
}.

Definition blocks_of (s : N8nStory) : list string :=
  [default "" (title s); default "" (excerpt s); default "" (combined_text s)]
  ++ ((fun c => default "" (body c)) <$> comments s).

Definition joined_of (charref : string -> string) (s : N8nStory) : string :=
  Str.join (String (ch " ") (String (ascii_of_nat 10) " "))
           (_clean charref <$> blocks_of s).

(** the dicts [candidates] and [tallies] when the loops are over *)
Definition detect_maps (joined : string) : gmap string entry * gmap string tally :=
  let c := add_matches CASHTAG 1 "cashtag" joined ∅ in
  let c := add_matches PAREN 1 "paren" joined c in
  let c := add_matches URL_TKR 2 "url" joined c in
  let '(c, t) := foldl action_line (c, ∅) (Str.split (ascii_of_nat 10) joined) in
  let c := foldl allcaps c (finditer UPPERC joined) in
  (c, t).

Definition cand_list (c : gmap string entry) : list candidate :=
  (fun kv => {| c_symbol := fst kv; c_reasons := sorted_set (reasons (snd kv)) |})
    <$> sorted_on fst (map_to_list c).

Definition tallies_list (t : gmap string tally) : list tally :=
  sorted_on ticker (snd <$> map_to_list t).

Definition detect_from_story (charref : string -> string) (s : N8nStory) : story_result :=
  let '(c, t) := detect_maps (joined_of charref s) in
  {| r_url := url s; r_title := title s;
     candidates := cand_list c; tallies := tallies_list t |}.

(** ** The cache

    [time.time()] is a float; the clock is modelled by rationals, in
    seconds, and the subtraction is exact. *)

(** The value a quote holds under a key: the key is absent, or it holds
    [null], or it holds a string. *)
Inductive field : Type :=
| Absent
| Null
| Text (s : string).

(** [q.get(key)]: [None] for an absent key and for [null] *)
Definition get (v : field) : option string :=
  match v with
  | Text s => Some s
  | Absent | Null => None
  end.

(** [str(q.get(key, ""))]: [str(None)] is the text None *)
Definition str_get (v : field) : string :=
  match v with
  | Absent => ""
  | Null => "None"
  | Text s => s
  end.

(** One record of the list [quotes] of the search service's answer.  The
    answer is JSON; it is modelled with the shape the service documents:
    each field a string, [null] or absent.  The symbol is read with a
    default, which tells an absent key from [null]; the other fields are
    read with [q.get(key)], which does not, and [None] stands for both. *)
Record quote : Type := {
  q_symbol : field;
  q_shortname : option string;
  q_longname : option string;
  q_exchDisp : option string;
  q_quoteType : option string
}.

(** the decoded answer [r.json()]; [quotes] is [None] when the key is absent *)
Record payload : Type := { quotes : option (list quote) }.

(** a value of the dict [_cache]: [{"ts": ..., "data": ...}] *)
Record cache_entry : Type := { ts : Q; data : payload }.

Definition _TTL : Q := 15 * 60.

(** [cache_get(key)] at the time [now]: the value returned and the cache left *)
Definition cache_get (key : string) (now : Q) (_cache : gmap string cache_entry)
    : option payload * gmap string cache_entry :=
  match _cache !! key with
  | None => (None, _cache)
  | Some v =>
      if Qlt_le_dec _TTL (now - ts v) then (None, delete key _cache)
      else (Some (data v), _cache)
  end.

(** [cache_set(key, data)] at the time [now] *)
Definition cache_set (key : string) (d : payload) (now : Q)
    (_cache : gmap string cache_entry) : gmap string cache_entry :=
  <[key := {| ts := now; data := d |}]> _cache.

(** ** The verification client *)

(** why [client.get], [raise_for_status] or [r.json()] raised *)
Inductive failure : Type :=
| Transport
| Timeout
| Status (code : nat)
| Undecodable.

Inductive outcome : Type :=
| Failed (f : failure)
| Answered (d : payload).

(** What a request meets: the process-wide cache, the clock, and the
    queries sent to the search service so far. *)
Record world : Type := {
  cache : gmap string cache_entry;
  clock : Q;
  calls : list string
}.

(** What the service is run against: the replacement of character
    references of [html.unescape], and the search service, which given the
    queries received so far, the time and the query takes some time and
    then fails or answers. *)
Record env : Type := {
  charref : string -> string;
  http_get : list string -> Q -> string -> Q * outcome
}.

Definition yahoo_search (e : env) (q : string) (w : world)
    : (failure + payload) * world :=
  let key := "yh:" +:+ q in
  let '(hit, c) := cache_get key (clock w) (cache w) in
  match hit with
  | Some d => (inr d, {| cache := c; clock := clock w; calls := calls w |})
  | None =>
      let '(took, out) := http_get e (calls w) (clock w) q in
      let now := (clock w + took)%Q in
      match out with
      | Failed f => (inl f, {| cache := c; clock := now; calls := calls w ++ [q] |})
      | Answered d =>
          (inr d, {| cache := cache_set key d now c; clock := now;
                     calls := calls w ++ [q] |})
      end
  end.

(** the dict built by [verify_symbol] and [resolve_name] *)
Record VerifiedSymbol : Type := {
  v_symbol : option string;
  v_shortname : option string;
  v_longname : option string;
  v_exchange : option string;
  v_type : option string
}.

Definition of_quote (q : quote) : VerifiedSymbol :=
  {| v_symbol := get (q_symbol q); v_shortname := q_shortname q;
     v_longname := q_longname q; v_exchange := q_exchDisp q;
     v_type := q_quoteType q |}.

(** [str(q.get("symbol", "")).upper() == sym.upper()] *)
Definition same_symbol (sym : string) (q : quote) : bool :=
  String.eqb (Str.upper (str_get (q_symbol q))) (Str.upper sym).

(** [q.get("quoteType") in ("EQUITY", "ETF", "MUTUALFUND", "INDEX", "CRYPTO")] *)
Definition instrument (q : quote) : bool :=
  match q_quoteType q with
  | Some t => bool_decide (t ∈ ["EQUITY"; "ETF"; "MUTUALFUND"; "INDEX"; "CRYPTO"])
  | None => false
  end.

(** the body of the two lookups: the first quote that [sel] accepts; an
    exception of [yahoo_search] is caught and gives [None] *)
Definition lookup (sel : quote -> bool) (e : env) (q : string) (w : world)
    : option VerifiedSymbol * world :=
  match yahoo_search e q w with
  | (inr d, w') => (of_quote <$> List.find sel (default [] (quotes d)), w')
  | (inl _, w') => (None, w')
  end.

Definition verify_symbol (e : env) (sym : string) (w : world)
    : option VerifiedSymbol * world :=
  lookup (same_symbol sym) e sym w.

Definition resolve_name (e : env) (name : string) (w : world)
    : option VerifiedSymbol * world :=
  lookup instrument e name w.

(** [await asyncio.gather] of the coroutines [f(x) for x in l]: the results
    come in the order of [l].  The coroutines interleave at their [await]:
    each reads the cache and sends its request before the first answer
    arrives.  The model runs them one after the other, so the times it
    gives the entries stored by a batch, and the clock it leaves, are those
    of that order. *)
Fixpoint gather {A B : Type} (f : A -> world -> B * world) (l : list A) (w : world)
    : list B * world :=
  match l with
  | [] => ([], w)
  | x :: l' =>
      let '(r, w1) := f x w in
      let '(rs, w2) := gather f l' w1 in
      (r :: rs, w2)
  end.

(** ** The endpoint [/discover_n8n] *)

Record DiscoverReq : Type := { stories : list N8nStory; verify : bool }.

(** an element of [per_story] once [allowed_tickers] is attached *)
Record story_item : Type := {
  detected : story_result;
  story_allowed_tickers : list string
}.

Record DiscoverResp : Type := {
  per_story : list story_item;
  union_candidates : list string;
  verified : list VerifiedSymbol;
  allowed_tickers : list string
}.

Definition symbols_of (ps : story_result) : list string :=
  c_symbol <$> candidates ps.

(** [{x["symbol"].upper() for x in verified}]; [None] is the
    AttributeError of [None.upper()] *)
Definition upper_symbols (l : list VerifiedSymbol) : option (list string) :=
  mapM (fun x => Str.upper <$> v_symbol x) l.

Definition attach (allowed : list string) (ps : story_result) : story_item :=
  {| detected := ps;
     story_allowed_tickers :=
       sorted_set (list_to_set
         (filter (fun s => s ∈ allowed) (symbols_of ps))) |}.

(** [None] stands for an exception that leaves the endpoint *)
Definition discover_n8n (e : env) (req : DiscoverReq) (w : world)
    : option DiscoverResp * world :=
  let per := detect_from_story (charref e) <$> stories req in
  let union := sorted_set (list_to_set (mjoin (symbols_of <$> per))) in
  let finish verified allowed :=
    {| per_story := attach allowed <$> per; union_candidates := union;
       verified := verified; allowed_tickers := allowed |} in
  if verify req && negb (bool_decide (union = [])) then
    let '(res, w') := gather (verify_symbol e) union w in
    let verified := omap id res in
    match upper_symbols verified with
    | Some ups => (Some (finish verified (sorted_set (list_to_set ups))), w')
    | None => (None, w')
    end
  else (Some (finish [] union), w).

(** the two values [discover_n8n] computes first, by name *)
Definition detect_all (e : env) (req : DiscoverReq) : list story_result :=
  detect_from_story (charref e) <$> stories req.

Definition union_of (per : list story_result) : list string :=
  sorted_set (list_to_set (mjoin (symbols_of <$> per))).

(** ** The endpoint [/resolve] *)

Record ResolveReq : Type := { tickers : list string; names : list string }.

Record ResolveResp : Type := {
  res_verified : list VerifiedSymbol;
  res_mapped : list VerifiedSymbol;
  res_allowed_tickers : list string
}.

(** [sorted({t.upper() for t in (req.tickers or [])})] *)
Definition resolve_tickers (req : ResolveReq) : list string :=
  sorted_set (list_to_set (Str.upper <$> tickers req)).

(** [sorted({n.strip() for n in (req.names or []) if n and n.strip()})] *)
Definition resolve_names (req : ResolveReq) : list string :=
  sorted_set (list_to_set
    (Str.strip <$> filter (λ n, n ≠ "" ∧ Str.strip n ≠ "") (names req))).

(** the two batches, each sent only when its list is not empty, the
    tickers first; [None] stands for the AttributeError of [None.upper()]
    that leaves the endpoint *)
Definition resolve (e : env) (req : ResolveReq) (w : world)
    : option ResolveResp * world :=
  let ts := resolve_tickers req in
  let ns := resolve_names req in
  let '(verified, w1) :=
    if bool_decide (ts = []) then ([], w)
    else let '(vs, w1) := gather (verify_symbol e) ts w in (omap id vs, w1) in
  let '(mapped, w2) :=
    if bool_decide (ns = []) then ([], w1)
    else let '(ms, w2) := gather (resolve_name e) ns w1 in (omap id ms, w2) in
  match upper_symbols (verified ++ mapped) with
  | Some ups =>
      (Some {| res_verified := verified; res_mapped := mapped;
               res_allowed_tickers := sorted_set (list_to_set ups) |}, w2)
  | None => (None, w2)
  end.

(** ** Stories and services used in the examples *)

(** a story whose entire text is [t], held by one of its text fields *)
Definition story_titled (t : string) : N8nStory :=
  {| url := None; title := Some t; excerpt := None; combined_text := None;
     comments := [] |}.

Definition story_excerpt (t : string) : N8nStory :=
  {| url := None; title := None; excerpt := Some t; combined_text := None;
     comments := [] |}.

Definition story_text (t : string) : N8nStory :=
  {| url := None; title := None; excerpt := None; combined_text := Some t;
     comments := [] |}.

Definition cand (sym : string) (rs : list string) : candidate :=
  {| c_symbol := sym; c_reasons := rs |}.

Definition kept (sym : string) (n : nat) : tally :=
  {| ticker := sym; keep := n; cut := 0; sell := 0 |}.

(** a text that leaves [html.unescape] nothing to replace *)
Definition no_charref (s : string) : string := s.

(** a story for the cashtags of NVDA and AAPL *)
Definition two_cashtags : N8nStory := story_titled "$NVDA and $AAPL".

(** a text with spaces of several kinds around and between its words *)
Definition untidy : string :=
  String (ascii_of_nat 10) "  Nvidia   beats " +:+ String (ascii_of_nat 9) "".

Definition scenario_text : string := "$NVDA and (OXY) look strong, Keep: NVDA, AAPL".

(** the recommendation line of the spec *)
Definition keep_line : string := "Keep: NVDA, AAPL".

(** the line on a line of its own, under the first line of the same block *)
Definition picks_story : N8nStory :=
  story_text ("Picks for today" +:+ String (ascii_of_nat 10) keep_line).

(** the line as the title, and a second list as the excerpt *)
Definition keep_twice : N8nStory :=
  {| url := None; title := Some keep_line; excerpt := Some "keep: nvda";
     combined_text := None; comments := [] |}.

(** the symbols of the tallies of a result *)
Definition tally_symbols (r : story_result) : list string := ticker <$> tallies r.

(** ** What the recommendation lines say, read off the text

    The counters of the tallies are compared with these sums over the
    lines of the text. *)

(** how many times the line lists [sym] under the verb [action] *)
Definition line_votes (action sym : string) (raw_line : string) : nat :=
  match match_start ACTION raw_line with
  | Some m =>
      if String.eqb (Str.lower (m_group 1 m)) action
      then length (filter (λ x, x = sym) (_split_symbols (m_group 2 m)))
      else 0
  | None => 0
  end.

Definition votes (action sym : string) (joined : string) : nat :=
  sum_list_with (line_votes action sym) (Str.split (ascii_of_nat 10) joined).

(** the counter [action] of [sym] in the dict [tallies], 0 without an entry *)
Definition tally_of (t : gmap string tally) (action sym : string) : nat :=
  from_option (count action) 0 (t !! sym).

(** ** Worlds and services used in the examples *)

(** the same process later: the clock reads [t] *)
Definition at_time (t : Q) (w : world) : world :=
  {| cache := cache w; clock := t; calls := calls w |}.

(** a process that has just started *)
Definition fresh : world := {| cache := ∅; clock := 0; calls := [] |}.

Definition nvda_quote : quote :=
  {| q_symbol := Text "NVDA"; q_shortname := Some "NVIDIA Corporation";
     q_longname := Some "NVIDIA Corporation"; q_exchDisp := Some "NASDAQ";
     q_quoteType := Some "EQUITY" |}.

Definition nvda_answer : payload := {| quotes := Some [nvda_quote] |}.

(** a service that answers every query with the quote of NVDA in half a second *)
Definition env_up : env :=
  {| charref := no_charref;
     http_get := λ _ _ _, (1 # 2, Answered nvda_answer) |}.

(** a service that times out after ten seconds *)
Definition env_down : env :=
  {| charref := no_charref;
     http_get := λ _ _ _, (10 # 1, Failed Timeout) |}.

(** a process whose cache holds an answer for NVDA stored at time 0, read
    at time 1000, when the entry has expired *)
Definition stale : world :=
  {| cache := {[ "yh:NVDA" := {| ts := 0; data := nvda_answer |} ]};
     clock := 1000; calls := [] |}.

(** the fresh process once NVDA has been verified against [env_up], then
    once more ten minutes later, and the world that the first lookup is to
    leave *)
Definition nvda_verified : world := snd (verify_symbol env_up "NVDA" fresh).

Definition nvda_verified_again : world :=
  snd (verify_symbol env_up "NVDA" (at_time 600 nvda_verified)).

Definition nvda_stored : world :=
  {| cache := <["yh:NVDA" := {| ts := 0 + (1 # 2); data := nvda_answer |}]> ∅;
     clock := 0 + (1 # 2); calls := [] ++ ["NVDA"] |}.

(** a service whose only quote is an equity without a symbol *)
Definition env_nameless : env :=
  {| charref := no_charref;
     http_get := λ _ _ _,
       (1 # 2, Answered {| quotes := Some [ {| q_symbol := Absent;
                 q_shortname := Some "Acme"; q_longname := None;
                 q_exchDisp := None; q_quoteType := Some "EQUITY" |} ] |}) |}.

(** a service whose only quote is an equity whose symbol is [null] *)
Definition env_null : env :=
  {| charref := no_charref;
     http_get := λ _ _ _,
       (1 # 2, Answered {| quotes := Some [ {| q_symbol := Null;
                 q_shortname := Some "Acme"; q_longname := None;
                 q_exchDisp := None; q_quoteType := Some "EQUITY" |} ] |}) |}.

(** the scenario story, to be verified *)
Definition scenario_request : DiscoverReq :=
  {| stories := [story_text scenario_text]; verify := true |}.

(** the scenario story and a story with a list, not to be verified *)
Definition unverified_request : DiscoverReq :=
  {| stories := [story_text scenario_text; story_text "Keep: ETF, nvda"];
     verify := false |}.

(** ** Sentences of the spec, as it states them *)

(** A symbol verification of [s] does not satisfy a name resolution of
    [s] from the cache: the resolution that follows queries the service. *)
Definition separate_namespaces (e : env) (s : string) (w : world) : Prop :=
  let w1 := snd (verify_symbol e s w) in
  calls (snd (resolve_name e s w1)) = calls w1 ++ [s].

(** A lookup gives "not found" and leaves the cache as it was. *)
Definition leaves_cache_unchanged (e : env) (sym : string) (w : world) : Prop :=
  fst (verify_symbol e sym w) = None
  ∧ cache (snd (verify_symbol e sym w)) = cache w.

(** The story holds the stand-alone line [line]: [line] is a line of one
    of its text blocks. *)
Definition has_line (s : N8nStory) (line : string) : Prop :=
  ∃ b, b ∈ blocks_of s ∧ line ∈ Str.split (ascii_of_nat 10) b.

(** The story yields the tally keep=1, cut=0, sell=0 for [sym], and the
    candidate [sym] carries the reason list:Keep. *)
Definition kept_once (charref : string → string) (s : N8nStory) (sym : string) : Prop :=
  kept sym 1 ∈ tallies (detect_from_story charref s)
  ∧ ∃ c, c ∈ candidates (detect_from_story charref s)
         ∧ c_symbol c = sym ∧ "list:Keep" ∈ c_reasons c.

(** ** What the loops keep true, and what the proofs speak of *)

(** every key is the symbol of its entry, is outside the stop-list, has
    the canonical shape and is in upper case *)
Definition keyed (c : gmap string entry) : Prop :=
  ∀ k e, c !! k = Some e →
    symbol e = k ∧ (k ∉ STOP) ∧ shaped k = true ∧ Str.upper k = k.

(** every key is the ticker of its tally *)
Definition tkeyed (t : gmap string tally) : Prop :=
  ∀ k v, t !! k = Some v → ticker v = k.

(** the three keys of a tally *)
Definition verb (action : string) : Prop :=
  action = "keep" ∨ action = "cut" ∨ action = "sell".

(** the numbers of the groups of a pattern *)
Fixpoint groups (r : re) : list nat :=
  match r with
  | Seq r1 r2 | Alt r1 r2 => groups r1 ++ groups r2
  | Grp n r1 => n :: groups r1
  | _ => []
  end.

(** ** The canonical shape of a symbol, in words *)

(** every character of [s] is in the class [p] *)
Fixpoint all_chars (p : ascii → bool) (s : string) : bool :=
  match s with
  | EmptyString => true
  | String c s' => p c && all_chars p s'
  end.

(** one to five capital letters, then nothing or a dot and one or two
    capital letters *)
Definition canonical (s : string) : Prop :=
  ∃ a b, s = a +:+ b ∧ all_chars Chr.is_AZ a = true
    ∧ 1 ≤ String.length a ≤ 5
    ∧ (b = "" ∨ ∃ x, b = String (ch ".") x ∧ all_chars Chr.is_AZ x = true
                     ∧ 1 ≤ String.length x ≤ 2).

(** the text is made of characters below code 128 *)
Definition ascii_text (s : string) : bool :=
  all_chars (λ c, (Chr.code c <? 128)%N) s.

(** the character before the position once [u] has been read *)
Fixpoint last_prev (prev : option ascii) (u : string) : option ascii :=
  match u with
  | EmptyString => prev
  | String c u' => last_prev (Some c) u'
  end.

(** ** What [add] lets through, and the reasons it can be given *)

(** the three guards of [add], on the symbol in upper case *)
Definition accepts (k : string) : bool :=
  negb (6 <? String.length k) && negb (bool_decide (k ∈ STOP)) && shaped k.

(** the reasons held for [k], none without an entry *)
Definition reasons_at (c : gmap string entry) (k : string) : gset string :=
  from_option reasons ∅ (c !! k).

(** [f"list:{action.capitalize()}"] *)
Definition list_tag (action : string) : string := "list:" +:+ Str.capitalize action.

(** the reasons [detect_from_story] passes to [add] *)
Definition all_tags : list string :=
  ["allcaps"; "cashtag"; "list:Cut"; "list:Keep"; "list:Sell"; "paren"; "url"].

(** every entry has at most six characters and holds reasons, all of them
    among the seven *)
Definition tagged (c : gmap string entry) : Prop :=
  ∀ k e, c !! k = Some e →
    String.length k ≤ 6 ∧ reasons e ≠ ∅ ∧ ∀ r, r ∈ reasons e → r ∈ all_tags.

(** every tally counts something, under a ticker of canonical shape in
    upper case *)
Definition counted (t : gmap string tally) : Prop :=
  ∀ k v, t !! k = Some v →
    0 < keep v + cut v + sell v ∧ shaped k = true ∧ Str.upper k = k.

(** the reasons list:Keep, list:Cut, list:Sell of the candidates say what
    the tallies count, for the symbols [add] lets through *)
Definition lists_agree (st : gmap string entry * gmap string tally) : Prop :=
  ∀ sym a, verb a →
    list_tag a ∈ reasons_at (fst st) sym
    ↔ 0 < tally_of (snd st) a sym ∧ accepts sym = true.

(** ** Runs of a character class, in words *)

(** the length of the longest prefix of [s] in the class, and what follows it *)
Fixpoint run_len (p : ascii → bool) (s : string) : nat :=
  match s with
  | String c s' => if p c then S (run_len p s') else 0
  | EmptyString => 0
  end.

Fixpoint drop_run (p : ascii → bool) (s : string) : string :=
  match s with
  | String c s' => if p c then drop_run p s' else s
  | EmptyString => EmptyString
  end.

(** the pieces of a text between its maximal runs of the class, empty
    pieces kept; [cur] is the piece being read, and [inrun] tells that
    the character before was in the class *)
Fixpoint pieces (p : ascii → bool) (cur : string) (inrun : bool) (s : string)
    : list string :=
  match s with
  | EmptyString => [cur]
  | String c s' =>
      if p c then (if inrun then pieces p "" true s' else cur :: pieces p "" true s')
      else pieces p (cur +:+ String c "") false s'
  end.

(** the text with every maximal run of the class replaced by one space *)
Fixpoint squeeze (p : ascii → bool) (inrun : bool) (s : string) : string :=
  match s with
  | EmptyString => EmptyString
  | String c s' =>
      if p c then (if inrun then squeeze p true s' else String " " (squeeze p true s'))
      else String c (squeeze p false s')
  end.

(** the words of a text: its maximal pieces outside the class, none
    empty, as [str.split()] gives them for the class of the spaces *)
Fixpoint words_go (p : ascii → bool) (cur : string) (s : string) : list string :=
  match s with
  | EmptyString => if is_empty cur then [] else [cur]
  | String c s' =>
      if p c then (if is_empty cur then words_go p "" s' else cur :: words_go p "" s')
      else words_go p (cur +:+ String c "") s'
  end.

Definition words (s : string) : list string := words_go Chr.is_space "" s.

(** a word: not empty, and without a character of the class *)
Definition word_of (p : ascii → bool) (w : string) : Prop :=
  w ≠ "" ∧ all_chars (λ c, negb (p c)) w = true.

(** every space of the text is alone: no two characters of the class [\s]
    follow each other *)
Fixpoint spaced_once (s : string) : bool :=
  match s with
  | EmptyString => true
  | String a s' =>
      negb (Chr.is_space a && from_option Chr.is_space false (head s'))
      && spaced_once s'
  end.

(** the class of [[,\s;/]] *)
Definition separator (c : ascii) : bool :=
  Chr.one_of [ch ","; ch ";"; ch "/"] c || Chr.is_space c.

(** the [i]-th of [n] blocks as a line of [joined]: a space before it
    unless it is the first, a space after it unless it is the last *)
Definition padded (n i : nat) (b : string) : string :=
  (if i is 0 then "" else " ") +:+ b +:+ (if S i =? n then "" else " ").

(** ** What a pattern can read *)

(** the characters a match of the pattern can hold *)
Fixpoint alphabet (r : re) (c : ascii) : bool :=
  match r with
  | Cls p | Rep p _ _ => p c
  | Seq r1 r2 | Alt r1 r2 => alphabet r1 c || alphabet r2 c
  | Grp _ r1 => alphabet r1 c
  | _ => false
  end.

(** where a symbol ends inside its word: at the end of the word or before
    a character that is no letter, digit or underscore; and a symbol
    without a dot is not followed by a dot and a capital letter, which
    would be its suffix *)
Definition symbol_ends (sym post : string) : bool :=
  match post with
  | EmptyString => true
  | String c post' =>
      negb (Chr.is_word c)
      && negb (Chr.eqb c (ch ".") && negb (Str.mem (ch ".") sym)
               && from_option Chr.is_AZ false (head post'))
  end.

(** where a run of capitals starts inside its word: at the start of the
    word, or after a character that is no letter, digit, underscore or dot *)
Definition symbol_starts (pre : string) : bool :=
  negb (from_option (λ c, Chr.is_word c || Chr.eqb c (ch ".")) false (last_prev None pre)).

(** the candidate [sym] of the story is held for the reason [r] *)
Definition candidate_for (charref : string → string) (st : N8nStory) (sym r : string) : Prop :=
  ∃ c, c ∈ candidates (detect_from_story charref st) ∧ c_symbol c = sym ∧ r ∈ c_reasons c.

(** the story has a block with the word [w] *)
Definition has_word (charref : string → string) (st : N8nStory) (w : string) : Prop :=
  ∃ b, b ∈ blocks_of st ∧ w ∈ words (html_unescape charref b).

(** the three words of [URL_TKR] *)
Definition link_words : list string := ["quote"; "symbol"; "ticker"].

(** ** Lists, read without the matcher *)

(** [s] without the word [w] that it starts with, the case not regarded *)
Fixpoint drop_word_i (w s : string) : option string :=
  match w, s with
  | EmptyString, _ => Some s
  | String a w', String c s' => if Chr.lit_i a c then drop_word_i w' s' else None
  | String _ _, EmptyString => None
  end.

(** the verb that [s] starts with, and what follows it *)
Definition verb_of (s : string) : option (string * string) :=
  match drop_word_i "keep" s with
  | Some s' => Some ("keep", s')
  | None =>
      match drop_word_i "cut" s with
      | Some s' => Some ("cut", s')
      | None =>
          match drop_word_i "sell" s with
          | Some s' => Some ("sell", s')
          | None => None
          end
      end
  end.

(** what a line lists: spaces, one of keep, cut and sell in any case,
    spaces, a colon; the verb and the text after the colon *)
Definition listing (line : string) : option (string * string) :=
  match verb_of (Str.lstrip line) with
  | Some (a, s) =>
      match Str.lstrip s with
      | String c after => if Chr.eqb c (ch ":") then Some (a, after) else None
      | EmptyString => None
      end
  | None => None
  end.

(** one block read as a list *)
Definition block_list (st : gmap string entry * gmap string tally) (block : string)
    : gmap string entry * gmap string tally :=
  match listing block with
  | Some (a, after) => foldl (list_sym a) st (_split_symbols after)
  | None => st
  end.

(** the character handed on once [w] has been read off [s] *)
Fixpoint after_i (prev : option ascii) (w s : string) : option ascii :=
  match w, s with
  | String _ w', String c s' => after_i (Some c) w' s'
  | _, _ => prev
  end.

(** the verbs of [ACTION] *)
Definition VERBS : re := Alt (Lit_i "keep") (Alt (Lit_i "cut") (Lit_i "sell")).

(** the end of [ACTION], after the verb *)
Definition TAIL : re :=
  Star Chr.is_space +> Cls (Chr.lit (ch ":")) +> Star Chr.is_space
  +> Grp 2 (Plus Chr.dot) +> Eol.

(** ** Where a reason comes from *)

(** every symbol held for the reason has the property [Q] *)
Definition traced (reason : string) (Q : string → Prop) (c : gmap string entry) : Prop :=
  ∀ k, reason ∈ reasons_at c k → Q k.

(** ** Requests and the cache *)

(** the search service answers, or fails, after some time, never before
    it was asked *)
Definition punctual (e : env) : Prop :=
  ∀ cs t q, (0 <= fst (http_get e cs t q))%Q.

(** between the worlds [w] and [w'] the query [q] was not sent *)
Definition unasked (q : string) (w w' : world) : Prop :=
  ∃ sent, calls w' = calls w ++ sent ∧ q ∉ sent.

(** a lookup of a batch: [verify_symbol] or [resolve_name] *)
Definition look (e : env) (sel : string → quote → bool) (x : string) (w : world)
    : option VerifiedSymbol * world :=
  lookup (sel x) e x w.

(** * Properties *)

(** ** Sorted lists of strings *)

Section sorting_facts.

Lemma sorted_set_elem (s : gset string) (x : string) : x ∈ sorted_set s ↔ x ∈ s.
Proof.
  unfold sorted_set. rewrite merge_sort_Permutation. apply elem_of_elements.
Qed.

Lemma sorted_set_NoDup (s : gset string) : NoDup (sorted_set s).
Proof.
  unfold sorted_set. rewrite merge_sort_Permutation. apply NoDup_elements.
Qed.

Lemma sorted_set_Sorted (s : gset string) : Sorted String.le (sorted_set s).
Proof. apply (Sorted_merge_sort String.le). Qed.

Lemma sorted_set_StronglySorted (s : gset string) :
  StronglySorted String.le (sorted_set s).
Proof. apply (StronglySorted_merge_sort String.le). Qed.

(** sorting the set of a list that is sorted and without repeats gives it back *)
Lemma sorted_set_id (l : list string) :
  Sorted String.le l → NoDup l → sorted_set (list_to_set l) = l.
Proof.
  intros Hs Hn. apply (Sorted_unique String.le).
  - apply sorted_set_Sorted.
  - exact Hs.
  - unfold sorted_set. rewrite merge_sort_Permutation.
    by apply elements_list_to_set.
Qed.

Lemma sorted_on_Permutation {A : Type} (key : A → string) (l : list A) :
  sorted_on key l ≡ₚ l.
Proof. apply merge_sort_Permutation. Qed.

Lemma sorted_on_Sorted {A : Type} (key : A → string) (l : list A) :
  Sorted String.le (key <$> sorted_on key l).
Proof.
  unfold sorted_on.
  assert (Total (λ a b : A, String.le (key a) (key b))) as Htot.
  { intros a b. apply (total String.le). }
  pose proof (Sorted_merge_sort (λ a b : A, String.le (key a) (key b)) l) as Hs.
  eapply Sorted_fmap; [|exact Hs]. auto.
Qed.

End sorting_facts.

(** ** The dict of candidates: what [add] keeps true *)

Lemma chr_upper_idem (c : ascii) : Chr.upper (Chr.upper c) = Chr.upper c.
Proof. by destruct c as [[] [] [] [] [] [] [] []]. Qed.

Lemma upper_idem (s : string) : Str.upper (Str.upper s) = Str.upper s.
Proof.
  induction s as [|c s IH]; [done|]. unfold Str.upper in *. simpl.
  by rewrite chr_upper_idem, IH.
Qed.

Lemma foldl_keeps {A B : Type} (P : A → Prop) (f : A → B → A) (l : list B) (a : A) :
  (∀ a x, P a → P (f a x)) → P a → P (foldl f a l).
Proof.
  intros Hstep. revert a. induction l as [|x l IH]; intros a Ha; simpl; auto.
Qed.

Lemma keyed_empty : keyed ∅.
Proof. intros k e H. by rewrite lookup_empty in H. Qed.

Lemma add_keyed (sym reason : string) (c : gmap string entry) :
  keyed c → keyed (add sym reason c).
Proof.
  intros Hc. unfold add.
  destruct (6 <? String.length (Str.upper sym)); [exact Hc|].
  case_bool_decide as Hstop; [exact Hc|].
  destruct (shaped (Str.upper sym)) eqn:Hshape; simpl; [|exact Hc].
  intros k e. rewrite lookup_insert. case_decide as Hk.
  - intros [= <-]. subst k. simpl.
    split; [|split; [exact Hstop|split; [exact Hshape|apply upper_idem]]].
    destruct (c !! Str.upper sym) as [e0|] eqn:He0; simpl; [|done].
    by apply Hc in He0 as [? _].
  - apply Hc.
Qed.

Lemma add_matches_keyed (r : re) (n : nat) (reason joined : string)
    (c : gmap string entry) :
  keyed c → keyed (add_matches r n reason joined c).
Proof.
  unfold add_matches. apply foldl_keeps. intros a m. apply add_keyed.
Qed.

Lemma action_line_keyed (st : gmap string entry * gmap string tally) (l : string) :
  keyed (fst st) → keyed (fst (action_line st l)).
Proof.
  intros Hst. unfold action_line.
  destruct (match_start ACTION l) as [m|]; [|exact Hst].
  apply (foldl_keeps (λ st, keyed (fst st))); [|exact Hst].
  intros a x Ha. simpl. by apply add_keyed.
Qed.

Lemma allcaps_keyed (c : gmap string entry) (m : mtch) :
  keyed c → keyed (allcaps c m).
Proof.
  intros Hc. unfold allcaps.
  destruct (_ && _); [by apply add_keyed | exact Hc].
Qed.

Lemma detect_maps_keyed (joined : string) : keyed (fst (detect_maps joined)).
Proof.
  unfold detect_maps.
  set (c3 := add_matches URL_TKR 2 "url" joined _).
  assert (keyed c3) as H3.
  { repeat apply add_matches_keyed. apply keyed_empty. }
  pose proof (foldl_keeps (λ st, keyed (fst st)) action_line
                (Str.split (ascii_of_nat 10) joined) (c3, ∅)
                (λ a x, action_line_keyed a x) H3) as H4.
  destruct (foldl action_line (c3, ∅) _) as [c4 t4]. simpl in *.
  apply foldl_keeps; [|exact H4]. intros a m. apply allcaps_keyed.
Qed.

(** ** From the dicts to the lists returned *)

Lemma candidates_detect (charref : string → string) (s : N8nStory) :
  candidates (detect_from_story charref s)
  = cand_list (fst (detect_maps (joined_of charref s))).
Proof. unfold detect_from_story. by destruct (detect_maps _). Qed.

Lemma tallies_detect (charref : string → string) (s : N8nStory) :
  tallies (detect_from_story charref s)
  = tallies_list (snd (detect_maps (joined_of charref s))).
Proof. unfold detect_from_story. by destruct (detect_maps _). Qed.

Lemma elem_of_cand_list (c : gmap string entry) (x : candidate) :
  x ∈ cand_list c ↔
  ∃ e, c !! c_symbol x = Some e ∧ c_reasons x = sorted_set (reasons e).
Proof.
  unfold cand_list. rewrite list_elem_of_fmap. split.
  - intros [[k e] [-> Hin]]. rewrite sorted_on_Permutation in Hin.
    apply elem_of_map_to_list in Hin. by exists e.
  - intros [e [He Hr]]. exists (c_symbol x, e). split.
    + destruct x; simpl in *. by subst.
    + rewrite sorted_on_Permutation. by apply elem_of_map_to_list.
Qed.

Lemma cand_list_symbols (c : gmap string entry) :
  c_symbol <$> cand_list c = fst <$> sorted_on fst (map_to_list c).
Proof.
  unfold cand_list. rewrite <- list_fmap_compose. by apply list_fmap_ext.
Qed.

Lemma cand_list_Sorted (c : gmap string entry) :
  Sorted String.le (c_symbol <$> cand_list c).
Proof. rewrite cand_list_symbols. apply sorted_on_Sorted. Qed.

Lemma cand_list_NoDup (c : gmap string entry) : NoDup (c_symbol <$> cand_list c).
Proof.
  rewrite cand_list_symbols, sorted_on_Permutation. apply NoDup_fst_map_to_list.
Qed.

(** ** Stop-list *)

Lemma candidate_outside_stop (charref : string → string) (s : N8nStory)
    (x : candidate) :
  x ∈ candidates (detect_from_story charref s) → c_symbol x ∉ STOP.
Proof.
  rewrite candidates_detect. intros Hx.
  apply elem_of_cand_list in Hx as [e [He _]].
  by apply detect_maps_keyed in He as (_ & Hstop & _).
Qed.

(** C7. For every input text (and every story built of such texts), no
    symbol of the stop-list appears in the list of candidates extracted,
    whichever matcher proposed it: cashtag, parenthetical, URL, bare
    uppercase or recommendation list all go through [add]. *)
Theorem stop_list_never_candidate (charref : string → string) (s : N8nStory) :
  Forall (λ c, c_symbol c ∉ STOP) (candidates (detect_from_story charref s)).
Proof. apply Forall_forall. intros x. apply candidate_outside_stop. Qed.

(** the stop-listed ETF proposed by all five matchers, and kept by none *)
Example stop_list_five_matchers (charref : string → string) :
  candidates (detect_from_story charref
    {| url := None; title := Some "Keep: ETF"; excerpt := Some "$ETF (ETF)";
       combined_text := Some "see /quote/ETF and ETF"; comments := [] |}) = [].
Proof. vm_compute. reflexivity. Qed.

(** ** The scenario of the spec *)

(** C2, as the spec states it, fails: the three symbols are also bare
    uppercase tokens, and the line does not begin with the verb. *)
Lemma scenario_candidates_not_as_claimed :
  candidates (detect_from_story no_charref (story_text scenario_text))
  ≠ [cand "AAPL" ["list:Keep"]; cand "NVDA" ["cashtag"; "list:Keep"];
     cand "OXY" ["paren"]].
Proof. vm_compute. discriminate. Qed.

(** C2, amended. For a story whose entire text is
    "$NVDA and (OXY) look strong, Keep: NVDA, AAPL" (in its title, its
    excerpt or its combined text), none of NVDA, OXY, AAPL being in the
    stop-list, extraction produces exactly the candidates AAPL with
    reasons {allcaps}, NVDA with reasons {allcaps, cashtag} and OXY with
    reasons {allcaps, paren}, and no tally: the text is one line that does
    not begin with the verb, so [ACTION] does not match it. *)
Theorem scenario_candidates (charref : string → string) :
  let expected :=
    [cand "AAPL" ["allcaps"]; cand "NVDA" ["allcaps"; "cashtag"];
     cand "OXY" ["allcaps"; "paren"]] in
  (("NVDA" ∉ STOP) ∧ ("OXY" ∉ STOP) ∧ ("AAPL" ∉ STOP))
  ∧ match_start ACTION scenario_text = None
  ∧ candidates (detect_from_story charref (story_text scenario_text)) = expected
  ∧ tallies (detect_from_story charref (story_text scenario_text)) = []
  ∧ candidates (detect_from_story charref (story_titled scenario_text)) = expected
  ∧ tallies (detect_from_story charref (story_titled scenario_text)) = []
  ∧ candidates (detect_from_story charref (story_excerpt scenario_text)) = expected
  ∧ tallies (detect_from_story charref (story_excerpt scenario_text)) = [].
Proof.
  split; [|repeat split; vm_compute; reflexivity].
  repeat split; apply not_elem_of_list_to_set; vm_compute;
    intros H; repeat (apply elem_of_cons in H as [H|H]; [discriminate H|]);
    by apply elem_of_nil in H.
Qed.

(** ** The dict of tallies *)

Lemma bump_ticker (a : string) (t : tally) : ticker (bump a t) = ticker t.
Proof. unfold bump. by repeat destruct (String.eqb a _). Qed.

Lemma count_bump (action a : string) (t : tally) :
  verb action →
  count action (bump a t) = count action t + (if String.eqb a action then 1 else 0).
Proof.
  intros [-> | [-> | ->]]; unfold bump, count; simpl;
    destruct (String.eqb a "keep") eqn:Hk;
    destruct (String.eqb a "cut") eqn:Hc;
    destruct (String.eqb a "sell") eqn:Hs; simpl;
    try apply String.eqb_eq in Hk; try apply String.eqb_eq in Hc;
    try apply String.eqb_eq in Hs; subst; try discriminate; lia.
Qed.

Lemma tally_sym_tkeyed (a sym : string) (t : gmap string tally) :
  tkeyed t → tkeyed (tally_sym a sym t).
Proof.
  intros Ht k v. unfold tally_sym. rewrite lookup_insert. case_decide as Hk.
  - intros [= <-]. subst k. rewrite bump_ticker.
    destruct (t !! sym) as [v0|] eqn:Hv0; simpl; [by apply Ht in Hv0 | done].
  - apply Ht.
Qed.

Lemma tally_sym_count (action a s sym : string) (t : gmap string tally) :
  verb action →
  tally_of (tally_sym a s t) action sym
  = tally_of t action sym
    + (if String.eqb a action then length (filter (λ x, x = sym) [s]) else 0).
Proof.
  intros Hv. unfold tally_of, tally_sym. rewrite lookup_insert.
  rewrite filter_cons, filter_nil. case_decide as Hs.
  - subst s. simpl. rewrite (count_bump _ _ _ Hv).
    destruct (t !! sym) as [v0|]; simpl; [|destruct Hv as [-> | [-> | ->]]];
      by destruct (String.eqb a _).
  - simpl. destruct (String.eqb a action); lia.
Qed.

Lemma list_syms_count (action a sym : string) (l : list string)
    (st : gmap string entry * gmap string tally) :
  verb action →
  tally_of (snd (foldl (list_sym a) st l)) action sym
  = tally_of (snd st) action sym
    + (if String.eqb a action then length (filter (λ x, x = sym) l) else 0).
Proof.
  intros Hv. revert st. induction l as [|s l IH]; intros st; simpl foldl.
  - rewrite filter_nil. simpl. destruct (String.eqb a action); lia.
  - rewrite IH. unfold list_sym. simpl snd.
    rewrite (tally_sym_count _ _ _ _ _ Hv).
    rewrite (filter_cons _ s l), filter_cons, filter_nil.
    destruct (String.eqb a action); [|lia].
    case_decide; simpl; lia.
Qed.

Lemma action_line_count (action sym raw_line : string)
    (st : gmap string entry * gmap string tally) :
  verb action →
  tally_of (snd (action_line st raw_line)) action sym
  = tally_of (snd st) action sym + line_votes action sym raw_line.
Proof.
  intros Hv. unfold action_line, line_votes.
  destruct (match_start ACTION raw_line) as [m|]; [|lia].
  by apply list_syms_count.
Qed.

Lemma action_lines_count (action sym : string) (lines : list string)
    (st : gmap string entry * gmap string tally) :
  verb action →
  tally_of (snd (foldl action_line st lines)) action sym
  = tally_of (snd st) action sym + sum_list_with (line_votes action sym) lines.
Proof.
  intros Hv. revert st. induction lines as [|l lines IH]; intros st; simpl.
  - lia.
  - rewrite IH, (action_line_count _ _ _ _ Hv). lia.
Qed.

Lemma action_line_tkeyed (st : gmap string entry * gmap string tally) (l : string) :
  tkeyed (snd st) → tkeyed (snd (action_line st l)).
Proof.
  intros Hst. unfold action_line.
  destruct (match_start ACTION l) as [m|]; [|exact Hst].
  apply (foldl_keeps (λ st, tkeyed (snd st))); [|exact Hst].
  intros a x Ha. simpl. by apply tally_sym_tkeyed.
Qed.

Lemma detect_maps_tallies (joined : string) :
  snd (detect_maps joined)
  = snd (foldl action_line
           (add_matches URL_TKR 2 "url" joined
              (add_matches PAREN 1 "paren" joined
                 (add_matches CASHTAG 1 "cashtag" joined ∅)), ∅)
           (Str.split (ascii_of_nat 10) joined)).
Proof. unfold detect_maps. by destruct (foldl action_line _ _). Qed.

Lemma detect_maps_tkeyed (joined : string) : tkeyed (snd (detect_maps joined)).
Proof.
  rewrite detect_maps_tallies.
  apply (foldl_keeps (λ st, tkeyed (snd st))).
  - intros a x. apply action_line_tkeyed.
  - intros k v H. simpl in H. by rewrite lookup_empty in H.
Qed.

(** the counters of the dict are the votes of the text *)
Lemma detect_maps_votes (action sym joined : string) :
  verb action →
  tally_of (snd (detect_maps joined)) action sym = votes action sym joined.
Proof.
  intros Hv. rewrite detect_maps_tallies, (action_lines_count _ _ _ _ Hv).
  unfold tally_of at 1. simpl. by rewrite lookup_empty.
Qed.

Lemma elem_of_tallies_list (t : gmap string tally) (x : tally) :
  tkeyed t → x ∈ tallies_list t ↔ t !! ticker x = Some x.
Proof.
  intros Ht. unfold tallies_list. rewrite sorted_on_Permutation, list_elem_of_fmap.
  split.
  - intros [[k v] [-> Hin]]. apply elem_of_map_to_list in Hin. simpl.
    by rewrite (Ht _ _ Hin).
  - intros Hx. exists (ticker x, x). split; [done|]. by apply elem_of_map_to_list.
Qed.

Lemma tallies_are_votes (charref : string → string) (s : N8nStory) :
  Forall (λ t,
      keep t = votes "keep" (ticker t) (joined_of charref s)
      ∧ cut t = votes "cut" (ticker t) (joined_of charref s)
      ∧ sell t = votes "sell" (ticker t) (joined_of charref s))
    (tallies (detect_from_story charref s)).
Proof.
  rewrite tallies_detect. apply Forall_forall. intros x Hx.
  apply elem_of_tallies_list in Hx; [|apply detect_maps_tkeyed].
  assert (∀ a, verb a → count a x = votes a (ticker x) (joined_of charref s)) as Hc.
  { intros a Ha. rewrite <- (detect_maps_votes _ _ _ Ha). unfold tally_of.
    by rewrite Hx. }
  repeat split; [apply (Hc "keep") | apply (Hc "cut") | apply (Hc "sell")];
    unfold verb; auto.
Qed.

Lemma voted_is_tallied (charref : string → string) (s : N8nStory) (a sym : string) :
  verb a → 0 < votes a sym (joined_of charref s) →
  sym ∈ tally_symbols (detect_from_story charref s).
Proof.
  intros Ha Hpos. rewrite <- (detect_maps_votes _ _ _ Ha) in Hpos.
  unfold tally_symbols. rewrite tallies_detect. unfold tally_of in Hpos.
  destruct (snd (detect_maps (joined_of charref s)) !! sym) as [v|] eqn:Hv;
    simpl in Hpos; [|lia].
  pose proof (detect_maps_tkeyed _ _ _ Hv) as Hk.
  apply list_elem_of_fmap. exists v. split; [done|].
  apply elem_of_tallies_list; [apply detect_maps_tkeyed|]. by rewrite Hk.
Qed.

(** ** Recommendation lines *)


(** ** The cache *)

Lemma TTL_900 : _TTL = 900%Q.
Proof. reflexivity. Qed.

Lemma cache_get_absent (key : string) (now : Q) (c : gmap string cache_entry) :
  c !! key = None → cache_get key now c = (None, c).
Proof. intros H. unfold cache_get. by rewrite H. Qed.

Lemma cache_get_valid (key : string) (now : Q) (c : gmap string cache_entry)
    (v : cache_entry) :
  c !! key = Some v → (now - ts v <= 900)%Q →
  cache_get key now c = (Some (data v), c).
Proof.
  intros H Hage. unfold cache_get. rewrite H.
  destruct (Qlt_le_dec _TTL (now - ts v)) as [Hlt|Hle]; [|done].
  rewrite TTL_900 in Hlt. exfalso. lra.
Qed.

Lemma cache_get_expired (key : string) (now : Q) (c : gmap string cache_entry)
    (v : cache_entry) :
  c !! key = Some v → (900 < now - ts v)%Q →
  cache_get key now c = (None, delete key c).
Proof.
  intros H Hage. unfold cache_get. rewrite H.
  destruct (Qlt_le_dec _TTL (now - ts v)) as [Hlt|Hle]; [done|].
  rewrite TTL_900 in Hle. exfalso. lra.
Qed.

(** a hit, exactly when there is an entry of age at most 900 *)
Lemma cache_get_hit_iff (key : string) (now : Q) (c : gmap string cache_entry)
    (p : payload) :
  fst (cache_get key now c) = Some p
  ↔ ∃ v, c !! key = Some v ∧ (now - ts v <= 900)%Q ∧ data v = p.
Proof.
  split.
  - unfold cache_get. destruct (c !! key) as [v|] eqn:Hv; [|discriminate].
    destruct (Qlt_le_dec _TTL (now - ts v)) as [Hlt|Hle]; [discriminate|].
    simpl. intros [= <-]. exists v. rewrite TTL_900 in Hle. auto.
  - intros (v & Hv & Hage & <-). by rewrite (cache_get_valid _ _ _ _ Hv Hage).
Qed.

(** a hit leaves the cache as it is; a miss leaves it without the key *)
Lemma cache_get_hit_cache (key : string) (now : Q) (c : gmap string cache_entry)
    (p : payload) :
  fst (cache_get key now c) = Some p → snd (cache_get key now c) = c.
Proof.
  unfold cache_get. destruct (c !! key) as [v|]; [|discriminate].
  by destruct (Qlt_le_dec _TTL (now - ts v)).
Qed.

Lemma cache_get_miss_cache (key : string) (now : Q) (c : gmap string cache_entry) :
  fst (cache_get key now c) = None → snd (cache_get key now c) = delete key c.
Proof.
  unfold cache_get. destruct (c !! key) as [v|] eqn:Hv.
  - by destruct (Qlt_le_dec _TTL (now - ts v)).
  - intros _. simpl. symmetry. by apply delete_id.
Qed.

Lemma cache_set_lookup (key : string) (d : payload) (now : Q)
    (c : gmap string cache_entry) (k : string) :
  cache_set key d now c !! k
  = if decide (key = k) then Some {| ts := now; data := d |} else c !! k.
Proof. unfold cache_set. apply lookup_insert. Qed.

(** ** The search behind both lookups *)

Lemma world_eta (w : world) :
  {| cache := cache w; clock := clock w; calls := calls w |} = w.
Proof. by destruct w. Qed.

Lemma yahoo_search_hit (e : env) (q : string) (w : world) (d : payload) :
  fst (cache_get ("yh:" +:+ q) (clock w) (cache w)) = Some d →
  yahoo_search e q w = (inr d, w).
Proof.
  intros Hhit. pose proof (cache_get_hit_cache _ _ _ _ Hhit) as Hc.
  unfold yahoo_search.
  destruct (cache_get ("yh:" +:+ q) (clock w) (cache w)) as [hit c].
  simpl in *. subst. by rewrite world_eta.
Qed.

Lemma yahoo_search_answered (e : env) (q : string) (w : world) (took : Q)
    (d : payload) :
  fst (cache_get ("yh:" +:+ q) (clock w) (cache w)) = None →
  http_get e (calls w) (clock w) q = (took, Answered d) →
  yahoo_search e q w
  = (inr d,
     {| cache := <["yh:" +:+ q := {| ts := clock w + took; data := d |}]> (cache w);
        clock := clock w + took; calls := calls w ++ [q] |}).
Proof.
  intros Hmiss Hget. pose proof (cache_get_miss_cache _ _ _ Hmiss) as Hc.
  unfold yahoo_search.
  destruct (cache_get ("yh:" +:+ q) (clock w) (cache w)) as [hit c].
  simpl in *. subst. rewrite Hget. unfold cache_set.
  by rewrite insert_delete_eq.
Qed.

Lemma yahoo_search_failed (e : env) (q : string) (w : world) (took : Q)
    (f : failure) :
  fst (cache_get ("yh:" +:+ q) (clock w) (cache w)) = None →
  http_get e (calls w) (clock w) q = (took, Failed f) →
  yahoo_search e q w
  = (inl f,
     {| cache := delete ("yh:" +:+ q) (cache w);
        clock := clock w + took; calls := calls w ++ [q] |}).
Proof.
  intros Hmiss Hget. pose proof (cache_get_miss_cache _ _ _ Hmiss) as Hc.
  unfold yahoo_search.
  destruct (cache_get ("yh:" +:+ q) (clock w) (cache w)) as [hit c].
  simpl in *. subst. by rewrite Hget.
Qed.

(** the service is queried on a miss, and only then *)
Lemma yahoo_search_calls (e : env) (q : string) (w : world) :
  calls (snd (yahoo_search e q w))
  = match fst (cache_get ("yh:" +:+ q) (clock w) (cache w)) with
    | Some _ => calls w
    | None => calls w ++ [q]
    end.
Proof.
  unfold yahoo_search.
  destruct (cache_get ("yh:" +:+ q) (clock w) (cache w)) as [[d|] c]; simpl; [done|].
  destruct (http_get e (calls w) (clock w) q) as [took [f|d]]; done.
Qed.

(** no key but the one of the query is touched *)
Lemma yahoo_search_frame (e : env) (q : string) (w : world) (k : string) :
  k ≠ "yh:" +:+ q → cache (snd (yahoo_search e q w)) !! k = cache w !! k.
Proof.
  intros Hk. unfold yahoo_search.
  destruct (cache_get ("yh:" +:+ q) (clock w) (cache w)) as [[d|] c] eqn:Hg.
  - simpl. pose proof (cache_get_hit_cache ("yh:" +:+ q) (clock w) (cache w) d) as Hc.
    rewrite Hg in Hc. simpl in Hc. by rewrite Hc.
  - pose proof (cache_get_miss_cache ("yh:" +:+ q) (clock w) (cache w)) as Hc.
    rewrite Hg in Hc. simpl in Hc. rewrite Hc by done.
    destruct (http_get e (calls w) (clock w) q) as [took [f|d]]; simpl.
    + by rewrite lookup_delete_ne.
    + unfold cache_set. rewrite lookup_insert_ne by done. by rewrite lookup_delete_ne.
Qed.

Lemma lookup_world (sel : quote → bool) (e : env) (q : string) (w : world) :
  snd (lookup sel e q w) = snd (yahoo_search e q w).
Proof. unfold lookup. by destruct (yahoo_search e q w) as [[f|d] w']. Qed.

Lemma lookup_hit (sel : quote → bool) (e : env) (q : string) (w : world)
    (d : payload) :
  fst (cache_get ("yh:" +:+ q) (clock w) (cache w)) = Some d →
  lookup sel e q w = (of_quote <$> List.find sel (default [] (quotes d)), w).
Proof. intros H. unfold lookup. by rewrite (yahoo_search_hit _ _ _ _ H). Qed.

Lemma lookup_answered (sel : quote → bool) (e : env) (q : string) (w : world)
    (took : Q) (d : payload) :
  fst (cache_get ("yh:" +:+ q) (clock w) (cache w)) = None →
  http_get e (calls w) (clock w) q = (took, Answered d) →
  lookup sel e q w
  = (of_quote <$> List.find sel (default [] (quotes d)),
     {| cache := <["yh:" +:+ q := {| ts := clock w + took; data := d |}]> (cache w);
        clock := clock w + took; calls := calls w ++ [q] |}).
Proof.
  intros H1 H2. unfold lookup. by rewrite (yahoo_search_answered _ _ _ _ _ H1 H2).
Qed.

Lemma lookup_failed (sel : quote → bool) (e : env) (q : string) (w : world)
    (took : Q) (f : failure) :
  fst (cache_get ("yh:" +:+ q) (clock w) (cache w)) = None →
  http_get e (calls w) (clock w) q = (took, Failed f) →
  lookup sel e q w
  = (None,
     {| cache := delete ("yh:" +:+ q) (cache w);
        clock := clock w + took; calls := calls w ++ [q] |}).
Proof.
  intros H1 H2. unfold lookup. by rewrite (yahoo_search_failed _ _ _ _ _ H1 H2).
Qed.

(** a lookup that the service answered, then one within 900 seconds of
    the first, then one when the entry has expired: what was sent *)
Lemma lookup_thrice (sel : quote → bool) (e : env) (q : string) (w : world)
    (took : Q) (d : payload) (t2 t3 : Q) :
  fst (cache_get ("yh:" +:+ q) (clock w) (cache w)) = None →
  http_get e (calls w) (clock w) q = (took, Answered d) →
  (0 <= took)%Q → (t2 - clock w <= 900)%Q → (900 < t3 - (clock w + took))%Q →
  let w1 := snd (lookup sel e q w) in
  let w2 := snd (lookup sel e q (at_time t2 w1)) in
  let w3 := snd (lookup sel e q (at_time t3 w2)) in
  calls w1 = calls w ++ [q] ∧ calls w2 = calls w ++ [q]
  ∧ calls w3 = calls w ++ [q; q].
Proof.
  intros Hmiss Hget Htook H2 H3. simpl.
  rewrite (lookup_answered _ _ _ _ _ _ Hmiss Hget). simpl.
  set (v := {| ts := clock w + took; data := d |}).
  set (c1 := <["yh:" +:+ q := v]> (cache w)).
  assert (c1 !! ("yh:" +:+ q) = Some v) as Hv by apply lookup_insert_eq.
  assert (fst (cache_get ("yh:" +:+ q) t2 c1) = Some d) as Hhit.
  { rewrite (cache_get_valid _ _ _ v Hv); [done|]. simpl. lra. }
  set (w1 := {| cache := c1; clock := clock w + took; calls := calls w ++ [q] |}).
  rewrite (lookup_hit sel e q (at_time t2 w1) d Hhit). simpl.
  split; [done|]. split; [done|].
  rewrite lookup_world, yahoo_search_calls. simpl.
  rewrite (cache_get_expired _ _ _ v Hv); [|simpl; lra]. simpl.
  by rewrite <- app_assoc.
Qed.

(** C3. [cache_get] returns the stored payload exactly when the key has
    an entry of age at most 900 seconds; otherwise it reports a miss and
    leaves the cache without the key.  [cache_set] overwrites the key with
    the payload and the current time.  So when the service answers a
    lookup, a second lookup of the same key within 900 seconds of the first
    sends no query and a third one, once the entry has expired, sends a
    second query. *)
Theorem cache_ttl_one_query :
  (∀ key now c p,
     fst (cache_get key now c) = Some p
     ↔ ∃ v, c !! key = Some v ∧ (now - ts v <= 900)%Q ∧ data v = p)
  ∧ (∀ key now c p,
       fst (cache_get key now c) = Some p → snd (cache_get key now c) = c)
  ∧ (∀ key now c,
       fst (cache_get key now c) = None → snd (cache_get key now c) = delete key c)
  ∧ (∀ key d now c k,
       cache_set key d now c !! k
       = if decide (key = k) then Some {| ts := now; data := d |} else c !! k)
  ∧ (∀ e sym w took d t2 t3,
       fst (cache_get ("yh:" +:+ sym) (clock w) (cache w)) = None →
       http_get e (calls w) (clock w) sym = (took, Answered d) →
       (0 <= took)%Q → (t2 - clock w <= 900)%Q → (900 < t3 - (clock w + took))%Q →
       let w1 := snd (verify_symbol e sym w) in
       let w2 := snd (verify_symbol e sym (at_time t2 w1)) in
       let w3 := snd (verify_symbol e sym (at_time t3 w2)) in
       calls w1 = calls w ++ [sym] ∧ calls w2 = calls w ++ [sym]
       ∧ calls w3 = calls w ++ [sym; sym]).
Proof.
  split; [exact cache_get_hit_iff|].
  split; [exact cache_get_hit_cache|].
  split; [exact cache_get_miss_cache|].
  split; [exact cache_set_lookup|].
  intros e sym w took d t2 t3. apply lookup_thrice.
Qed.

(** a fresh process, NVDA looked up at times 0, 600 and 1000 *)
Lemma cache_ttl_one_query_witness :
  calls nvda_verified = ["NVDA"] ∧ calls nvda_verified_again = ["NVDA"]
  ∧ calls (snd (verify_symbol env_up "NVDA" (at_time 1000 nvda_verified_again)))
    = ["NVDA"; "NVDA"].
Proof.
  destruct cache_ttl_one_query as (_ & _ & _ & _ & H).
  apply (H env_up "NVDA" fresh (1 # 2)%Q nvda_answer 600%Q 1000%Q);
    vm_compute; congruence.
Defined.

(** ** One cache key for both lookups *)

Lemma prefix_symbol_ne (s : string) : "symbol:" +:+ s ≠ "yh:" +:+ s.
Proof. simpl. intros [=]. Qed.

Lemma prefix_name_ne (s : string) : "name:" +:+ s ≠ "yh:" +:+ s.
Proof. simpl. intros [=]. Qed.

(** C1, as the spec states it, fails: after NVDA is verified in a fresh
    process the cache has no key "symbol:NVDA", it has the key "yh:NVDA",
    and the name resolution of NVDA that follows sends no query. *)
Lemma verified_symbol_serves_name :
  cache nvda_verified !! "symbol:NVDA" = None
  ∧ cache nvda_verified !! "yh:NVDA" = Some {| ts := 0 + (1 # 2); data := nvda_answer |}
  ∧ calls nvda_verified = ["NVDA"]
  ∧ resolve_name env_up "NVDA" nvda_verified
    = (Some (of_quote nvda_quote), nvda_verified)
  ∧ ¬ separate_namespaces env_up "NVDA" fresh.
Proof.
  assert (fst (cache_get ("yh:" +:+ "NVDA") (clock fresh) (cache fresh)) = None) as Hm
    by reflexivity.
  assert (http_get env_up (calls fresh) (clock fresh) "NVDA"
          = ((1 # 2)%Q, Answered nvda_answer)) as Hg by reflexivity.
  pose proof (lookup_answered (same_symbol "NVDA") _ _ _ _ _ Hm Hg) as Hv.
  fold (verify_symbol env_up "NVDA" fresh) in Hv.
  unfold separate_namespaces, nvda_verified. rewrite Hv. simpl snd.
  set (w1 := {| cache := _; clock := _; calls := _ |}).
  assert (cache w1 !! "yh:NVDA" = Some {| ts := 0 + (1 # 2); data := nvda_answer |}) as Hk
    by apply lookup_insert_eq.
  assert (resolve_name env_up "NVDA" w1 = (Some (of_quote nvda_quote), w1)) as Hr.
  { unfold resolve_name.
    rewrite (lookup_hit instrument env_up "NVDA" w1 nvda_answer); [done|].
    apply cache_get_hit_iff. eexists. split; [exact Hk|]. split; [|done].
    vm_compute. discriminate. }
  split; [|split; [exact Hk|split; [done|split; [exact Hr|]]]].
  - unfold w1. simpl. rewrite lookup_insert_ne; [apply lookup_empty|]. intros [=].
  - rewrite Hr. simpl. intros Habs. discriminate Habs.
Qed.

(** C1, amended. [verify_symbol] and [resolve_name] both go through
    [yahoo_search], which reads and writes the cache under the one key
    "yh:" + query: neither touches any other key, "symbol:" + s and
    "name:" + s included.  The two lookups share that entry: once a symbol
    verification of s has stored the answer of the service, a name
    resolution of s while the entry is at most 900 seconds old is answered
    from it without a query, and the other way round. *)
Theorem lookups_share_cache_key :
  (∀ e s w k, k ≠ "yh:" +:+ s →
     cache (snd (verify_symbol e s w)) !! k = cache w !! k
     ∧ cache (snd (resolve_name e s w)) !! k = cache w !! k)
  ∧ (∀ e s w,
       cache (snd (verify_symbol e s w)) !! ("symbol:" +:+ s)
       = cache w !! ("symbol:" +:+ s)
       ∧ cache (snd (resolve_name e s w)) !! ("name:" +:+ s)
         = cache w !! ("name:" +:+ s))
  ∧ (∀ e s w took d t,
       fst (cache_get ("yh:" +:+ s) (clock w) (cache w)) = None →
       http_get e (calls w) (clock w) s = (took, Answered d) →
       (t - (clock w + took) <= 900)%Q →
       let stored :=
         {| cache := <["yh:" +:+ s := {| ts := clock w + took; data := d |}]> (cache w);
            clock := clock w + took; calls := calls w ++ [s] |} in
       snd (verify_symbol e s w) = stored
       ∧ snd (resolve_name e s w) = stored
       ∧ resolve_name e s (at_time t stored)
         = (of_quote <$> List.find instrument (default [] (quotes d)), at_time t stored)
       ∧ verify_symbol e s (at_time t stored)
         = (of_quote <$> List.find (same_symbol s) (default [] (quotes d)),
            at_time t stored)).
Proof.
  split; [|split].
  - intros e s w k Hk. unfold verify_symbol, resolve_name.
    rewrite !lookup_world. split; by apply yahoo_search_frame.
  - intros e s w. unfold verify_symbol, resolve_name. rewrite !lookup_world.
    split; apply yahoo_search_frame; [apply prefix_symbol_ne | apply prefix_name_ne].
  - intros e s w took d t Hm Hg Ht stored.
    unfold verify_symbol, resolve_name.
    rewrite !(lookup_answered _ _ _ _ _ _ Hm Hg). fold stored.
    assert (fst (cache_get ("yh:" +:+ s) (clock (at_time t stored))
                   (cache (at_time t stored))) = Some d) as Hhit.
    { apply cache_get_hit_iff. eexists. split; [apply lookup_insert_eq|]. by split. }
    split; [done|]. split; [done|].
    split; by apply lookup_hit.
Qed.

(** NVDA verified in a fresh process, then resolved as a name ten minutes later *)
Lemma lookups_share_cache_key_witness :
  snd (verify_symbol env_up "NVDA" fresh) = nvda_stored
  ∧ snd (resolve_name env_up "NVDA" fresh) = nvda_stored
  ∧ resolve_name env_up "NVDA" (at_time 600 nvda_stored)
    = (Some (of_quote nvda_quote), at_time 600 nvda_stored)
  ∧ verify_symbol env_up "NVDA" (at_time 600 nvda_stored)
    = (Some (of_quote nvda_quote), at_time 600 nvda_stored).
Proof.
  destruct lookups_share_cache_key as (_ & _ & H).
  apply (H env_up "NVDA" fresh (1 # 2)%Q nvda_answer 600%Q);
    [reflexivity | reflexivity | vm_compute; discriminate].
Defined.

(** ** Failed lookups *)

(** a miss now is a miss at every later time *)
Lemma cache_get_miss_later (key : string) (now t : Q) (c : gmap string cache_entry) :
  fst (cache_get key now c) = None → (now <= t)%Q → fst (cache_get key t c) = None.
Proof.
  unfold cache_get. destruct (c !! key) as [v|]; [|done].
  destruct (Qlt_le_dec _TTL (now - ts v)) as [Hlt|Hle]; [|discriminate].
  intros _ Ht. destruct (Qlt_le_dec _TTL (t - ts v)) as [Hlt'|Hle']; [done|].
  exfalso. lra.
Qed.

Lemma cache_get_ext (key : string) (now : Q) (c c' : gmap string cache_entry) :
  c !! key = c' !! key → fst (cache_get key now c) = fst (cache_get key now c').
Proof.
  intros H. unfold cache_get. rewrite H. destruct (c' !! key) as [v|]; [|done].
  by destruct (Qlt_le_dec _TTL (now - ts v)).
Qed.

(** a batch gives one result for each input *)
Lemma gather_length {A B : Type} (f : A → world → B * world) (l : list A) (w : world) :
  length (fst (gather f l w)) = length l.
Proof.
  revert w. induction l as [|a l IH]; intros w; simpl; [done|].
  destruct (f a w) as [r w1]. specialize (IH w1).
  destruct (gather f l w1) as [rs w2]. simpl in *. by rewrite IH.
Qed.




(** ** The endpoint *)

Lemma filter_all {A : Type} (P : A → Prop) `{∀ x, Decision (P x)} (l : list A) :
  Forall P l → filter P l = l.
Proof.
  induction 1 as [|x l Hx Hl IH]; [done|].
  rewrite filter_cons. case_decide; [|done]. by rewrite IH.
Qed.

Lemma upper_empty (s : string) : Str.upper s = "" → s = "".
Proof. by destruct s. Qed.

Lemma symbols_shaped (charref : string → string) (s : N8nStory) (x : string) :
  x ∈ symbols_of (detect_from_story charref s) → shaped x = true.
Proof.
  unfold symbols_of. rewrite candidates_detect, list_elem_of_fmap.
  intros [c [-> Hc]]. apply elem_of_cand_list in Hc as [en [Hen _]].
  by apply detect_maps_keyed in Hen as (_ & _ & Hs & _).
Qed.

Lemma symbols_upper (charref : string → string) (s : N8nStory) (x : string) :
  x ∈ symbols_of (detect_from_story charref s) → Str.upper x = x.
Proof.
  unfold symbols_of. rewrite candidates_detect, list_elem_of_fmap.
  intros [c [-> Hc]]. apply elem_of_cand_list in Hc as [en [Hen _]].
  by apply detect_maps_keyed in Hen as (_ & _ & _ & Hu).
Qed.

Lemma symbols_Sorted (charref : string → string) (s : N8nStory) :
  Sorted String.le (symbols_of (detect_from_story charref s)).
Proof. unfold symbols_of. rewrite candidates_detect. apply cand_list_Sorted. Qed.

Lemma symbols_NoDup (charref : string → string) (s : N8nStory) :
  NoDup (symbols_of (detect_from_story charref s)).
Proof. unfold symbols_of. rewrite candidates_detect. apply cand_list_NoDup. Qed.

Lemma elem_of_union_of (per : list story_result) (x : string) :
  x ∈ union_of per ↔ ∃ ps, ps ∈ per ∧ x ∈ symbols_of ps.
Proof.
  unfold union_of. rewrite sorted_set_elem, elem_of_list_to_set, list_elem_of_join.
  split.
  - intros [l [Hx Hl]]. apply list_elem_of_fmap in Hl as [ps [-> Hps]]. eauto.
  - intros [ps [Hps Hx]]. exists (symbols_of ps). split; [done|].
    by apply list_elem_of_fmap_2.
Qed.

(** what [verify_symbol] finds answers the query: its symbol, when it
    has one, is the query up to case; it has none only when the quote has
    no key symbol and the query is empty, or when the quote holds [null]
    and the query is none, up to case *)
Lemma verify_symbol_found (e : env) (sym : string) (w : world) (x : VerifiedSymbol) :
  fst (verify_symbol e sym w) = Some x →
  match v_symbol x with
  | Some s => Str.upper s = Str.upper sym
  | None => Str.upper sym = "" ∨ Str.upper sym = "NONE"
  end.
Proof.
  unfold verify_symbol, lookup.
  destruct (yahoo_search e sym w) as [[f|d] w']; simpl; [discriminate|].
  destruct (List.find (same_symbol sym) (default [] (quotes d))) as [q|] eqn:Hq;
    simpl; [|discriminate].
  intros [= <-]. apply find_some in Hq as [_ Hq]. unfold same_symbol in Hq.
  apply String.eqb_eq in Hq. simpl.
  destruct (q_symbol q) as [| |s]; simpl get; cbv beta iota; [by left|by right|done].
Qed.

Lemma gather_results {A B : Type} (f : A → world → B * world) (P : A → B → Prop)
    (l : list A) (w : world) :
  (∀ a w, a ∈ l → P a (fst (f a w))) → Forall2 P l (fst (gather f l w)).
Proof.
  revert w. induction l as [|a l IH]; intros w HP; simpl; [constructor|].
  pose proof (HP a w (list_elem_of_here _ _)) as Ha.
  destruct (f a w) as [r w1]. simpl in Ha.
  specialize (IH w1 (λ a' w' Hin, HP a' w' (list_elem_of_further _ _ _ Hin))).
  destruct (gather f l w1) as [rs w2]. simpl in *. by constructor.
Qed.

(** what a batch found was found for one of its inputs *)
Lemma gather_from {A B : Type} (f : A → world → option B * world) (l : list A)
    (w : world) (x : B) :
  x ∈ omap id (fst (gather f l w)) → ∃ a w0, a ∈ l ∧ fst (f a w0) = Some x.
Proof.
  intros Hx. apply list_elem_of_omap in Hx as (o & Ho & Hsome). simpl in Hsome.
  subst o.
  pose proof (gather_results f (λ a r, a ∈ l ∧ ∃ w0, r = fst (f a w0)) l w) as HF.
  apply list_elem_of_lookup in Ho as [i Hi].
  eapply Forall2_lookup_r in HF as (a & _ & Ha & w0 & Hw0); [| |exact Hi].
  - by exists a, w0.
  - intros a w0 Ha. split; [done|]. by exists w0.
Qed.

(** [upper_symbols] succeeds exactly on records that all have a symbol *)
Lemma upper_symbols_Some (l : list VerifiedSymbol) (ups : list string) :
  upper_symbols l = Some ups ↔
  Forall (λ x, is_Some (v_symbol x)) l
  ∧ ups = (λ x, Str.upper (default "" (v_symbol x))) <$> l.
Proof.
  unfold upper_symbols. rewrite mapM_Some. split.
  - induction 1 as [|x y l k Hxy _ [IH1 IH2]]; [done|].
    destruct (v_symbol x) as [s|] eqn:Hs; [|discriminate]. injection Hxy as <-.
    split; [constructor; [by rewrite Hs|done]|]. simpl. by rewrite Hs, IH2.
  - intros [Hl ->]. induction Hl as [|x l [s Hs] _ IH]; [constructor|].
    simpl. constructor; [by rewrite Hs|done].
Qed.

Lemma union_of_upper (e : env) (req : DiscoverReq) :
  Forall (λ sym, Str.upper sym = sym) (union_of (detect_all e req)).
Proof.
  apply Forall_forall. intros x Hx.
  apply elem_of_union_of in Hx as (ps & Hps & Hx).
  unfold detect_all in Hps. apply list_elem_of_fmap in Hps as [st [-> _]].
  by apply symbols_upper in Hx.
Qed.

(** the endpoint, with the lookups of the batch named *)
Lemma discover_n8n_unfold (e : env) (req : DiscoverReq) (w : world) :
  let per := detect_all e req in
  let batch := gather (verify_symbol e) (union_of per) w in
  let found := omap id (fst batch) in
  let finish vs allowed :=
    {| per_story := attach allowed <$> per; union_candidates := union_of per;
       verified := vs; allowed_tickers := allowed |} in
  discover_n8n e req w
  = if verify req && negb (bool_decide (union_of per = [])) then
      (finish found <$> (sorted_set ∘ list_to_set <$> upper_symbols found), snd batch)
    else (Some (finish [] (union_of per)), w).
Proof.
  intros per batch found finish. unfold discover_n8n.
  fold (detect_all e req). fold per. fold (union_of per).
  destruct (verify req && negb (bool_decide (union_of per = []))); [|done].
  subst found batch. destruct (gather (verify_symbol e) (union_of per) w) as [res w'].
  simpl. by destruct (upper_symbols (omap id res)).
Qed.

(** what the endpoint returns, when it returns: an exception leaves it
    when a verified record has no symbol *)
Lemma discover_n8n_inv (e : env) (req : DiscoverReq) (w : world) (resp : DiscoverResp) :
  fst (discover_n8n e req w) = Some resp →
  let per := detect_all e req in
  ∃ vs allowed,
    resp = {| per_story := attach allowed <$> per; union_candidates := union_of per;
              verified := vs; allowed_tickers := allowed |}
    ∧ ((verify req = false ∨ union_of per = []) →
         vs = [] ∧ allowed = union_of per ∧ snd (discover_n8n e req w) = w)
    ∧ (∀ x, x ∈ allowed → x ∈ union_of per).
Proof.
  intros Hresp per. rewrite discover_n8n_unfold in *. fold per in Hresp |- *.
  destruct (verify req) eqn:Hv; simpl in *; cycle 1.
  { injection Hresp as <-. exists [], (union_of per). split; [done|]. split; [done|]. auto. }
  case_bool_decide as Hu; simpl in *.
  { injection Hresp as <-. exists [], (union_of per). split; [done|]. split; [done|]. auto. }
  set (found := omap id (fst (gather (verify_symbol e) (union_of per) w))) in *.
  destruct (upper_symbols found) as [ups|] eqn:Hups; [|discriminate].
  simpl in Hresp. injection Hresp as <-.
  exists found, (sorted_set (list_to_set ups)).
  split; [done|]. split; [intros [?|?]; congruence|].
  intros x Hx. apply sorted_set_elem, elem_of_list_to_set in Hx.
  apply upper_symbols_Some in Hups as [Hall ->].
  apply list_elem_of_fmap in Hx as (v & -> & Hv').
  rewrite Forall_forall in Hall. destruct (Hall v Hv') as [s Hs].
  apply gather_from in Hv' as (sym & w0 & Hsym & Hfound).
  apply verify_symbol_found in Hfound. rewrite Hs in Hfound |- *. simpl.
  rewrite Hfound.
  pose proof (union_of_upper e req) as Hup. rewrite Forall_forall in Hup.
  fold per in Hup. by rewrite (Hup sym Hsym).
Qed.

Lemma attach_allowed (allowed : list string) (ps : story_result) :
  story_allowed_tickers (attach allowed ps)
  = sorted_set (list_to_set (symbols_of ps) ∩ list_to_set allowed).
Proof.
  unfold attach. simpl. f_equal. apply set_eq. intros x.
  rewrite elem_of_intersection, !elem_of_list_to_set, list_elem_of_filter. tauto.
Qed.

Lemma detected_attach (allowed : list string) (per : list story_result) :
  detected <$> (attach allowed <$> per) = per.
Proof.
  rewrite <- list_fmap_compose. rewrite <- (list_fmap_id per) at 2.
  by apply list_fmap_ext.
Qed.

(** C4. In every Discover response the stories are those of the request,
    and for every story the story's allowed_tickers are among the symbols
    of its candidates, which are among union_candidates; the
    allowed_tickers of a story are the sorted intersection of the symbols
    of its candidates with the allowed_tickers of the response. *)
Theorem allowed_subset_candidates_subset_union (e : env) (req : DiscoverReq)
    (w : world) (resp : DiscoverResp) :
  fst (discover_n8n e req w) = Some resp →
  detected <$> per_story resp = detect_from_story (charref e) <$> stories req
  ∧ Forall (λ item,
        story_allowed_tickers item ⊆ symbols_of (detected item)
        ∧ symbols_of (detected item) ⊆ union_candidates resp
        ∧ story_allowed_tickers item
          = sorted_set (list_to_set (symbols_of (detected item))
                        ∩ list_to_set (allowed_tickers resp)))
      (per_story resp).
Proof.
  intros Hresp. destruct (discover_n8n_inv e req w resp Hresp) as (vs & allowed & -> & _).
  simpl. split; [apply detected_attach|].
  apply Forall_forall. intros item Hitem.
  apply list_elem_of_fmap in Hitem as [ps [-> Hps]].
  rewrite attach_allowed. simpl detected. split; [|split; [|done]].
  - intros x Hx. apply sorted_set_elem, elem_of_intersection in Hx as [Hx _].
    by apply elem_of_list_to_set in Hx.
  - intros x Hx. apply elem_of_union_of. eauto.
Qed.

(** the scenario story, verified against the service that knows NVDA *)
Lemma allowed_subset_candidates_subset_union_witness :
  ∃ resp,
    fst (discover_n8n env_up scenario_request fresh) = Some resp
    ∧ Forall (λ item,
          story_allowed_tickers item ⊆ symbols_of (detected item)
          ∧ symbols_of (detected item) ⊆ union_candidates resp
          ∧ story_allowed_tickers item
            = sorted_set (list_to_set (symbols_of (detected item))
                          ∩ list_to_set (allowed_tickers resp)))
        (per_story resp).
Proof.
  eexists. split; [vm_compute; reflexivity|].
  refine (proj2 (allowed_subset_candidates_subset_union env_up scenario_request
                   fresh _ _)).
  vm_compute. reflexivity.
Defined.

(** C5. In every Discover response, union_candidates is the sorted list,
    without repeats, of the symbols of the candidates of all the stories of
    the batch. *)
Theorem union_is_sorted_union (e : env) (req : DiscoverReq) (w : world)
    (resp : DiscoverResp) :
  fst (discover_n8n e req w) = Some resp →
  detected <$> per_story resp = detect_from_story (charref e) <$> stories req
  ∧ Sorted String.le (union_candidates resp)
  ∧ NoDup (union_candidates resp)
  ∧ (∀ x, x ∈ union_candidates resp
          ↔ ∃ item, item ∈ per_story resp ∧ x ∈ symbols_of (detected item)).
Proof.
  intros Hresp. destruct (discover_n8n_inv e req w resp Hresp) as (vs & allowed & -> & _).
  simpl.
  split; [apply detected_attach|].
  split; [apply sorted_set_Sorted|split; [apply sorted_set_NoDup|]].
  intros x. rewrite elem_of_union_of. split.
  - intros (ps & Hps & Hx). exists (attach allowed ps).
    split; [by apply list_elem_of_fmap_2 | done].
  - intros (item & Hitem & Hx).
    apply list_elem_of_fmap in Hitem as [ps [-> Hps]]. eauto.
Qed.

(** the scenario story and a story with a list, not verified *)
Lemma union_is_sorted_union_witness :
  ∃ resp,
    fst (discover_n8n env_down unverified_request fresh) = Some resp
    ∧ Sorted String.le (union_candidates resp)
    ∧ NoDup (union_candidates resp)
    ∧ ∀ x, x ∈ union_candidates resp
           ↔ ∃ item, item ∈ per_story resp ∧ x ∈ symbols_of (detected item).
Proof.
  eexists. split; [vm_compute; reflexivity|].
  refine (proj2 (union_is_sorted_union env_down unverified_request fresh _ _)).
  vm_compute. reflexivity.
Defined.

(** C10. When a Discover request has verify set to false, or the union of
    candidates is empty, no verification is performed (the cache, the clock
    and the queries sent are as before), and the response holds the
    detection of every story of the request, the union of their candidate
    symbols as union_candidates, the empty list as verified, and
    union_candidates as allowed_tickers; the allowed_tickers of each story
    are the symbols of all its candidates, in order. *)
Theorem discover_without_verification (e : env) (req : DiscoverReq) (w : world)
    (resp : DiscoverResp) :
  fst (discover_n8n e req w) = Some resp →
  verify req = false ∨ union_candidates resp = [] →
  snd (discover_n8n e req w) = w
  ∧ detected <$> per_story resp = detect_from_story (charref e) <$> stories req
  ∧ union_candidates resp
    = sorted_set (list_to_set (mjoin (symbols_of <$> (detected <$> per_story resp))))
  ∧ verified resp = []
  ∧ allowed_tickers resp = union_candidates resp
  ∧ Forall (λ item,
        story_allowed_tickers item = symbols_of (detected item)
        ∧ Sorted String.le (symbols_of (detected item)))
      (per_story resp).
Proof.
  intros Hresp Hcase.
  destruct (discover_n8n_inv e req w resp Hresp) as (vs & allowed & -> & Hoff & _).
  simpl in Hcase. destruct (Hoff Hcase) as (-> & -> & ->). simpl.
  split; [done|]. split; [apply detected_attach|].
  split; [by rewrite detected_attach|]. split; [done|]. split; [done|].
  apply Forall_forall. intros item Hitem.
  apply list_elem_of_fmap in Hitem as [ps [-> Hps]]. simpl.
  pose proof Hps as Hst. unfold detect_all in Hst.
  apply list_elem_of_fmap in Hst as [st [-> _]].
  split; [|apply symbols_Sorted].
  rewrite filter_all.
  - apply sorted_set_id; [apply symbols_Sorted | apply symbols_NoDup].
  - apply Forall_forall. intros x Hx. apply elem_of_union_of. eauto.
Qed.

(** the scenario story and a story with a list, not verified, the service down *)
Lemma discover_without_verification_witness :
  ∃ resp,
    fst (discover_n8n env_down unverified_request fresh) = Some resp
    ∧ snd (discover_n8n env_down unverified_request fresh) = fresh
    ∧ verified resp = []
    ∧ allowed_tickers resp = union_candidates resp.
Proof.
  eexists. split; [vm_compute; reflexivity|].
  assert (verify unverified_request = false) as Hoff by reflexivity.
  destruct (discover_without_verification env_down unverified_request fresh _
              ltac:(vm_compute; reflexivity) (or_introl Hoff))
    as (Hw & _ & _ & Hv & Ha & _).
  split; [exact Hw|]. split; [exact Hv|exact Ha].
Defined.

(** the scenario story and a story with a list, verification off; then a
    story without candidates, verification on *)
Example discover_verify_off :
  discover_n8n env_down
    {| stories := [story_text scenario_text; story_text "Keep: ETF, nvda"];
       verify := false |} fresh
  = (Some {| per_story :=
               [ {| detected := detect_from_story no_charref (story_text scenario_text);
                    story_allowed_tickers := ["AAPL"; "NVDA"; "OXY"] |};
                 {| detected :=
                      detect_from_story no_charref (story_text "Keep: ETF, nvda");
                    story_allowed_tickers := ["NVDA"] |} ];
             union_candidates := ["AAPL"; "NVDA"; "OXY"];
             verified := [];
             allowed_tickers := ["AAPL"; "NVDA"; "OXY"] |}, fresh).
Proof. vm_compute. reflexivity. Qed.

Example discover_nothing_found :
  discover_n8n env_down
    {| stories := [story_text "nothing to see here"]; verify := true |} fresh
  = (Some {| per_story :=
               [ {| detected :=
                      {| r_url := None; r_title := None; candidates := [];
                         tallies := [] |};
                    story_allowed_tickers := [] |} ];
             union_candidates := []; verified := []; allowed_tickers := [] |},
     fresh).
Proof. vm_compute. reflexivity. Qed.

(** the spec's last scenario: the service knows NVDA only; OXY and AAPL
    stay in union_candidates and are absent from verified and allowed *)
Example discover_unmatched_stays_in_union :
  (λ r, (union_candidates <$> fst r, verified <$> fst r, allowed_tickers <$> fst r))
    (discover_n8n env_up {| stories := [story_text scenario_text]; verify := true |}
       fresh)
  = (Some ["AAPL"; "NVDA"; "OXY"], Some [of_quote nvda_quote], Some ["NVDA"]).
Proof. vm_compute. reflexivity. Qed.

(** ** The verb of a recommendation line

    On the text modelled, the first group of [ACTION] is keep, cut or
    sell up to case, so the key [action] of [t[action] += 1] is one of
    the three keys of the tally. *)

Section run_facts.
Context {R : Type}.

Lemma rep_continues (p : ascii → bool) (lo : nat) (hi : option nat)
    (prev : option ascii) (s : string) (g : caps) (k : @cont R) (x : R) :
  rep p lo hi prev s g k = Some x → ∃ prev' s', k prev' s' g = Some x.
Proof.
  revert lo hi prev. induction s as [|c s IH]; intros lo hi prev; simpl.
  - destruct lo; [eauto | discriminate].
  - destruct (p c && hi_open hi).
    + destruct (rep p (Nat.pred lo) (Nat.pred <$> hi) (Some c) s g k) as [y|] eqn:Hy.
      * intros [= <-]. by apply IH in Hy.
      * destruct lo; [eauto | discriminate].
    + destruct lo; [eauto | discriminate].
Qed.

(** a match hands its continuation the groups it was given, under the
    groups of the pattern *)
Lemma run_continues (r : re) (prev : option ascii) (s : string) (g : caps)
    (k : @cont R) (x : R) :
  run r prev s g k = Some x →
  ∃ prev' s' added,
    k prev' s' (added ++ g) = Some x ∧ Forall (λ e, fst e ∈ groups r) added.
Proof.
  revert prev s g k. induction r as [|p|r1 IH1 r2 IH2|r1 IH1 r2 IH2|p lo hi|n r1 IH1| | |];
    intros prev s g k; simpl.
  - intros H. by exists prev, s, [].
  - destruct s as [|c s]; [discriminate|]. destruct (p c); [|discriminate].
    intros H. by exists (Some c), s, [].
  - intros H. apply IH1 in H as (p1 & s1 & a1 & H & Ha1).
    apply IH2 in H as (p2 & s2 & a2 & H & Ha2).
    exists p2, s2, (a2 ++ a1). rewrite <- app_assoc. split; [done|].
    apply Forall_app. split; eapply Forall_impl; eauto; simpl; intros;
      apply elem_of_app; auto.
  - destruct (run r1 prev s g k) as [y|] eqn:Hy.
    + intros [= <-]. apply IH1 in Hy as (p1 & s1 & a1 & H & Ha1).
      exists p1, s1, a1. split; [done|].
      eapply Forall_impl; eauto; simpl; intros; apply elem_of_app; auto.
    + intros H. apply IH2 in H as (p2 & s2 & a2 & H & Ha2).
      exists p2, s2, a2. split; [done|].
      eapply Forall_impl; eauto; simpl; intros; apply elem_of_app; auto.
  - intros H. apply rep_continues in H as (p1 & s1 & H). by exists p1, s1, [].
  - intros H. apply IH1 in H as (p1 & s1 & a1 & H & Ha1).
    exists p1, s1, ((n, String.substring 0 (String.length s - String.length s1) s) :: a1).
    split; [done|]. constructor; [left|].
    eapply Forall_impl; eauto; simpl; intros; by right.
  - destruct (xorb _ _); [|discriminate]. intros H. by exists prev, s, [].
  - destruct prev; [discriminate|]. intros H. by exists None, s, [].
  - destruct (at_eol s); [|discriminate]. intros H. by exists prev, s, [].
Qed.

Lemma chr_lit_i_lower (a c : ascii) : Chr.lit_i a c = true → Chr.lower c = Chr.lower a.
Proof.
  unfold Chr.lit_i, Chr.eqb, Chr.code. intros H. apply N.eqb_eq in H.
  rewrite <- (ascii_N_embedding (Chr.lower c)), <- H. apply ascii_N_embedding.
Qed.

(** a literal under [(?i)] takes a prefix equal to it up to case *)
Lemma run_Lit_i (w : string) (prev : option ascii) (s : string) (g : caps)
    (k : @cont R) (x : R) :
  run (Lit_i w) prev s g k = Some x →
  ∃ u s' prev',
    s = u +:+ s' ∧ Str.lower u = Str.lower w ∧ k prev' s' g = Some x.
Proof.
  revert prev s. induction w as [|a w IH]; intros prev s; simpl.
  - intros H. by exists "", s, prev.
  - destruct s as [|c s]; [discriminate|].
    destruct (Chr.lit_i a c) eqn:Hc; [|discriminate].
    intros H. apply IH in H as (u & s' & prev' & -> & Hu & H).
    exists (String c u), s', prev'. split; [done|]. split; [|done].
    unfold Str.lower in *. simpl. by rewrite Hu, (chr_lit_i_lower _ _ Hc).
Qed.

End run_facts.

Lemma substring_prefix (u s : string) :
  String.substring 0 (String.length (u +:+ s) - String.length s) (u +:+ s) = u.
Proof.
  assert (∀ u s, String.length (u +:+ s) = String.length u + String.length s) as Hlen.
  { clear. intros u s. induction u as [|c u IH]; simpl; [done|]. by rewrite IH. }
  rewrite Hlen. replace (String.length u + String.length s - String.length s)
    with (String.length u) by lia.
  induction u as [|c u IH]; simpl; [by destruct s|]. by rewrite IH.
Qed.

Lemma group_under (n : nat) (u : string) (added : caps) :
  Forall (λ e, fst e ≠ n) added → group n (added ++ [(n, u)]) = Some u.
Proof.
  unfold group. induction 1 as [|[m v] added Hm Hadd IH]; simpl.
  - by rewrite Nat.eqb_refl.
  - simpl in Hm. apply Nat.eqb_neq in Hm. by rewrite Hm.
Qed.

Section run_steps.
Context {R : Type} (k : @cont R) (x : R).

Lemma run_Seq_inv (r1 r2 : re) (prev : option ascii) (s : string) (g : caps) :
  run (Seq r1 r2) prev s g k = Some x →
  run r1 prev s g (λ prev' s' g', run r2 prev' s' g' k) = Some x.
Proof. intros H. exact H. Qed.

Lemma run_Bol_inv (prev : option ascii) (s : string) (g : caps) :
  run Bol prev s g k = Some x → k None s g = Some x.
Proof. simpl. by destruct prev. Qed.

Lemma run_Rep_inv (p : ascii → bool) (lo : nat) (hi : option nat)
    (prev : option ascii) (s : string) (g : caps) :
  run (Rep p lo hi) prev s g k = Some x → ∃ prev' s', k prev' s' g = Some x.
Proof. apply rep_continues. Qed.

Lemma run_Grp_inv (n : nat) (r : re) (prev : option ascii) (s : string) (g : caps) :
  run (Grp n r) prev s g k = Some x →
  run r prev s g (λ prev' s' g',
    k prev' s' ((n, String.substring 0 (String.length s - String.length s') s) :: g'))
  = Some x.
Proof. intros H. exact H. Qed.

Lemma run_Alt_inv (r1 r2 : re) (prev : option ascii) (s : string) (g : caps) :
  run (Alt r1 r2) prev s g k = Some x →
  run r1 prev s g k = Some x ∨ run r2 prev s g k = Some x.
Proof. simpl. destruct (run r1 prev s g k); [intros [= <-]|]; auto. Qed.

End run_steps.

Lemma ACTION_verb (raw_line : string) (m : mtch) :
  match_start ACTION raw_line = Some m → verb (Str.lower (m_group 1 m)).
Proof.
  unfold match_start, at_pos.
  destruct (run ACTION None raw_line [] _) as [[g rest]|] eqn:Hrun; [|discriminate].
  intros [= <-]. unfold m_group. simpl m_caps.
  unfold ACTION in Hrun.
  apply run_Seq_inv, run_Bol_inv, run_Seq_inv, run_Rep_inv in Hrun as (p1 & s1 & Hrun).
  apply run_Seq_inv, run_Grp_inv in Hrun.
  assert (∃ u added,
    verb (Str.lower u) ∧ g = added ++ [(1, u)] ∧ Forall (λ e, fst e ≠ 1) added)
    as (u & added & Hu & -> & Hadd).
  { assert (∀ w, verb (Str.lower w) →
      run (Lit_i w) p1 s1 [] (λ prev' s' g',
        run (Star Chr.is_space +> Cls (Chr.lit (ch ":")) +> Star Chr.is_space
             +> Grp 2 (Plus Chr.dot) +> Eol) prev' s'
          ((1, String.substring 0 (String.length s1 - String.length s') s1) :: g')
          (λ _ s'' g'', Some (g'', s''))) = Some (g, rest) →
      ∃ u added,
        verb (Str.lower u) ∧ g = added ++ [(1, u)] ∧ Forall (λ e, fst e ≠ 1) added)
      as Hword.
    { intros w Hw H. apply run_Lit_i in H as (u & s' & p2 & -> & Hlow & H).
      rewrite substring_prefix in H.
      apply run_continues in H as (p3 & s3 & added & [= <- _] & Hadd).
      exists u, added. split; [by rewrite Hlow|]. split; [done|].
      eapply Forall_impl; [exact Hadd|]. simpl. intros e He Heq.
      rewrite Heq in He. apply list_elem_of_singleton in He. discriminate He. }
    apply run_Alt_inv in Hrun as [H|H]; [apply (Hword "keep"); [by left|exact H]|].
    apply run_Alt_inv in H as [H|H]; [apply (Hword "cut"); [by right; left|exact H]|].
    apply (Hword "sell"); [by right; right|exact H]. }
  by rewrite group_under.
Qed.

(** every line that [ACTION] matches bumps one of the three counters *)
Lemma action_line_bumps (raw_line : string) (m : mtch) (t : tally) :
  match_start ACTION raw_line = Some m →
  keep (bump (Str.lower (m_group 1 m)) t) + cut (bump (Str.lower (m_group 1 m)) t)
  + sell (bump (Str.lower (m_group 1 m)) t)
  = S (keep t + cut t + sell t).
Proof.
  intros Hm. destruct (ACTION_verb _ _ Hm) as [-> | [-> | ->]]; simpl; lia.
Qed.

(** ** Lines and blocks

    [_clean] turns every run of white space of a block, line feeds
    included, into one space, so the lines of [joined] are the blocks of
    the story: a list written on a line of its own inside a longer block is
    not a line of [joined], and a block that begins with a list is one list
    to its end. *)
Example list_line_inside_block (charref : string → string) :
  let nl := String (ascii_of_nat 10) "" in
  tallies (detect_from_story charref
             (story_text ("Picks for today" +:+ nl +:+ "Keep: NVDA, AAPL"))) = []
  ∧ tallies (detect_from_story charref
               (story_text ("Keep: NVDA, AAPL" +:+ nl +:+ "Sell: OXY")))
    = [kept "AAPL" 1; kept "NVDA" 1; kept "OXY" 1].
Proof. split; vm_compute; reflexivity. Qed.

(** * Further properties of the service *)

(** ** Strings *)

Lemma app_cons (c : ascii) (s t : string) : String c s +:+ t = String c (s +:+ t).
Proof. reflexivity. Qed.

Lemma app_empty_l (s : string) : "" +:+ s = s.
Proof. reflexivity. Qed.

Lemma app_empty_r (s : string) : s +:+ "" = s.
Proof. induction s as [|c s IH]; [done|]. by rewrite app_cons, IH. Qed.

Lemma app_assoc_s (s t u : string) : (s +:+ t) +:+ u = s +:+ (t +:+ u).
Proof. induction s as [|c s IH]; [done|]. by rewrite !app_cons, IH. Qed.

Lemma length_app_s (s t : string) :
  String.length (s +:+ t) = String.length s + String.length t.
Proof. induction s as [|c s IH]; [done|]. rewrite app_cons. simpl. by rewrite IH. Qed.

Lemma chr_eqb_eq (a b : ascii) : Chr.eqb a b = true ↔ a = b.
Proof.
  unfold Chr.eqb, Chr.code. rewrite N.eqb_eq. split; [|by intros ->].
  intros H. rewrite <- (ascii_N_embedding a), H. apply ascii_N_embedding.
Qed.

(** ** Repetitions: what they read *)

Section rep_facts.
Context {R : Type} (k : @cont R) (x : R).

(** a repetition reads a prefix in the class, of a length within its bounds *)
Lemma rep_prefix (p : ascii → bool) (lo : nat) (hi : option nat)
    (prev : option ascii) (s : string) (g : caps) :
  rep p lo hi prev s g k = Some x →
  ∃ u s', s = u +:+ s' ∧ all_chars p u = true ∧ lo ≤ String.length u
    ∧ (∀ h, hi = Some h → String.length u ≤ h)
    ∧ k (last_prev prev u) s' g = Some x.
Proof.
  revert lo hi prev. induction s as [|c s IH]; intros lo hi prev.
  - simpl. destruct lo; [|discriminate]. intros H.
    exists "", "". repeat split; [lia | intros; simpl; lia | done].
  - assert (match lo with 0 => k prev (String c s) g | S _ => None end = Some x →
            ∃ u s', String c s = u +:+ s' ∧ all_chars p u = true
              ∧ lo ≤ String.length u ∧ (∀ h, hi = Some h → String.length u ≤ h)
              ∧ k (last_prev prev u) s' g = Some x) as Hstop.
    { destruct lo; [|discriminate]. intros H.
      exists "", (String c s). repeat split; [lia | intros; simpl; lia | done]. }
    simpl. destruct (p c) eqn:Hc; simpl; [|exact Hstop].
    destruct (hi_open hi) eqn:Hh; [|exact Hstop].
    destruct (rep p (Nat.pred lo) (Nat.pred <$> hi) (Some c) s g k) as [y|] eqn:Hy;
      [|exact Hstop].
    intros [= ->]. apply IH in Hy as (u & s' & -> & Hu & Hlo & Hhi & Hk).
    exists (String c u), s'. rewrite app_cons. simpl. rewrite Hc, Hu.
    repeat split; [lia | | done].
    intros h ->. destruct h as [|h]; [discriminate|].
    specialize (Hhi h eq_refl). lia.
Qed.

(** a run of the class that cannot be longer is read whole *)
Lemma rep_max (p : ascii → bool) (lo : nat) (hi : option nat)
    (prev : option ascii) (u s' : string) (g : caps) :
  all_chars p u = true → lo ≤ String.length u →
  (∀ h, hi = Some h → String.length u ≤ h) →
  (hi = Some (String.length u) ∨ from_option p false (head s') = false) →
  k (last_prev prev u) s' g = Some x →
  rep p lo hi prev (u +:+ s') g k = Some x.
Proof.
  revert lo hi prev. induction u as [|c u IH]; intros lo hi prev Hu Hlo Hhi Hend Hk.
  - rewrite app_empty_l. simpl in *. assert (lo = 0) as -> by lia.
    destruct s' as [|c s']; simpl; [done|].
    destruct Hend as [-> | Hc]; simpl in *; [by rewrite andb_false_r|by rewrite Hc].
  - rewrite app_cons. simpl in *. apply andb_true_iff in Hu as [Hc Hu].
    rewrite Hc. simpl.
    assert (hi_open hi = true) as ->.
    { destruct hi as [[|h]|]; try done. specialize (Hhi 0 eq_refl). lia. }
    rewrite (IH (Nat.pred lo) (Nat.pred <$> hi) (Some c)); [done|done|lia| | |done].
    + intros h Hh. destruct hi as [[|h']|]; simpl in Hh; try discriminate.
      * specialize (Hhi 0 eq_refl). lia.
      * injection Hh as <-. specialize (Hhi (S h') eq_refl). lia.
    + destruct Hend as [-> | Hc']; [by left | by right].
Qed.

Lemma run_Cls_inv (p : ascii → bool) (prev : option ascii) (s : string) (g : caps) :
  run (Cls p) prev s g k = Some x →
  ∃ c s', s = String c s' ∧ p c = true ∧ k (Some c) s' g = Some x.
Proof.
  simpl. destruct s as [|c s]; [discriminate|]. destruct (p c) eqn:Hc; [|discriminate].
  intros H. by exists c, s.
Qed.

End rep_facts.

(** ** The canonical shape *)

Lemma shaped_canonical (s : string) : shaped s = true ↔ canonical s.
Proof.
  unfold shaped, fullmatch. split.
  - destruct (run SHAPE None s [] _) as [g|] eqn:Hrun; [intros _|discriminate].
    unfold SHAPE in Hrun. apply run_Seq_inv in Hrun.
    apply rep_prefix in Hrun as (a & b & -> & Ha & Hlo & Hhi & Hrun).
    specialize (Hhi 5 eq_refl). exists a, b. split; [done|]. split; [done|].
    split; [lia|]. unfold SUFFIX, Opt in Hrun.
    apply run_Alt_inv in Hrun as [Hrun|Hrun].
    + right. apply run_Seq_inv, run_Cls_inv in Hrun as (c & t & -> & Hc & Hrun).
      apply chr_eqb_eq in Hc as <-.
      apply rep_prefix in Hrun as (x & t' & -> & Hx & Hlo' & Hhi' & Hrun).
      specialize (Hhi' 2 eq_refl). destruct t'; [|discriminate].
      exists x. rewrite app_empty_r. split; [done|]. split; [done|lia].
    + left. simpl in Hrun. by destruct b.
  - intros (a & b & -> & Ha & Hlen & Hb).
    assert (∃ g, run SHAPE None (a +:+ b) []
                   (λ _ s' g, if is_empty s' then Some g else None) = Some g)
      as [g ->]; [|done].
    exists []. unfold SHAPE. apply rep_max; [done|lia|intros h [= <-]; lia| |].
    + right. destruct Hb as [-> | (x & -> & _)]; done.
    + unfold SUFFIX, Opt. destruct Hb as [-> | (x & -> & Hx & Hlen')]; [done|].
      cbn [run]. assert (Chr.lit (ch ".") (ch ".") = true) as -> by done.
      rewrite <- (app_empty_r x).
      rewrite (rep_max (R:=caps) _ [] Chr.is_AZ 1 (Some 2) (Some (ch ".")) x "" []); [done|done|lia|intros h [= <-]; lia|by right|done].
Qed.

(** ** What [add] does *)

Lemma add_unfold (sym reason : string) (c : gmap string entry) :
  add sym reason c
  = if accepts (Str.upper sym) then
      <[Str.upper sym :=
          {| symbol := symbol (default {| symbol := Str.upper sym; reasons := ∅ |}
                                 (c !! Str.upper sym));
             reasons := reasons_at c (Str.upper sym) ∪ {[reason]} |}]> c
    else c.
Proof.
  unfold add, accepts, reasons_at.
  destruct (6 <? String.length (Str.upper sym)); [done|].
  case_bool_decide; [done|]. destruct (shaped (Str.upper sym)); [|done].
  simpl. by destruct (c !! Str.upper sym).
Qed.

Lemma reasons_at_add (sym reason : string) (c : gmap string entry) (k : string) :
  reasons_at (add sym reason c) k
  = if accepts (Str.upper sym) && bool_decide (k = Str.upper sym)
    then reasons_at c k ∪ {[reason]} else reasons_at c k.
Proof.
  rewrite add_unfold. destruct (accepts (Str.upper sym)); [|done]. simpl.
  unfold reasons_at at 1. rewrite lookup_insert.
  case_bool_decide as Hk; case_decide as Hk'; try congruence; [by subst|done].
Qed.

Lemma lookup_add_ne (sym reason : string) (c : gmap string entry) (k : string) :
  k ≠ Str.upper sym → add sym reason c !! k = c !! k.
Proof.
  intros Hk. rewrite add_unfold. destruct (accepts (Str.upper sym)); [|done].
  by rewrite lookup_insert_ne.
Qed.

Lemma dom_add (sym reason : string) (c : gmap string entry) :
  dom (add sym reason c)
  = if accepts (Str.upper sym) then {[Str.upper sym]} ∪ dom c else dom c.
Proof.
  rewrite add_unfold. destruct (accepts (Str.upper sym)); [|done].
  by rewrite dom_insert_L.
Qed.

Lemma add_tagged (sym reason : string) (c : gmap string entry) :
  reason ∈ all_tags → tagged c → tagged (add sym reason c).
Proof.
  intros Hr Hc k e. rewrite add_unfold.
  destruct (accepts (Str.upper sym)) eqn:Hacc; [|apply Hc].
  rewrite lookup_insert. case_decide as Hk; [|apply Hc].
  intros [= <-]. subst k. simpl.
  unfold accepts in Hacc. apply andb_true_iff in Hacc as [Hacc _].
  apply andb_true_iff in Hacc as [Hlen _]. apply negb_true_iff, Nat.ltb_ge in Hlen.
  split; [done|].
  split; [by apply (non_empty_inhabited_L reason), elem_of_union_r, elem_of_singleton|].
  intros r Hin. apply elem_of_union in Hin as [Hin|Hin].
  - unfold reasons_at in Hin.
    destruct (c !! Str.upper sym) as [e0|] eqn:He0; simpl in Hin;
      [|by apply not_elem_of_empty in Hin].
    by apply (Hc _ _ He0).
  - apply elem_of_singleton in Hin. by subst r.
Qed.

Lemma list_tag_verb (a : string) : verb a → list_tag a ∈ all_tags.
Proof.
  intros [-> | [-> | ->]]; unfold all_tags; vm_compute list_tag;
    repeat first [apply list_elem_of_here | apply list_elem_of_further].
Qed.

Lemma detect_maps_tagged (joined : string) : tagged (fst (detect_maps joined)).
Proof.
  assert (∀ r n reason j c, reason ∈ all_tags → tagged c →
            tagged (add_matches r n reason j c)) as Hm.
  { intros r n reason j c Hr. unfold add_matches. apply foldl_keeps.
    intros a m. by apply add_tagged. }
  assert (∀ st l, tagged (fst st) → tagged (fst (action_line st l))) as Hl.
  { intros st l Hst. unfold action_line.
    destruct (match_start ACTION l) as [m|] eqn:Hmatch; [|exact Hst].
    apply (foldl_keeps (λ st, tagged (fst st))); [|exact Hst].
    intros a x Ha. simpl. apply add_tagged; [|done].
    apply list_tag_verb. by apply ACTION_verb in Hmatch. }
  unfold detect_maps.
  set (c3 := add_matches URL_TKR 2 "url" joined _).
  assert (tagged c3) as H3.
  { unfold c3. repeat apply Hm;
      try (unfold all_tags;
           repeat first [apply list_elem_of_here | apply list_elem_of_further]).
    intros k e H. by rewrite lookup_empty in H. }
  pose proof (foldl_keeps (λ st, tagged (fst st)) action_line
                (Str.split (ascii_of_nat 10) joined) (c3, ∅) Hl H3) as H4.
  destruct (foldl action_line (c3, ∅) _) as [c4 t4]. simpl in *.
  apply foldl_keeps; [|exact H4]. intros a m Ha. unfold allcaps.
  destruct (_ && _); [|exact Ha]. apply add_tagged; [|done].
  unfold all_tags. apply list_elem_of_here.
Qed.

Lemma accepts_spec (k : string) :
  accepts k = true ↔ canonical k ∧ String.length k ≤ 6 ∧ (k ∉ STOP).
Proof.
  unfold accepts. rewrite !andb_true_iff, !negb_true_iff, Nat.ltb_ge.
  rewrite bool_decide_eq_false, shaped_canonical. tauto.
Qed.

Lemma add_lookup (sym reason : string) (c : gmap string entry) (k : string) :
  add sym reason c !! k
  = if accepts (Str.upper sym) && bool_decide (k = Str.upper sym) then
      Some {| symbol := symbol (default {| symbol := k; reasons := ∅ |} (c !! k));
              reasons := reasons_at c k ∪ {[reason]} |}
    else c !! k.
Proof.
  rewrite add_unfold. destruct (accepts (Str.upper sym)); [|done]. simpl.
  rewrite lookup_insert. case_bool_decide as Hk; case_decide as Hk'; congruence.
Qed.

Lemma add_same (sym reason : string) (c : gmap string entry) :
  add sym reason (add sym reason c) = add sym reason c.
Proof.
  apply map_eq. intros k. rewrite (add_lookup sym reason (add _ _ _)).
  rewrite reasons_at_add, !add_lookup.
  destruct (accepts (Str.upper sym) && bool_decide (k = Str.upper sym)); [|done].
  simpl. f_equal. f_equal. by rewrite <- (assoc_L (∪)), (idemp_L (∪)).
Qed.

Lemma add_swap (s1 r1 s2 r2 : string) (c : gmap string entry) :
  add s1 r1 (add s2 r2 c) = add s2 r2 (add s1 r1 c).
Proof.
  apply map_eq. intros k.
  rewrite (add_lookup s1 r1 (add _ _ _)), (add_lookup s2 r2 (add _ _ _)).
  rewrite !reasons_at_add, !add_lookup.
  destruct (accepts (Str.upper s1) && bool_decide (k = Str.upper s1));
    destruct (accepts (Str.upper s2) && bool_decide (k = Str.upper s2));
    simpl; try done.
  f_equal. f_equal.
  by rewrite <- !(assoc_L (∪)), (comm_L (∪) {[r2]}).
Qed.

(** X5. [add] does not depend on the case of the symbol, adding twice is
    adding once, and two additions can be swapped: the dict of candidates
    does not depend on the order in which the matchers propose. *)
Theorem add_case_once_order (s1 r1 s2 r2 : string) (c : gmap string entry) :
  add (Str.upper s1) r1 c = add s1 r1 c
  ∧ add (Str.lower s1) r1 c = add s1 r1 c
  ∧ add s1 r1 (add s1 r1 c) = add s1 r1 c
  ∧ add s1 r1 (add s2 r2 c) = add s2 r2 (add s1 r1 c).
Proof.
  assert (∀ ch, Chr.upper (Chr.lower ch) = Chr.upper ch) as Hch
    by (by intros [[] [] [] [] [] [] [] []]).
  assert (Str.upper (Str.lower s1) = Str.upper s1) as Hlow.
  { induction s1 as [|a s IH]; [done|]. unfold Str.upper, Str.lower in *. simpl.
    by rewrite Hch, IH. }
  split; [|split; [|split]].
  - by rewrite !add_unfold, upper_idem.
  - by rewrite !add_unfold, Hlow.
  - apply add_same.
  - apply add_swap.
Qed.

(** X4. [add] files the reason under the symbol in upper case exactly
    when that symbol has the canonical shape, has at most six characters
    and is not in the stop-list; otherwise the dict is returned as it is.
    No other key is touched, and no symbol and no reason is ever removed. *)
Theorem add_files_or_ignores (sym reason : string) (c : gmap string entry) :
  let k := Str.upper sym in
  (canonical k ∧ String.length k ≤ 6 ∧ (k ∉ STOP) →
     reasons_at (add sym reason c) k = reasons_at c k ∪ {[reason]}
     ∧ dom (add sym reason c) = {[k]} ∪ dom c)
  ∧ (¬ (canonical k ∧ String.length k ≤ 6 ∧ (k ∉ STOP)) → add sym reason c = c)
  ∧ (∀ k', k' ≠ k → add sym reason c !! k' = c !! k')
  ∧ (∀ k', reasons_at c k' ⊆ reasons_at (add sym reason c) k')
  ∧ dom c ⊆ dom (add sym reason c).
Proof.
  intros k. subst k. split; [|split; [|split; [|split]]].
  - intros Hok. apply accepts_spec in Hok.
    rewrite reasons_at_add, dom_add, Hok. rewrite bool_decide_eq_true_2; done.
  - intros Hno. rewrite add_unfold. destruct (accepts (Str.upper sym)) eqn:Hacc; [|done].
    by apply accepts_spec in Hacc.
  - intros k' Hk'. by apply lookup_add_ne.
  - intros k'. rewrite reasons_at_add.
    destruct (_ && _); [apply union_subseteq_l | done].
  - rewrite dom_add. destruct (accepts _); [apply union_subseteq_r | done].
Qed.

(** "$ABCDE.FG" is a cashtag of canonical shape, and eight characters are
    too many: only the bare token ABCDE is kept *)
Example long_suffix_is_dropped (charref : string → string) :
  m_group 1 <$> finditer CASHTAG "$ABCDE.FG up" = ["ABCDE.FG"]
  ∧ shaped "ABCDE.FG" = true
  ∧ candidates (detect_from_story charref (story_text "$ABCDE.FG up"))
    = [cand "ABCDE" ["allcaps"]]
  ∧ candidates (detect_from_story charref (story_text "$ABCD.F up"))
    = [cand "ABCD" ["allcaps"]; cand "ABCD.F" ["cashtag"]].
Proof. repeat split; vm_compute; reflexivity. Qed.

(** X1. The symbol of every candidate of every story is in upper case,
    has at most six characters, and has the canonical shape: one to five
    capital letters, then nothing or a dot and one or two capital letters. *)
Theorem candidate_symbols_canonical (charref : string → string) (s : N8nStory) :
  Forall (λ c, canonical (c_symbol c) ∧ String.length (c_symbol c) ≤ 6
               ∧ Str.upper (c_symbol c) = c_symbol c)
    (candidates (detect_from_story charref s)).
Proof.
  rewrite candidates_detect. apply Forall_forall. intros x Hx.
  apply elem_of_cand_list in Hx as [e [He _]].
  pose proof (detect_maps_keyed _ _ _ He) as (_ & _ & Hshape & Hup).
  pose proof (detect_maps_tagged _ _ _ He) as (Hlen & _).
  split; [by apply shaped_canonical|done].
Qed.

(** X2. Every candidate of every story carries at least one reason; its
    reasons are among cashtag, paren, url, allcaps, list:Keep, list:Cut
    and list:Sell, and are listed in increasing order without repeats. *)
Theorem candidate_reasons_tagged (charref : string → string) (s : N8nStory) :
  Forall (λ c, c_reasons c ≠ [] ∧ (∀ r, r ∈ c_reasons c → r ∈ all_tags)
               ∧ Sorted String.le (c_reasons c) ∧ NoDup (c_reasons c))
    (candidates (detect_from_story charref s)).
Proof.
  rewrite candidates_detect. apply Forall_forall. intros x Hx.
  apply elem_of_cand_list in Hx as [e [He ->]].
  pose proof (detect_maps_tagged _ _ _ He) as (_ & Hne & Htags).
  split; [|split; [|split; [apply sorted_set_Sorted | apply sorted_set_NoDup]]].
  - apply set_choose_L in Hne as [r Hr]. apply sorted_set_elem in Hr.
    intros Hnil. rewrite Hnil in Hr. by apply elem_of_nil in Hr.
  - intros r Hr. by apply Htags, sorted_set_elem.
Qed.

Lemma tallies_list_tickers (t : gmap string tally) :
  tkeyed t → ticker <$> tallies_list t ≡ₚ fst <$> map_to_list t.
Proof.
  intros Ht. unfold tallies_list. rewrite sorted_on_Permutation.
  rewrite <- list_fmap_compose.
  assert (ticker ∘ snd <$> map_to_list t = fst <$> map_to_list t) as ->; [|done].
  apply Forall_fmap_ext_1, Forall_forall.
  intros [k v] Hkv. apply elem_of_map_to_list in Hkv. simpl. by apply Ht.
Qed.

(** X3. The candidates of a story are listed by increasing symbol and no
    symbol comes twice; the same holds of the tallies and their tickers. *)
Theorem lists_sorted_by_symbol (charref : string → string) (s : N8nStory) :
  Sorted String.le (symbols_of (detect_from_story charref s))
  ∧ NoDup (symbols_of (detect_from_story charref s))
  ∧ Sorted String.le (tally_symbols (detect_from_story charref s))
  ∧ NoDup (tally_symbols (detect_from_story charref s)).
Proof.
  split; [apply symbols_Sorted|]. split; [apply symbols_NoDup|].
  unfold tally_symbols. rewrite tallies_detect. split.
  - apply sorted_on_Sorted.
  - rewrite tallies_list_tickers; [apply NoDup_fst_map_to_list|].
    apply detect_maps_tkeyed.
Qed.

(** ** Candidates and tallies of the recommendation lines *)

Lemma split_symbols_elem (s x : string) :
  x ∈ _split_symbols s → shaped x = true ∧ Str.upper x = x.
Proof.
  unfold _split_symbols. rewrite list_elem_of_filter, list_elem_of_fmap.
  intros [Hs (p & -> & _)]. split; [done|apply upper_idem].
Qed.

Lemma list_tag_inj (a a' : string) : verb a → verb a' → list_tag a = list_tag a' → a = a'.
Proof.
  intros [-> | [-> | ->]] [-> | [-> | ->]]; vm_compute; intros H; first [done | discriminate H].
Qed.

Lemma list_tag_fresh (a r : string) :
  verb a → r ∈ ["cashtag"; "paren"; "url"; "allcaps"] → r ≠ list_tag a.
Proof.
  intros Ha Hr Heq. subst r.
  destruct Ha as [-> | [-> | ->]]; vm_compute in Hr;
    repeat (apply elem_of_cons in Hr as [Hr|Hr]; [discriminate Hr|]);
    by apply elem_of_nil in Hr.
Qed.

Lemma lists_agree_add (sym r : string) (st : gmap string entry * gmap string tally) :
  r ∈ ["cashtag"; "paren"; "url"; "allcaps"] →
  lists_agree st → lists_agree (add sym r (fst st), snd st).
Proof.
  intros Hr Hst sym' a Ha. simpl. rewrite reasons_at_add, <- (Hst sym' a Ha).
  destruct (_ && _); [|done]. rewrite elem_of_union, elem_of_singleton.
  pose proof (list_tag_fresh a r Ha Hr) as Hne.
  split; [intros [H|H]; [done|by destruct Hne] | by left].
Qed.

Lemma lists_agree_list_sym (a sym : string) (st : gmap string entry * gmap string tally) :
  verb a → Str.upper sym = sym → lists_agree st → lists_agree (list_sym a st sym).
Proof.
  intros Ha Hup Hst sym' a' Ha'. unfold list_sym. simpl.
  rewrite reasons_at_add, (tally_sym_count _ _ _ _ _ Ha'), Hup.
  fold (list_tag a). specialize (Hst sym' a' Ha').
  rewrite filter_cons, filter_nil.
  case_bool_decide as Hs; [subst sym'|]; rewrite ?andb_false_r.
  - rewrite decide_True by done. destruct (accepts sym) eqn:Hacc; simpl.
    + rewrite elem_of_union, elem_of_singleton, Hst.
      destruct (String.eqb a a') eqn:Haa.
      * apply String.eqb_eq in Haa as ->. simpl. split; [intros _; split; [lia|done]|auto].
      * apply String.eqb_neq in Haa. simpl. split.
        -- intros [H|H]; [by rewrite Nat.add_0_r|].
           by apply list_tag_inj in H.
        -- rewrite Nat.add_0_r. auto.
    + rewrite Hst. split; intros [_ H]; discriminate H.
  - rewrite decide_False by done. simpl.
    rewrite Hst. destruct (String.eqb a a'); by rewrite Nat.add_0_r.
Qed.

Lemma counted_tally_sym (a sym : string) (t : gmap string tally) :
  verb a → shaped sym = true → Str.upper sym = sym →
  counted t → counted (tally_sym a sym t).
Proof.
  intros Ha Hs Hu Ht k v. unfold tally_sym. rewrite lookup_insert.
  case_decide as Hk; [|apply Ht]. intros [= <-]. subst k.
  split; [|done]. destruct Ha as [-> | [-> | ->]]; simpl; lia.
Qed.

(** the two dicts when the loops are over *)
Lemma detect_maps_lists (joined : string) :
  lists_agree (detect_maps joined) ∧ counted (snd (detect_maps joined)).
Proof.
  assert (∀ r n reason j st, reason ∈ ["cashtag"; "paren"; "url"; "allcaps"] →
            lists_agree st →
            lists_agree (add_matches r n reason j (fst st), snd st)) as Hm.
  { intros r n reason j [c t] Hr. unfold add_matches. simpl.
    apply (foldl_keeps (λ c, lists_agree (c, t))). intros c' m Hc'.
    by apply (lists_agree_add _ _ (c', t)). }
  assert (∀ st l, lists_agree st ∧ counted (snd st) →
            lists_agree (action_line st l) ∧ counted (snd (action_line st l))) as Hl.
  { intros st l Hst. unfold action_line.
    destruct (match_start ACTION l) as [m|] eqn:Hmatch; [|exact Hst].
    apply ACTION_verb in Hmatch.
    assert (Forall (λ x, shaped x = true ∧ Str.upper x = x)
              (_split_symbols (m_group 2 m))) as Hsyms.
    { apply Forall_forall. intros x. apply split_symbols_elem. }
    revert st Hst. induction Hsyms as [|x l' [Hx Hux] _ IH]; intros st Hst; [done|].
    simpl. apply IH. destruct Hst as [H1 H2]. split.
    - by apply lists_agree_list_sym.
    - unfold list_sym. simpl. by apply counted_tally_sym. }
  unfold detect_maps.
  set (c3 := add_matches URL_TKR 2 "url" joined _).
  assert (lists_agree (c3, ∅) ∧ counted (snd (c3, (∅ : gmap string tally)))) as H3.
  { split; [|intros k v H; simpl in H; by rewrite lookup_empty in H].
    unfold c3.
    apply (Hm _ _ _ _ (_, ∅)); [by do 2 right; left|].
    apply (Hm _ _ _ _ (_, ∅)); [by right; left|].
    apply (Hm _ _ _ _ (_, ∅)); [by left|].
    intros sym a Ha. simpl. unfold reasons_at, tally_of. rewrite !lookup_empty. simpl.
    split; [intros H; by apply not_elem_of_empty in H | intros [H _]; lia]. }
  pose proof (foldl_keeps (λ st, lists_agree st ∧ counted (snd st)) action_line
                (Str.split (ascii_of_nat 10) joined) (c3, ∅) Hl H3) as H4.
  destruct (foldl action_line (c3, ∅) _) as [c4 t4]. simpl in H4.
  destruct H4 as [H4 H5]. split; [|exact H5].
  apply (foldl_keeps (λ c, lists_agree (c, t4))); [|exact H4].
  intros c m Hc. unfold allcaps. destruct (_ && _); [|exact Hc].
  apply (lists_agree_add _ _ (c, t4)); [by do 3 right; left | exact Hc].
Qed.

Lemma tally_of_positive (t : gmap string tally) (a sym : string) :
  tkeyed t →
  0 < tally_of t a sym ↔ ∃ v, v ∈ tallies_list t ∧ ticker v = sym ∧ 0 < count a v.
Proof.
  intros Ht. unfold tally_of. split.
  - destruct (t !! sym) as [v|] eqn:Hv; simpl; [|lia]. intros Hpos.
    pose proof (Ht _ _ Hv) as Hk. exists v. split; [|done].
    apply elem_of_tallies_list; [done|]. by rewrite Hk.
  - intros (v & Hin & <- & Hpos). apply elem_of_tallies_list in Hin; [|done].
    by rewrite Hin.
Qed.

(** X6. In every story a candidate carries the reason list:Keep exactly
    when the tallies count a keep for its symbol, and likewise for
    list:Cut and list:Sell; and every tally whose ticker has at most six
    characters and is not in the stop-list has a candidate. *)
Theorem list_reasons_match_tallies (charref : string → string) (s : N8nStory) :
  let r := detect_from_story charref s in
  Forall (λ c, ∀ a, verb a →
            list_tag a ∈ c_reasons c
            ↔ ∃ t, t ∈ tallies r ∧ ticker t = c_symbol c ∧ 0 < count a t)
    (candidates r)
  ∧ Forall (λ t, String.length (ticker t) ≤ 6 → (ticker t ∉ STOP) →
              ticker t ∈ symbols_of r)
      (tallies r).
Proof.
  intros r. subst r. unfold symbols_of. rewrite candidates_detect, tallies_detect.
  set (j := joined_of charref s).
  destruct (detect_maps_lists j) as [Hagree Hcount].
  pose proof (detect_maps_tkeyed j) as Htk. split.
  - apply Forall_forall. intros x Hx a Ha.
    apply elem_of_cand_list in Hx as [e [He ->]].
    rewrite sorted_set_elem, <- (tally_of_positive _ _ _ Htk).
    specialize (Hagree (c_symbol x) a Ha). unfold reasons_at in Hagree.
    rewrite He in Hagree. simpl in Hagree. rewrite Hagree.
    pose proof (detect_maps_keyed _ _ _ He) as (_ & Hstop & Hshape & _).
    pose proof (detect_maps_tagged _ _ _ He) as (Hlen & _).
    assert (accepts (c_symbol x) = true) as ->; [|tauto].
    apply accepts_spec. split; [by apply shaped_canonical|done].
  - apply Forall_forall. intros t Ht Hlen Hstop.
    apply elem_of_tallies_list in Ht; [|done].
    destruct (Hcount _ _ Ht) as (Hpos & Hshape & _).
    assert (accepts (ticker t) = true) as Hacc.
    { apply accepts_spec. split; [by apply shaped_canonical|done]. }
    assert (∃ a, verb a ∧ 0 < tally_of (snd (detect_maps j)) a (ticker t))
      as (a & Ha & Hpos').
    { unfold tally_of. rewrite Ht. simpl.
      destruct (keep t) eqn:Hk; [destruct (cut t) eqn:Hc|].
      - exists "sell". split; [by right; right|]. unfold count. simpl. lia.
      - exists "cut". split; [by right; left|]. unfold count. simpl. lia.
      - exists "keep". split; [by left|]. unfold count. simpl. lia. }
    pose proof (proj2 (Hagree (ticker t) a Ha) (conj Hpos' Hacc)) as Hin.
    unfold reasons_at in Hin.
    destruct (fst (detect_maps j) !! ticker t) as [e|] eqn:He; simpl in Hin;
      [|by apply not_elem_of_empty in Hin].
    apply list_elem_of_fmap.
    exists {| c_symbol := ticker t; c_reasons := sorted_set (reasons e) |}.
    split; [done|]. apply elem_of_cand_list. by exists e.
Qed.

(** X7. Every tally of every story counts at least one keep, cut or
    sell, under a ticker in upper case of canonical shape; the length of
    the ticker is not checked, so it can have seven or eight characters. *)
Theorem tallies_count_canonical_tickers (charref : string → string) (s : N8nStory) :
  Forall (λ t, 1 ≤ keep t + cut t + sell t ∧ canonical (ticker t)
               ∧ Str.upper (ticker t) = ticker t)
    (tallies (detect_from_story charref s))
  ∧ tallies (detect_from_story charref (story_text "sell: abcde.fg"))
    = [ {| ticker := "ABCDE.FG"; keep := 0; cut := 0; sell := 1 |} ].
Proof.
  split; [|vm_compute; reflexivity].
  rewrite tallies_detect. apply Forall_forall. intros t Ht.
  apply elem_of_tallies_list in Ht; [|apply detect_maps_tkeyed].
  destruct (proj2 (detect_maps_lists _) _ _ Ht) as (Hpos & Hshape & Hup).
  split; [lia|]. split; [by apply shaped_canonical|done].
Qed.

(** ** The cache, read and written *)

(** X8. What [cache_set] stores, [cache_get] gives back for 900 seconds
    and leaves in place; later it gives a miss and removes the entry.
    Storing touches no other key, and a second store under the same key
    replaces the first. *)
Theorem cache_round_trip (key : string) (d d' : payload) (now now' t : Q)
    (c : gmap string cache_entry) :
  ((t - now <= 900)%Q →
     cache_get key t (cache_set key d now c) = (Some d, cache_set key d now c))
  ∧ ((900 < t - now)%Q →
       cache_get key t (cache_set key d now c) = (None, delete key c))
  ∧ (∀ k, k ≠ key →
       fst (cache_get k t (cache_set key d now c)) = fst (cache_get k t c))
  ∧ cache_set key d' now' (cache_set key d now c) = cache_set key d' now' c.
Proof.
  assert (cache_set key d now c !! key = Some {| ts := now; data := d |}) as Hk
    by apply lookup_insert_eq.
  split; [|split; [|split]].
  - intros Ht. by rewrite (cache_get_valid _ _ _ _ Hk).
  - intros Ht. rewrite (cache_get_expired _ _ _ _ Hk) by done.
    unfold cache_set. by rewrite delete_insert_eq.
  - intros k Hne. apply cache_get_ext. unfold cache_set. by rewrite lookup_insert_ne.
  - unfold cache_set. apply insert_insert_eq.
Qed.

(** an answer stored at time 0, read at times 900 and 901 *)
Lemma cache_round_trip_witness :
  cache_get "yh:NVDA" 900 (cache_set "yh:NVDA" nvda_answer 0 ∅)
  = (Some nvda_answer, cache_set "yh:NVDA" nvda_answer 0 ∅)
  ∧ cache_get "yh:NVDA" 901 (cache_set "yh:NVDA" nvda_answer 0 ∅)
    = (None, delete "yh:NVDA" ∅).
Proof.
  destruct (cache_round_trip "yh:NVDA" nvda_answer nvda_answer 0 0 900 ∅)
    as (H1 & _).
  destruct (cache_round_trip "yh:NVDA" nvda_answer nvda_answer 0 0 901 ∅)
    as (_ & H2 & _).
  split; [apply H1 | apply H2]; vm_compute; congruence.
Defined.

(** X9. [cache_get] removes nothing but the entry of the key it is asked
    for, and that only when the entry has expired: every other entry,
    expired or not, stays.  The cache never grows by a read, and reading
    again at the same time gives the same answer and changes nothing. *)
Theorem cache_get_evicts_own_key_only (key : string) (t : Q)
    (c : gmap string cache_entry) :
  (∀ k, k ≠ key → snd (cache_get key t c) !! k = c !! k)
  ∧ dom (snd (cache_get key t c)) ⊆ dom c
  ∧ (snd (cache_get key t c) ≠ c →
       ∃ v, c !! key = Some v ∧ (900 < t - ts v)%Q
            ∧ snd (cache_get key t c) = delete key c)
  ∧ cache_get key t (snd (cache_get key t c))
    = (fst (cache_get key t c), snd (cache_get key t c)).
Proof.
  unfold cache_get. destruct (c !! key) as [v|] eqn:Hv; simpl.
  - destruct (Qlt_le_dec _TTL (t - ts v)) as [Hlt|Hle]; simpl.
    + split; [intros k Hk; by apply lookup_delete_ne|].
      split; [rewrite dom_delete_L; apply subseteq_difference_l; done|].
      split; [intros _; exists v; by rewrite TTL_900 in Hlt|].
      by rewrite lookup_delete_eq.
    + split; [done|]. split; [done|]. split; [done|]. rewrite Hv.
      by destruct (Qlt_le_dec _TTL (t - ts v)) as [Hlt|_]; [exfalso; lra|].
  - split; [done|]. split; [done|]. split; [done|]. by rewrite Hv.
Qed.

(** the expired answer for NVDA is removed by the read at time 1000 *)
Lemma cache_get_evicts_own_key_only_witness :
  ∃ v, cache stale !! "yh:NVDA" = Some v ∧ (900 < 1000 - ts v)%Q
       ∧ snd (cache_get "yh:NVDA" 1000 (cache stale)) = delete "yh:NVDA" (cache stale).
Proof.
  destruct (cache_get_evicts_own_key_only "yh:NVDA" 1000 (cache stale))
    as (_ & _ & H & _).
  apply H. intros Heq. apply (f_equal (λ m : gmap string cache_entry, m !! "yh:NVDA")) in Heq.
  vm_compute in Heq. discriminate Heq.
Defined.

(** ** What the two lookups return *)

Lemma find_first {A : Type} (f : A → bool) (l : list A) (x : A) :
  List.find f l = Some x →
  ∃ pre post, l = pre ++ x :: post ∧ Forall (λ y, f y = false) pre ∧ f x = true.
Proof.
  induction l as [|y l IH]; simpl; [discriminate|].
  destruct (f y) eqn:Hy.
  - intros [= ->]. by exists [], l.
  - intros H. apply IH in H as (pre & post & -> & Hpre & Hx).
    exists (y :: pre), post. split; [done|]. split; [by constructor|done].
Qed.

Lemma find_none_all {A : Type} (f : A → bool) (l : list A) :
  List.find f l = None ↔ Forall (λ y, f y = false) l.
Proof.
  induction l as [|y l IH]; simpl; [by split; [constructor|]|].
  destruct (f y) eqn:Hy.
  - split; [discriminate|]. intros H. apply Forall_cons in H as [H _]. congruence.
  - rewrite IH. split; [by constructor|]. intros H. by apply Forall_cons in H as [_ H].
Qed.

(** X10. When [verify_symbol] finds something it is the first quote of
    the answer whose symbol, read as a text, is the query up to case,
    every quote before it being of another symbol, and the five fields
    are copied from it: so the symbol found, when it is a string, is the
    query up to case, and it is missing only for the empty query or the
    query none.  When [resolve_name] finds something it is the first
    quote whose type is one of EQUITY, ETF, MUTUALFUND, INDEX and CRYPTO.
    Either gives "not found" when the search raised, and when no quote of
    the answer qualifies. *)
Theorem lookups_return_first_match (e : env) (q : string) (w : world) :
  (∀ x, fst (verify_symbol e q w) = Some x →
     ∃ d pre qt post,
       fst (yahoo_search e q w) = inr d
       ∧ default [] (quotes d) = pre ++ qt :: post
       ∧ Forall (λ y, same_symbol q y = false) pre
       ∧ same_symbol q qt = true
       ∧ x = of_quote qt
       ∧ match v_symbol x with
         | Some s => Str.upper s = Str.upper q
         | None => Str.upper q = "" ∨ Str.upper q = "NONE"
         end)
  ∧ (∀ x, fst (resolve_name e q w) = Some x →
       ∃ d pre qt post ty,
         fst (yahoo_search e q w) = inr d
         ∧ default [] (quotes d) = pre ++ qt :: post
         ∧ Forall (λ y, instrument y = false) pre
         ∧ x = of_quote qt
         ∧ v_type x = Some ty
         ∧ ty ∈ ["EQUITY"; "ETF"; "MUTUALFUND"; "INDEX"; "CRYPTO"])
  ∧ (∀ f, fst (yahoo_search e q w) = inl f →
       fst (verify_symbol e q w) = None ∧ fst (resolve_name e q w) = None)
  ∧ (∀ d, fst (yahoo_search e q w) = inr d →
       (Forall (λ y, same_symbol q y = false) (default [] (quotes d)) →
          fst (verify_symbol e q w) = None)
       ∧ (Forall (λ y, instrument y = false) (default [] (quotes d)) →
            fst (resolve_name e q w) = None)).
Proof.
  assert (∀ sel x, fst (lookup sel e q w) = Some x →
            ∃ d pre qt post, fst (yahoo_search e q w) = inr d
              ∧ default [] (quotes d) = pre ++ qt :: post
              ∧ Forall (λ y, sel y = false) pre ∧ x = of_quote qt ∧ sel qt = true)
    as Hsome.
  { intros sel x. unfold lookup.
    destruct (yahoo_search e q w) as [[f|d] w']; simpl; [discriminate|].
    destruct (List.find sel (default [] (quotes d))) as [qt|] eqn:Hf; [|discriminate].
    intros [= <-]. apply find_first in Hf as (pre & post & Hl & Hpre & Hqt).
    by exists d, pre, qt, post. }
  assert (∀ sel f, fst (yahoo_search e q w) = inl f → fst (lookup sel e q w) = None)
    as Hraised.
  { intros sel f. unfold lookup.
    by destruct (yahoo_search e q w) as [[f'|d] w']; simpl. }
  assert (∀ sel d, fst (yahoo_search e q w) = inr d →
            Forall (λ y, sel y = false) (default [] (quotes d)) →
            fst (lookup sel e q w) = None) as Hnone.
  { intros sel d. unfold lookup.
    destruct (yahoo_search e q w) as [[f|d'] w']; simpl; [discriminate|].
    intros [= ->] Hall. apply find_none_all in Hall. by rewrite Hall. }
  split; [|split; [|split]].
  - intros x Hx. pose proof (verify_symbol_found e q w x Hx) as Hsym.
    apply Hsome in Hx as (d & pre & qt & post & Hd & Hl & Hpre & -> & Hqt).
    by exists d, pre, qt, post.
  - intros x Hx. apply Hsome in Hx as (d & pre & qt & post & Hd & Hl & Hpre & -> & Hqt).
    unfold instrument in Hqt. destruct (q_quoteType qt) as [ty|] eqn:Hty; [|discriminate].
    exists d, pre, qt, post, ty. repeat split; try done.
    by apply bool_decide_eq_true in Hqt.
  - intros f Hf.
    split; [apply (Hraised (same_symbol q) f Hf) | apply (Hraised instrument f Hf)].
  - intros d Hd.
    split; [apply (Hnone (same_symbol q) d Hd) | apply (Hnone instrument d Hd)].
Qed.

(** NVDA verified in a fresh process against the service that knows it *)
Lemma lookups_return_first_match_witness :
  (∃ d pre qt post,
     fst (yahoo_search env_up "NVDA" fresh) = inr d
     ∧ default [] (quotes d) = pre ++ qt :: post
     ∧ Forall (λ y, same_symbol "NVDA" y = false) pre
     ∧ same_symbol "NVDA" qt = true
     ∧ of_quote nvda_quote = of_quote qt
     ∧ Str.upper "NVDA" = Str.upper "NVDA").
Proof.
  destruct (lookups_return_first_match env_up "NVDA" fresh) as (H & _).
  apply (H (of_quote nvda_quote)). reflexivity.
Defined.

(** a quote whose symbol is [null] answers the query none, and a quote
    without the key answers the empty query: the record found has no
    symbol *)
Example null_symbol_is_found :
  fst (verify_symbol env_null "none" fresh)
  = Some {| v_symbol := None; v_shortname := Some "Acme"; v_longname := None;
            v_exchange := None; v_type := Some "EQUITY" |}
  ∧ fst (verify_symbol env_nameless "" fresh)
    = Some {| v_symbol := None; v_shortname := Some "Acme"; v_longname := None;
              v_exchange := None; v_type := Some "EQUITY" |}
  ∧ fst (verify_symbol env_nameless "none" fresh) = None.
Proof. repeat split; vm_compute; reflexivity. Qed.

(** ** The endpoint: what it sends and what it allows *)

Lemma StronglySorted_sublist {A : Type} (R : relation A) (l1 l2 : list A) :
  l1 `sublist_of` l2 → StronglySorted R l2 → StronglySorted R l1.
Proof.
  induction 1 as [|x l1 l2 Hsub IH|x l1 l2 Hsub IH]; intros Hs; [done| |].
  - apply StronglySorted_inv in Hs as [Hs Hx]. constructor; [auto|].
    apply Forall_forall. intros y Hy. rewrite Forall_forall in Hx.
    apply Hx. by eapply elem_of_sublist.
  - apply StronglySorted_inv in Hs as [Hs _]. auto.
Qed.

Lemma verify_symbol_calls (e : env) (sym : string) (w : world) :
  calls (snd (verify_symbol e sym w)) = calls w
  ∨ calls (snd (verify_symbol e sym w)) = calls w ++ [sym].
Proof.
  unfold verify_symbol. rewrite lookup_world, yahoo_search_calls.
  destruct (fst (cache_get _ _ _)); auto.
Qed.

(** a batch sends some of its inputs, in their order, each at most once *)
Lemma gather_calls {A : Type} (f : string → world → A * world) (l : list string)
    (w : world) :
  (∀ x w, calls (snd (f x w)) = calls w ∨ calls (snd (f x w)) = calls w ++ [x]) →
  ∃ sent, calls (snd (gather f l w)) = calls w ++ sent ∧ sent `sublist_of` l.
Proof.
  intros Hf. revert w. induction l as [|x l IH]; intros w; simpl.
  - exists []. by rewrite app_nil_r.
  - pose proof (Hf x w) as Hx. destruct (f x w) as [r w1]. simpl in Hx.
    destruct (IH w1) as (sent & Hsent & Hsub).
    destruct (gather f l w1) as [rs w2]. simpl in *.
    destruct Hx as [Hx|Hx]; rewrite Hsent, Hx.
    + exists sent. split; [done|]. by apply sublist_cons.
    + exists (x :: sent). rewrite <- app_assoc. split; [done|]. by apply sublist_skip.
Qed.

(** what is found, read by symbol, follows the list looked up *)
Lemma gather_found (e : env) (l : list string) (w : world) :
  Forall (λ sym, Str.upper sym = sym) l →
  Forall (λ x, is_Some (v_symbol x)) (omap id (fst (gather (verify_symbol e) l w))) →
  (λ x, Str.upper (default "" (v_symbol x)))
    <$> omap id (fst (gather (verify_symbol e) l w)) `sublist_of` l.
Proof.
  intros Hl.
  pose proof (gather_results (verify_symbol e)
    (λ sym r, ∀ x, r = Some x → is_Some (v_symbol x) →
                   Str.upper (default "" (v_symbol x)) = sym) l w) as HF.
  assert (∀ l res,
    Forall2 (λ sym r, ∀ x : VerifiedSymbol,
               r = Some x → is_Some (v_symbol x) →
               Str.upper (default "" (v_symbol x)) = sym) l res →
    Forall (λ x, is_Some (v_symbol x)) (omap id res) →
    (λ x, Str.upper (default "" (v_symbol x))) <$> omap id res `sublist_of` l) as Hsub.
  { clear. induction 1 as [|sym r l res Hr _ IH]; simpl; [constructor|].
    destruct r as [x|]; simpl.
    - intros Hall. apply Forall_cons in Hall as [Hx Hall].
      rewrite (Hr x eq_refl Hx). apply sublist_skip. by apply IH.
    - intros Hall. apply sublist_cons. by apply IH. }
  apply Hsub, HF. intros sym w0 Hsym x Hx [s Hs].
  apply verify_symbol_found in Hx. rewrite Hs in Hx |- *. simpl. rewrite Hx.
  rewrite Forall_forall in Hl. by apply Hl.
Qed.

(** X11. A Discover request sends the search service some of the symbols
    of the candidates of its stories, in the order of their sorted union
    and each at most once, and nothing else; a request that does not
    verify sends nothing. *)
Theorem discover_queries_within_union (e : env) (req : DiscoverReq) (w : world) :
  ∃ sent,
    calls (snd (discover_n8n e req w)) = calls w ++ sent
    ∧ sent `sublist_of` union_of (detect_all e req)
    ∧ NoDup sent
    ∧ (verify req = false → sent = []).
Proof.
  rewrite discover_n8n_unfold.
  destruct (verify req && negb (bool_decide (union_of (detect_all e req) = [])))
    eqn:Hv; simpl.
  - destruct (gather_calls (verify_symbol e) (union_of (detect_all e req)) w
                (verify_symbol_calls e)) as (sent & Hsent & Hsub).
    exists sent. split; [done|]. split; [done|].
    split; [|intros Hoff; by rewrite Hoff in Hv].
    eapply sublist_NoDup; [|exact Hsub]. apply sorted_set_NoDup.
  - exists []. rewrite app_nil_r.
    split; [done|]. split; [apply sublist_nil_l|]. split; [constructor|done].
Qed.

(** X12. In every Discover response allowed_tickers is a part of
    union_candidates, in the same order.  When the request verifies and
    there are candidates, every verified record of the response has a
    symbol, and allowed_tickers lists these symbols in upper case, one per
    record and in the order of verified.  (A verified record without a
    symbol leaves no response: the endpoint raises.) *)
Theorem allowed_are_the_verified (e : env) (req : DiscoverReq) (w : world)
    (resp : DiscoverResp) :
  fst (discover_n8n e req w) = Some resp →
  allowed_tickers resp `sublist_of` union_candidates resp
  ∧ (verify req = true → union_candidates resp ≠ [] →
       Forall (λ x, is_Some (v_symbol x)) (verified resp)
       ∧ allowed_tickers resp
         = (λ x, Str.upper (default "" (v_symbol x))) <$> verified resp).
Proof.
  rewrite discover_n8n_unfold.
  destruct (verify req && negb (bool_decide (union_of (detect_all e req) = [])))
    eqn:Hv; simpl.
  - set (found := omap id (fst (gather (verify_symbol e) _ w))).
    destruct (upper_symbols found) as [ups|] eqn:Hups; [|discriminate].
    simpl. intros [= <-]. simpl.
    apply upper_symbols_Some in Hups as [Hall ->].
    pose proof (gather_found e _ w (union_of_upper e req) Hall) as Hsub.
    fold found in Hsub.
    assert (sorted_set (list_to_set
              ((λ x, Str.upper (default "" (v_symbol x))) <$> found))
            = (λ x, Str.upper (default "" (v_symbol x))) <$> found) as Hid.
    { apply sorted_set_id.
      - apply StronglySorted_Sorted. eapply StronglySorted_sublist; [exact Hsub|].
        apply sorted_set_StronglySorted.
      - eapply sublist_NoDup; [|exact Hsub]. apply sorted_set_NoDup. }
    rewrite Hid. split; [done|]. by intros _ _.
  - intros [= <-]. simpl. split; [done|]. intros Hon Hne.
    rewrite Hon in Hv. simpl in Hv. apply negb_false_iff, bool_decide_eq_true in Hv.
    done.
Qed.

(** the scenario story verified against the service that knows NVDA *)
Lemma allowed_are_the_verified_witness :
  ∃ resp,
    fst (discover_n8n env_up scenario_request fresh) = Some resp
    ∧ Forall (λ x, is_Some (v_symbol x)) (verified resp)
    ∧ allowed_tickers resp
      = (λ x, Str.upper (default "" (v_symbol x))) <$> verified resp.
Proof.
  eexists. split; [vm_compute; reflexivity|].
  refine (proj2 (allowed_are_the_verified env_up scenario_request fresh _ _) _ _).
  - vm_compute. reflexivity.
  - reflexivity.
  - simpl. discriminate.
Defined.

(** a story with the cashtag of NONE, verified against a service whose
    quote holds [null] for the symbol: the quote answers the query, the
    record has no symbol, and the endpoint raises *)
Example discover_raises_without_symbol :
  fst (discover_n8n env_null {| stories := [story_text "$NONE"]; verify := true |} fresh)
  = None
  ∧ union_of (detect_all env_null {| stories := [story_text "$NONE"]; verify := true |})
    = ["NONE"].
Proof. split; vm_compute; reflexivity. Qed.

(** ** The endpoint [/resolve] *)

Lemma resolve_name_calls (e : env) (name : string) (w : world) :
  calls (snd (resolve_name e name w)) = calls w
  ∨ calls (snd (resolve_name e name w)) = calls w ++ [name].
Proof.
  unfold resolve_name. rewrite lookup_world, yahoo_search_calls.
  destruct (fst (cache_get _ _ _)); auto.
Qed.

(** the endpoint, with its two batches named *)
Lemma resolve_unfold (e : env) (req : ResolveReq) (w : world) :
  let b1 := gather (verify_symbol e) (resolve_tickers req) w in
  let b2 := gather (resolve_name e) (resolve_names req) (snd b1) in
  let vs := omap id (fst b1) in
  let ms := omap id (fst b2) in
  resolve e req w
  = ((λ ups, {| res_verified := vs; res_mapped := ms;
                res_allowed_tickers := sorted_set (list_to_set ups) |})
       <$> upper_symbols (vs ++ ms), snd b2).
Proof.
  intros b1 b2 vs ms. unfold resolve. subst vs ms b2 b1.
  case_bool_decide as Ht.
  - rewrite Ht. simpl. case_bool_decide as Hn.
    + rewrite Hn. simpl. done.
    + destruct (gather (resolve_name e) (resolve_names req) w) as [res w2]. simpl.
      by destruct (upper_symbols (omap id res)).
  - destruct (gather (verify_symbol e) (resolve_tickers req) w) as [res1 w1]. simpl.
    case_bool_decide as Hn.
    + rewrite Hn. simpl. by destruct (upper_symbols (omap id res1 ++ [])).
    + destruct (gather (resolve_name e) (resolve_names req) w1) as [res2 w2]. simpl.
      by destruct (upper_symbols (omap id res1 ++ omap id res2)).
Qed.

Lemma filter_none {A : Type} (P : A → Prop) `{∀ x, Decision (P x)} (l : list A) :
  Forall (λ x, ¬ P x) l → filter P l = [].
Proof.
  induction 1 as [|x l Hx Hl IH]; [done|].
  rewrite filter_cons. by case_decide.
Qed.

Lemma elem_of_resolve_tickers (req : ResolveReq) (x : string) :
  x ∈ resolve_tickers req ↔ ∃ t, t ∈ tickers req ∧ x = Str.upper t.
Proof.
  unfold resolve_tickers. rewrite sorted_set_elem, elem_of_list_to_set, list_elem_of_fmap.
  split; intros (t & H1 & H2); by exists t.
Qed.

Lemma elem_of_resolve_names (req : ResolveReq) (x : string) :
  x ∈ resolve_names req ↔ x ≠ "" ∧ ∃ n, n ∈ names req ∧ x = Str.strip n.
Proof.
  unfold resolve_names. rewrite sorted_set_elem, elem_of_list_to_set, list_elem_of_fmap.
  split.
  - intros (n & -> & Hn). apply list_elem_of_filter in Hn as [[_ Hs] Hn]. eauto.
  - intros (Hx & n & Hn & ->). exists n. split; [done|].
    apply list_elem_of_filter. split; [|done]. split; [|done].
    intros ->. by apply Hx.
Qed.

(** X13. A Resolve request looks up its tickers first and its names
    after.  It sends the search service some of the distinct upper-cased
    tickers, then some of the distinct stripped names, each at most once;
    a blank name is never sent, and nothing else is. *)
Theorem resolve_queries (e : env) (req : ResolveReq) (w : world) :
  ∃ sent1 sent2,
    calls (snd (resolve e req w)) = calls w ++ sent1 ++ sent2
    ∧ sent1 `sublist_of` resolve_tickers req ∧ NoDup sent1
    ∧ sent2 `sublist_of` resolve_names req ∧ NoDup sent2
    ∧ (∀ x, x ∈ sent1 → ∃ t, t ∈ tickers req ∧ x = Str.upper t)
    ∧ (∀ x, x ∈ sent2 → x ≠ "" ∧ ∃ n, n ∈ names req ∧ x = Str.strip n).
Proof.
  rewrite resolve_unfold. simpl.
  destruct (gather_calls (verify_symbol e) (resolve_tickers req) w
              (verify_symbol_calls e)) as (sent1 & H1 & Hsub1).
  destruct (gather_calls (resolve_name e) (resolve_names req)
              (snd (gather (verify_symbol e) (resolve_tickers req) w))
              (resolve_name_calls e)) as (sent2 & H2 & Hsub2).
  exists sent1, sent2. rewrite H2, H1, <- app_assoc.
  split; [done|]. split; [done|].
  split; [eapply sublist_NoDup; [|exact Hsub1]; apply sorted_set_NoDup|].
  split; [done|].
  split; [eapply sublist_NoDup; [|exact Hsub2]; apply sorted_set_NoDup|].
  split.
  - intros x Hx. apply elem_of_resolve_tickers. by eapply elem_of_sublist.
  - intros x Hx. apply elem_of_resolve_names. by eapply elem_of_sublist.
Qed.

(** X14. A Resolve request without tickers whose names are all blank
    is answered with three empty lists, and the cache, the clock and the
    search service are left alone. *)
Theorem resolve_nothing (e : env) (req : ResolveReq) (w : world) :
  tickers req = [] → Forall (λ n, Str.strip n = "") (names req) →
  resolve e req w
  = (Some {| res_verified := []; res_mapped := []; res_allowed_tickers := [] |}, w).
Proof.
  intros Ht Hn.
  assert (resolve_tickers req = []) as Hts.
  { unfold resolve_tickers. by rewrite Ht. }
  assert (resolve_names req = []) as Hns.
  { unfold resolve_names. rewrite filter_none; [done|].
    eapply Forall_impl; [exact Hn|]. simpl. intros n Hs [_ Hs']. by apply Hs'. }
  rewrite resolve_unfold, Hts, Hns. done.
Qed.

(** no ticker, and names made of white space *)
Lemma resolve_nothing_witness :
  resolve env_down {| tickers := []; names := [""; "  "] |} stale
  = (Some {| res_verified := []; res_mapped := []; res_allowed_tickers := [] |},
     stale).
Proof.
  apply resolve_nothing; [reflexivity|]. repeat constructor.
Defined.

Lemma resolve_name_some_type (e : env) (n : string) (w : world) (x : VerifiedSymbol) :
  fst (resolve_name e n w) = Some x →
  ∃ ty, v_type x = Some ty ∧ ty ∈ ["EQUITY"; "ETF"; "MUTUALFUND"; "INDEX"; "CRYPTO"].
Proof.
  unfold resolve_name, lookup.
  destruct (yahoo_search e n w) as [[f|d] w']; simpl; [discriminate|].
  destruct (List.find instrument (default [] (quotes d))) as [qt|] eqn:Hf; [|discriminate].
  intros [= <-]. apply find_some in Hf as [_ Hqt]. unfold instrument in Hqt.
  destruct (q_quoteType qt) as [ty|] eqn:Hty; [|discriminate].
  exists ty. split; [done|]. by apply bool_decide_eq_true in Hqt.
Qed.

(** X15. When a Resolve request is answered, allowed_tickers is the
    sorted list without repeats of the upper-cased symbols of the verified
    and the mapped records, each verified record answers one of the
    upper-cased tickers, and each mapped record has one of the five
    instrument types.  The request fails with the error of [None.upper()]
    only if a record found has no symbol: one verified for the empty
    ticker or for the ticker NONE, or one mapped for a name.  The three
    happen. *)
Theorem resolve_allows_or_raises (e : env) (req : ResolveReq) (w : world) :
  match fst (resolve e req w) with
  | Some resp =>
      Sorted String.le (res_allowed_tickers resp)
      ∧ NoDup (res_allowed_tickers resp)
      ∧ (∀ x, x ∈ res_allowed_tickers resp
              ↔ ∃ v s, v ∈ res_verified resp ++ res_mapped resp
                       ∧ v_symbol v = Some s ∧ x = Str.upper s)
      ∧ Forall (λ v, Str.upper (default "" (v_symbol v)) ∈ resolve_tickers req)
          (res_verified resp)
      ∧ Forall (λ v, ∃ ty, v_type v = Some ty
                  ∧ ty ∈ ["EQUITY"; "ETF"; "MUTUALFUND"; "INDEX"; "CRYPTO"])
          (res_mapped resp)
  | None =>
      (∃ t w0 x, t ∈ resolve_tickers req ∧ (t = "" ∨ t = "NONE")
                 ∧ fst (verify_symbol e t w0) = Some x ∧ v_symbol x = None)
      ∨ ∃ n w0 x, n ∈ resolve_names req ∧ fst (resolve_name e n w0) = Some x
                  ∧ v_symbol x = None
  end
  ∧ fst (resolve env_nameless {| tickers := []; names := ["acme"] |} fresh) = None
  ∧ fst (resolve env_nameless {| tickers := [""]; names := [] |} fresh) = None
  ∧ fst (resolve env_null {| tickers := ["none"]; names := [] |} fresh) = None.
Proof.
  split; [|repeat split; vm_compute; reflexivity].
  rewrite resolve_unfold. simpl.
  set (vs := omap id (fst (gather (verify_symbol e) (resolve_tickers req) w))).
  set (ms := omap id (fst (gather (resolve_name e) (resolve_names req) _))).
  destruct (upper_symbols (vs ++ ms)) as [ups|] eqn:Hups; simpl.
  - split; [apply sorted_set_Sorted|]. split; [apply sorted_set_NoDup|].
    apply upper_symbols_Some in Hups as [Hall ->]. rewrite Forall_forall in Hall.
    split; [|split].
    + intros x. rewrite sorted_set_elem, elem_of_list_to_set, list_elem_of_fmap. split.
      * intros (v & -> & Hv). destruct (Hall v Hv) as [s Hs].
        exists v, s. by rewrite Hs.
      * intros (v & s & Hv & Hs & ->). exists v. by rewrite Hs.
    + apply Forall_forall. intros v Hv.
      destruct (Hall v) as [s Hs]; [apply elem_of_app; by left|].
      apply gather_from in Hv as (sym & w0 & Hsym & Hv).
      apply verify_symbol_found in Hv. rewrite Hs in Hv |- *. simpl. rewrite Hv.
      apply elem_of_resolve_tickers in Hsym as (t & Ht & ->).
      rewrite upper_idem. apply elem_of_resolve_tickers. by exists t.
    + apply Forall_forall. intros v Hv.
      apply gather_from in Hv as (n & w0 & _ & Hv). by eapply resolve_name_some_type.
  - assert (∃ v, v ∈ vs ++ ms ∧ v_symbol v = None) as (v & Hv & Hs).
    { destruct (decide (Forall (λ x, is_Some (v_symbol x)) (vs ++ ms))) as [Hall|Hex].
      - pose proof (proj2 (upper_symbols_Some (vs ++ ms) _) (conj Hall eq_refl)) as Habs.
        congruence.
      - apply not_Forall_Exists in Hex; [|apply _].
        apply Exists_exists in Hex as (v & Hv & Hnone). exists v. split; [done|].
        unfold compose in Hnone. destruct (v_symbol v); [|done].
        destruct Hnone. by eexists. }
    apply elem_of_app in Hv as [Hv|Hv].
    + left. apply gather_from in Hv as (sym & w0 & Hsym & Hv).
      pose proof (verify_symbol_found e sym w0 v Hv) as Hq. rewrite Hs in Hq.
      exists sym, w0, v. split; [done|]. split; [|done].
      apply elem_of_resolve_tickers in Hsym as (t & Ht & ->).
      by rewrite upper_idem in Hq.
    + right. apply gather_from in Hv as (n & w0 & Hn & Hv). by exists n, w0, v.
Qed.

(** * The text the patterns read

    What [_clean] and [_split_symbols] compute, without the matcher. *)

(** ** Substrings *)

Lemma substring_within (from n : nat) (pre t : string) :
  from + n ≤ String.length pre →
  String.substring from n (pre +:+ t) = String.substring from n pre.
Proof.
  revert from n. induction pre as [|c pre IH]; intros from n H; simpl in H.
  - assert (from = 0) as -> by lia. assert (n = 0) as -> by lia.
    rewrite app_empty_l. by destruct t.
  - rewrite app_cons. destruct from as [|from]; simpl.
    + destruct n as [|n]; [done|]. f_equal. apply (IH 0 n). lia.
    + apply IH. lia.
Qed.

Lemma substring_snoc (from : nat) (pre : string) (c : ascii) :
  from ≤ String.length pre →
  String.substring from (S (String.length pre) - from) (pre +:+ String c "")
  = String.substring from (String.length pre - from) pre +:+ String c "".
Proof.
  revert from. induction pre as [|x pre IH]; intros from H; simpl in H.
  - assert (from = 0) as -> by lia. reflexivity.
  - rewrite app_cons. destruct from as [|from].
    + cbn [String.length Nat.sub]. cbn [String.substring]. rewrite app_cons. f_equal.
      specialize (IH 0). rewrite !Nat.sub_0_r in IH. apply IH. lia.
    + cbn [String.length Nat.sub]. cbn [String.substring].
      replace (match from with 0 => S (String.length pre) | S l => String.length pre - l end)
        with (S (String.length pre) - from) by (destruct from; lia).
      apply IH. lia.
Qed.

Lemma length_drop_run (p : ascii → bool) (s : string) :
  String.length s - String.length (drop_run p s) = run_len p s
  ∧ String.length (drop_run p s) ≤ String.length s.
Proof.
  induction s as [|c s [IH1 IH2]]; [done|]. simpl. destruct (p c); simpl; [|lia].
  split; [|lia]. rewrite <- IH1. lia.
Qed.

(** ** A repetition without upper bound, followed by nothing *)

Lemma rep_greedy (p : ascii → bool) (lo : nat) (prev : option ascii) (s : string) (g : caps) :
  rep p lo None prev s g (λ _ s' g', Some (g', s'))
  = if lo <=? run_len p s then Some (g, drop_run p s) else None.
Proof.
  revert lo prev. induction s as [|c s IH]; intros lo prev.
  - simpl. by destruct lo.
  - simpl. destruct (p c); simpl.
    + rewrite IH. destruct lo as [|lo]; simpl.
      * done.
      * by destruct (lo <=? run_len p s).
    + by destruct lo.
Qed.

Lemma at_pos_Plus (p : ascii → bool) (prev : option ascii) (s : string) :
  at_pos (Plus p) prev s = if 1 <=? run_len p s then Some ([], drop_run p s) else None.
Proof. apply rep_greedy. Qed.

(** ** [re.split] and [re.sub] on a pattern [[p]+] *)

Lemma cut_scan_Plus (p : ascii → bool) (suf : string) :
  (∀ pre from prev, from ≤ String.length pre →
     Re.cut (pre +:+ suf) from (scan (Plus p) (String.length pre) 0 prev suf)
     = pieces p (String.substring from (String.length pre - from) pre) false suf)
  ∧ (∀ pre prev,
     Re.cut (pre +:+ suf) (String.length pre + run_len p suf)
         (scan (Plus p) (String.length pre) (run_len p suf) prev suf)
     = pieces p "" true suf).
Proof.
  induction suf as [|c suf [IHA IHB]].
  - split.
    + intros pre from prev H. simpl. by rewrite app_empty_r.
    + intros pre prev. simpl. rewrite app_empty_r, Nat.add_0_r, Nat.sub_diag.
      f_equal. clear. induction pre as [|x pre IH]; [done|]. simpl. exact IH.
  - assert (∀ pre, pre +:+ String c suf = (pre +:+ String c "") +:+ suf) as Happ.
    { intros pre. by rewrite app_assoc_s. }
    assert (∀ pre, String.length (pre +:+ String c "") = S (String.length pre)) as Hlen.
    { intros pre. rewrite length_app_s. simpl. lia. }
    assert (∀ pre from prev, from ≤ String.length pre →
       Re.cut (pre +:+ String c suf) from
           (scan (Plus p) (String.length pre) 0 prev (String c suf))
       = pieces p (String.substring from (String.length pre - from) pre) false
           (String c suf)) as HA.
    { intros pre from prev H. cbn [scan]. rewrite at_pos_Plus.
      cbn [run_len drop_run pieces]. destruct (p c) eqn:Hc.
      - cbn [Nat.leb]. cbn [Re.cut m_start m_end].
        destruct (length_drop_run p suf) as [Hl1 Hl2].
        assert (String.length (String c suf) - String.length (drop_run p suf)
                = S (run_len p suf)) as ->.
        { simpl. rewrite <- Hl1. lia. }
        cbn [Nat.pred]. f_equal.
        + apply substring_within. lia.
        + rewrite Happ.
          replace (String.length pre + S (run_len p suf))
            with (String.length (pre +:+ String c "") + run_len p suf)
            by (rewrite Hlen; lia).
          rewrite <- (Hlen pre). apply IHB.
      - cbn [Nat.leb]. rewrite Happ, <- (Hlen pre).
        rewrite IHA by (rewrite Hlen; lia). f_equal.
        rewrite Hlen. by apply substring_snoc. }
    split; [exact HA|].
    intros pre prev. cbn [run_len pieces]. destruct (p c) eqn:Hc.
    + cbn [scan]. rewrite Happ.
      replace (String.length pre + S (run_len p suf))
        with (String.length (pre +:+ String c "") + run_len p suf)
        by (rewrite Hlen; lia).
      rewrite <- (Hlen pre). apply IHB.
    + rewrite Nat.add_0_r. specialize (HA pre (String.length pre) prev).
      rewrite Nat.sub_diag in HA. cbn [pieces] in HA. rewrite Hc in HA.
      replace (String.substring (String.length pre) 0 pre) with "" in HA.
      * apply HA. lia.
      * clear. induction pre as [|x pre IH]; [done|]. simpl. exact IH.
Qed.

Lemma split_Plus (p : ascii → bool) (s : string) :
  Re.split (Plus p) s = pieces p "" false s.
Proof.
  unfold Re.split, finditer.
  apply (proj1 (cut_scan_Plus p s) "" 0 None). simpl. lia.
Qed.

Lemma pieces_nonempty (p : ascii → bool) (cur : string) (b : bool) (s : string) :
  pieces p cur b s ≠ [].
Proof.
  revert cur b. induction s as [|c s IH]; intros cur b; simpl; [done|].
  destruct (p c); [destruct b|]; try done; apply IH.
Qed.

Lemma concat_cons (sep x : string) (l : list string) :
  l ≠ [] → String.concat sep (x :: l) = x +:+ sep +:+ String.concat sep l.
Proof. by destruct l. Qed.

Lemma concat_pieces (p : ascii → bool) (s : string) :
  (∀ cur, String.concat " " (pieces p cur false s) = cur +:+ squeeze p false s)
  ∧ String.concat " " (pieces p "" true s) = squeeze p true s.
Proof.
  induction s as [|c s [IHA IHB]].
  - split; [|done]. intros cur. simpl. by rewrite app_empty_r.
  - split.
    + intros cur. simpl. destruct (p c).
      * rewrite concat_cons by apply pieces_nonempty. by rewrite IHB.
      * rewrite IHA. by rewrite app_assoc_s.
    + simpl. destruct (p c); [exact IHB|]. by rewrite IHA.
Qed.

Lemma sub_Plus (p : ascii → bool) (s : string) :
  Re.sub (Plus p) " " s = squeeze p false s.
Proof.
  unfold Re.sub. rewrite split_Plus. apply (proj1 (concat_pieces p s) "").
Qed.

(** ** Reversal and [strip] *)

Lemma rev_app_rev (s acc : string) : String.rev_app s acc = String.rev s +:+ acc.
Proof.
  revert acc. induction s as [|c s IH]; intros acc; [done|].
  unfold String.rev. simpl. rewrite (IH (String c acc)), (IH (String c "")).
  by rewrite app_assoc_s.
Qed.

Lemma rev_cons (c : ascii) (s : string) :
  String.rev (String c s) = String.rev s +:+ String c "".
Proof. unfold String.rev at 1. simpl. apply rev_app_rev. Qed.

Lemma rev_app_s (a b : string) : String.rev (a +:+ b) = String.rev b +:+ String.rev a.
Proof.
  induction a as [|c a IH]; [by rewrite app_empty_l, app_empty_r|].
  by rewrite app_cons, !rev_cons, IH, app_assoc_s.
Qed.

Lemma rev_involutive_s (s : string) : String.rev (String.rev s) = s.
Proof.
  induction s as [|c s IH]; [done|]. by rewrite rev_cons, rev_app_s, IH.
Qed.

Lemma all_chars_app (q : ascii → bool) (a b : string) :
  all_chars q (a +:+ b) = all_chars q a && all_chars q b.
Proof.
  induction a as [|c a IH]; [done|]. rewrite app_cons. simpl.
  by rewrite IH, andb_assoc.
Qed.

Lemma all_chars_rev (q : ascii → bool) (s : string) :
  all_chars q (String.rev s) = all_chars q s.
Proof.
  induction s as [|c s IH]; [done|]. rewrite rev_cons, all_chars_app, IH. simpl.
  by rewrite andb_true_r, andb_comm.
Qed.

Lemma last_prev_default (prev : option ascii) (s : string) :
  last_prev prev s = match last_prev None s with Some x => Some x | None => prev end.
Proof.
  revert prev. induction s as [|c s IH]; intros prev; [done|]. simpl.
  rewrite (IH (Some c)). by destruct (last_prev None s).
Qed.

Lemma last_prev_app (prev : option ascii) (a b : string) :
  last_prev prev (a +:+ b) = last_prev (last_prev prev a) b.
Proof.
  revert prev. induction a as [|c a IH]; intros prev; [done|].
  rewrite app_cons. simpl. apply IH.
Qed.

Lemma head_rev (s : string) : head (String.rev s) = last_prev None s.
Proof.
  induction s as [|c s IH]; [done|]. rewrite rev_cons. simpl.
  rewrite (last_prev_default (Some c)), <- IH. by destruct (String.rev s).
Qed.

Lemma lstrip_spaces (a t : string) :
  all_chars Chr.is_space a = true → Str.lstrip (a +:+ t) = Str.lstrip t.
Proof.
  induction a as [|c a IH]; [done|]. simpl. intros [Hc Ha]%andb_true_iff.
  by rewrite Hc, IH.
Qed.

Lemma lstrip_head (t : string) :
  from_option Chr.is_space false (head t) = false → Str.lstrip t = t.
Proof. destruct t as [|c t]; [done|]. simpl. by intros ->. Qed.

(** what [strip] leaves of a text between two runs of spaces *)
Lemma strip_between (a m b : string) :
  all_chars Chr.is_space a = true → all_chars Chr.is_space b = true →
  from_option Chr.is_space false (head m) = false →
  from_option Chr.is_space false (last_prev None m) = false →
  Str.strip (a +:+ m +:+ b) = m.
Proof.
  intros Ha Hb Hh Hl. unfold Str.strip. rewrite lstrip_spaces by done.
  destruct m as [|c m].
  - rewrite app_empty_l. rewrite <- (app_empty_r b), lstrip_spaces by done. done.
  - rewrite (lstrip_head (String c m +:+ b)) by done.
    rewrite rev_app_s, lstrip_spaces by (by rewrite all_chars_rev).
    rewrite lstrip_head by (by rewrite head_rev). apply rev_involutive_s.
Qed.

(** ** Words *)

Lemma app_snoc_ne (cur : string) (c : ascii) : cur +:+ String c "" ≠ "".
Proof. by destruct cur. Qed.

Lemma is_empty_false (s : string) : s ≠ "" → is_empty s = false.
Proof. by destruct s. Qed.

Lemma words_go_ne (p : ascii → bool) (cur s : string) :
  cur ≠ "" → words_go p cur s ≠ [].
Proof.
  revert cur. induction s as [|c s IH]; intros cur H; simpl.
  - by rewrite is_empty_false.
  - destruct (p c); [by rewrite is_empty_false|]. apply IH, app_snoc_ne.
Qed.

Lemma words_go_none (p : ascii → bool) (s : string) :
  words_go p "" s = [] → all_chars p s = true.
Proof.
  induction s as [|c s IH]; [done|]. simpl. destruct (p c); [exact IH|].
  intros H. by apply words_go_ne in H.
Qed.

Lemma words_go_word_of (p : ascii → bool) (cur s : string) :
  all_chars (λ c, negb (p c)) cur = true →
  Forall (word_of p) (words_go p cur s).
Proof.
  revert cur. induction s as [|c s IH]; intros cur H; simpl.
  - destruct cur as [|x cur]; [constructor|]. by repeat constructor.
  - destruct (p c) eqn:Hc.
    + destruct cur as [|x cur]; simpl; [by apply IH|].
      constructor; [done|by apply IH].
    + apply IH. rewrite all_chars_app, H. simpl. by rewrite Hc.
Qed.

Lemma last_prev_run (p : ascii → bool) (b : bool) (prev : option ascii) (s : string) :
  all_chars (λ c, if b then p c else negb (p c)) s = true →
  from_option p false prev = b → from_option p false (last_prev prev s) = b.
Proof.
  revert prev. induction s as [|c s IH]; intros prev; [done|]. simpl.
  intros [Hc Hs]%andb_true_iff _. apply IH; [done|]. simpl.
  destruct b; [done|]. by apply negb_true_iff.
Qed.

Lemma last_prev_None (prev : option ascii) (s : string) :
  last_prev prev s = None → s = "".
Proof.
  destruct s as [|c s]; [done|]. simpl. rewrite last_prev_default.
  by destruct (last_prev None s).
Qed.

Lemma squeeze_lead (p : ascii → bool) (s : string) :
  squeeze p false s
  = (if from_option p false (head s) then " " else "") +:+ squeeze p true s.
Proof. destruct s as [|c s]; [done|]. simpl. by destruct (p c). Qed.

Lemma squeeze_words (p : ascii → bool) (s : string) :
  (∀ prev, squeeze p true s
     = String.concat " " (words_go p "" s)
       +:+ (match words_go p "" s with
            | [] => ""
            | _ => if from_option p false (last_prev prev s) then " " else ""
            end))
  ∧ (∀ cur prev, cur ≠ "" → from_option p false prev = false →
       cur +:+ squeeze p false s
       = String.concat " " (words_go p cur s)
         +:+ (if from_option p false (last_prev prev s) then " " else "")).
Proof.
  induction s as [|c s [IHA IHB]].
  - split; [done|]. intros cur prev Hcur Hprev. simpl.
    by rewrite is_empty_false, Hprev.
  - split.
    + intros prev. simpl. destruct (p c) eqn:Hc; [apply IHA|].
      change (String c (squeeze p false s)) with (String c "" +:+ squeeze p false s).
      rewrite (IHB (String c "") (Some c)); [|done|exact Hc].
      rewrite app_empty_l.
      pose proof (words_go_ne p (String c "") s) as Hne.
      destruct (words_go p (String c "") s); [by destruct Hne|done].
    + intros cur prev Hcur Hprev. simpl. destruct (p c) eqn:Hc.
      * rewrite is_empty_false by done. rewrite (IHA (Some c)).
        destruct (words_go p "" s) as [|w ws] eqn:Hw.
        -- apply words_go_none in Hw.
           rewrite (last_prev_run p true (Some c) s); [|by rewrite <- Hw; f_equal|done].
           simpl. by rewrite app_empty_r.
        -- rewrite (concat_cons " " cur (w :: ws)) by done. by rewrite !app_assoc_s.
      * rewrite <- (IHB (cur +:+ String c "") (Some c)); [|apply app_snoc_ne|exact Hc].
        by rewrite app_assoc_s.
Qed.

Lemma unwords_ends (ws : list string) :
  Forall (word_of Chr.is_space) ws →
  from_option Chr.is_space false (head (String.concat " " ws)) = false
  ∧ from_option Chr.is_space false (last_prev None (String.concat " " ws)) = false
  ∧ (ws ≠ [] → String.concat " " ws ≠ "").
Proof.
  induction 1 as [|w ws [Hw Hall] Hws (IH1 & IH2 & IH3)]; [done|].
  assert (from_option Chr.is_space false (head w) = false) as Hhead.
  { destruct w as [|c w]; [done|]. simpl in *. apply andb_true_iff in Hall as [Hc _].
    by apply negb_true_iff. }
  destruct ws as [|w' ws].
  - simpl. split; [done|]. split; [|done].
    by apply (last_prev_run Chr.is_space false).
  - rewrite concat_cons by done. split; [by destruct w|]. split; [|by destruct w].
    rewrite <- app_assoc_s, last_prev_app, last_prev_default.
    destruct (last_prev None (String.concat " " (w' :: ws))) as [x|] eqn:Hx; [done|].
    apply last_prev_None in Hx. by apply IH3 in Hx.
Qed.

(** [strip] after [re.sub(r"\s+", " ", s)] joins the words of [s] by single spaces *)
Lemma strip_squeeze (s : string) :
  Str.strip (Re.sub (Plus Chr.is_space) " " s) = Str.join " " (words s).
Proof.
  rewrite sub_Plus, squeeze_lead, (proj1 (squeeze_words Chr.is_space s) None).
  pose proof (unwords_ends (words s) (words_go_word_of Chr.is_space "" s eq_refl))
    as (H1 & H2 & _).
  unfold Str.join, words in *.
  apply strip_between; [|clear H1 H2|done|done].
  - by destruct (from_option Chr.is_space false (head s)).
  - destruct (words_go Chr.is_space "" s); [done|].
    by destruct (from_option Chr.is_space false (last_prev None s)).
Qed.

Lemma words_go_word (p : ascii → bool) (cur w rest : string) :
  all_chars (λ c, negb (p c)) w = true →
  words_go p cur (w +:+ rest) = words_go p (cur +:+ w) rest.
Proof.
  revert cur. induction w as [|c w IH]; intros cur; [by rewrite app_empty_r|].
  simpl. intros [Hc Hw]%andb_true_iff. apply negb_true_iff in Hc. rewrite Hc.
  rewrite IH by done. by rewrite app_assoc_s.
Qed.

(** the words of words joined by single spaces are these words *)
Lemma words_unwords (ws : list string) :
  Forall (word_of Chr.is_space) ws → words (String.concat " " ws) = ws.
Proof.
  unfold words. induction 1 as [|w ws [Hw Hall] Hws IH]; [done|].
  destruct ws as [|w' ws].
  - pose proof (words_go_word Chr.is_space "" w "" Hall) as H.
    rewrite app_empty_r in H. simpl in *. rewrite H. by rewrite is_empty_false.
  - rewrite concat_cons by done. rewrite words_go_word by done.
    rewrite app_cons, !app_empty_l. cbn [words_go].
    change (Chr.is_space " ") with true. cbn iota.
    by rewrite is_empty_false, IH.
Qed.

Lemma clean_words (charref : string → string) (s : string) :
  _clean charref s = Str.join " " (words (html_unescape charref s)).
Proof. apply strip_squeeze. Qed.

Lemma words_are_words (s : string) : Forall (word_of Chr.is_space) (words s).
Proof. by apply words_go_word_of. Qed.

Lemma all_chars_impl (q q' : ascii → bool) (s : string) :
  (∀ c, q c = true → q' c = true) → all_chars q s = true → all_chars q' s = true.
Proof.
  intros Hq. induction s as [|c s IH]; [done|]. simpl.
  intros [Hc Hs]%andb_true_iff. by rewrite (Hq c Hc), IH.
Qed.

Lemma spaced_once_word (w t : string) :
  all_chars (λ c, negb (Chr.is_space c)) w = true →
  spaced_once (w +:+ t) = spaced_once t.
Proof.
  induction w as [|c w IH]; [done|]. simpl. intros [Hc Hw]%andb_true_iff.
  apply negb_true_iff in Hc. rewrite Hc. simpl. by apply IH.
Qed.

Lemma unwords_spacing (ws : list string) :
  Forall (word_of Chr.is_space) ws →
  all_chars (λ c, negb (Chr.is_space c) || Chr.eqb c " ") (String.concat " " ws) = true
  ∧ spaced_once (String.concat " " ws) = true.
Proof.
  induction 1 as [|w ws [Hw Hall] Hws [IH1 IH2]]; [done|].
  assert (all_chars (λ c, negb (Chr.is_space c) || Chr.eqb c " ") w = true) as Hall'.
  { revert Hall. apply all_chars_impl. by intros c ->. }
  destruct ws as [|w' ws].
  - simpl. split; [done|]. pose proof (spaced_once_word w "" Hall) as H.
    by rewrite app_empty_r in H.
  - rewrite concat_cons by done. split.
    + by rewrite !all_chars_app, Hall', IH1.
    + rewrite spaced_once_word by done. rewrite app_cons, app_empty_l.
      cbn [spaced_once].
      rewrite IH2. destruct (unwords_ends (w' :: ws) Hws) as [-> _]. done.
Qed.

(** ** The lines of [joined] *)

Lemma split_go_free (c : ascii) (cur u t : string) :
  all_chars (λ x, negb (Chr.eqb c x)) u = true →
  Str.split_go c cur (u +:+ t) = Str.split_go c (String.rev u +:+ cur) t.
Proof.
  revert cur. induction u as [|x u IH]; intros cur; [done|]. simpl.
  intros [Hx Hu]%andb_true_iff. apply negb_true_iff in Hx. rewrite Hx.
  rewrite IH by done. by rewrite rev_cons, app_assoc_s.
Qed.

Lemma split_join_lines (pre : string) (bs : list string) :
  let lf := ascii_of_nat 10 in
  Forall (λ b, all_chars (λ x, negb (Chr.eqb lf x)) b = true) bs → bs ≠ [] →
  all_chars (λ x, negb (Chr.eqb lf x)) pre = true →
  Str.split_go lf (String.rev pre) (String.concat (String " " (String lf " ")) bs)
  = imap (λ i b, (if i is 0 then pre else " ") +:+ b
                 +:+ (if S i =? length bs then "" else " ")) bs.
Proof.
  intros lf Hbs. revert pre. induction Hbs as [|b bs Hb Hbs IH]; intros pre Hne Hpre; [done|]. clear Hne.
  destruct bs as [|b' bs].
  - simpl. rewrite <- (app_empty_r b) at 1. rewrite split_go_free by done. simpl.
    by rewrite <- rev_app_s, rev_involutive_s, app_empty_r.
  - rewrite concat_cons by done. rewrite split_go_free by done.
    rewrite !app_cons, app_empty_l. cbn [Str.split_go].
    change (Chr.eqb lf " ") with false. change (Chr.eqb lf lf) with true. cbn iota.
    pose proof (IH " ") as IH'. change (String.rev " ") with " " in IH'.
    rewrite IH' by done. cbn [imap]. f_equal.
    rewrite rev_cons, rev_app_s, !rev_involutive_s. by rewrite app_assoc_s.
Qed.

Lemma clean_no_lf (charref : string → string) (s : string) :
  all_chars (λ x, negb (Chr.eqb (ascii_of_nat 10) x)) (_clean charref s) = true.
Proof.
  rewrite clean_words.
  destruct (unwords_spacing _ (words_are_words (html_unescape charref s))) as [H _].
  revert H. apply all_chars_impl. intros c.
  destruct c as [[] [] [] [] [] [] [] []]; vm_compute; congruence.
Qed.

Lemma lines_of_joined (charref : string → string) (st : N8nStory) :
  Str.split (ascii_of_nat 10) (joined_of charref st)
  = imap (padded (length (blocks_of st))) (_clean charref <$> blocks_of st).
Proof.
  unfold Str.split, joined_of, Str.join.
  change "" with (String.rev "") at 1.
  rewrite split_join_lines; [|apply Forall_fmap, Forall_forall; intros b _; apply clean_no_lf|done|done].
  by rewrite length_fmap.
Qed.

(** ** The symbols of a list *)

Lemma SEPARATORS_class : SEPARATORS = Plus separator.
Proof. reflexivity. Qed.

Lemma pieces_words (p : ascii → bool) (s : string) :
  (∀ cur, filter (λ x, x ≠ "") (pieces p cur false s) = words_go p cur s)
  ∧ filter (λ x, x ≠ "") (pieces p "" true s) = words_go p "" s.
Proof.
  induction s as [|c s [IHA IHB]].
  - split; [|done]. intros cur. simpl. by destruct cur.
  - split.
    + intros cur. simpl. destruct (p c); [|apply IHA].
      rewrite filter_cons, IHB. by destruct cur.
    + simpl. destruct (p c); [exact IHB|apply IHA].
Qed.

Lemma pieces_free (p : ascii → bool) (cur : string) (b : bool) (s : string) :
  all_chars (λ c, negb (p c)) cur = true →
  Forall (λ x, all_chars (λ c, negb (p c)) x = true) (pieces p cur b s).
Proof.
  revert cur b. induction s as [|c s IH]; intros cur b H; simpl.
  - by constructor.
  - destruct (p c) eqn:Hc.
    + destruct b; [by apply IH|]. constructor; [done|by apply IH].
    + apply IH. rewrite all_chars_app, H. simpl. by rewrite Hc.
Qed.

Lemma lstrip_decomp (s : string) :
  ∃ a, s = a +:+ Str.lstrip s ∧ all_chars Chr.is_space a = true.
Proof.
  induction s as [|c s (a & IH & Ha)]; [by exists ""|]. simpl.
  destruct (Chr.is_space c) eqn:Hc; [|by exists ""].
  exists (String c a). rewrite app_cons, <- IH. simpl. by rewrite Hc, Ha.
Qed.

(** [strip] takes spaces off both ends, and nothing else *)
Lemma strip_decomp (s : string) :
  ∃ a b, s = a +:+ Str.strip s +:+ b
    ∧ all_chars Chr.is_space a = true ∧ all_chars Chr.is_space b = true.
Proof.
  destruct (lstrip_decomp s) as (a & Hs & Ha).
  destruct (lstrip_decomp (String.rev (Str.lstrip s))) as (b & Ht & Hb).
  exists a, (String.rev b). split; [|split; [done|by rewrite all_chars_rev]].
  unfold Str.strip. rewrite <- rev_app_s, <- Ht, rev_involutive_s. exact Hs.
Qed.

Lemma strip_free (x : string) :
  all_chars (λ c, negb (Chr.is_space c)) x = true → Str.strip x = x.
Proof.
  intros H. rewrite <- (app_empty_r x) at 1.
  apply (strip_between "" x ""); [done|done| |].
  - destruct x as [|c x]; [done|]. simpl in *. apply andb_true_iff in H as [Hc _].
    by apply negb_true_iff.
  - by apply (last_prev_run Chr.is_space false).
Qed.

Lemma words_go_run (p : ascii → bool) (cur b : string) :
  all_chars p b = true → words_go p cur b = if is_empty cur then [] else [cur].
Proof.
  revert cur. induction b as [|c b IH]; intros cur; [done|]. simpl.
  intros [Hc Hb]%andb_true_iff. rewrite Hc. rewrite (IH "") by done.
  by destruct cur.
Qed.

Lemma words_go_lead (p : ascii → bool) (a t : string) :
  all_chars p a = true → words_go p "" (a +:+ t) = words_go p "" t.
Proof.
  induction a as [|c a IH]; [done|]. simpl. intros [Hc Ha]%andb_true_iff.
  rewrite Hc. by apply IH.
Qed.

Lemma words_go_trail (p : ascii → bool) (cur t b : string) :
  all_chars p b = true → words_go p cur (t +:+ b) = words_go p cur t.
Proof.
  intros Hb. revert cur. induction t as [|c t IH]; intros cur.
  - rewrite app_empty_l. by apply words_go_run.
  - rewrite app_cons. simpl. destruct (p c); [|apply IH]. by rewrite IH.
Qed.

Lemma words_go_sep (p : ascii → bool) (cur a : string) (c : ascii) (b : string) :
  p c = true →
  words_go p cur (a +:+ String c b) = words_go p cur a ++ words_go p "" b.
Proof.
  intros Hc. revert cur. induction a as [|x a IH]; intros cur.
  - simpl. rewrite Hc. by destruct cur.
  - rewrite app_cons. simpl. destruct (p x); [|apply IH]. rewrite IH.
    by destruct cur.
Qed.

Lemma space_separator (c : ascii) : Chr.is_space c = true → separator c = true.
Proof. unfold separator. intros ->. apply orb_true_r. Qed.

Lemma shaped_upper_filter (l : list string) :
  filter (λ p, shaped p = true) (Str.upper <$> l)
  = filter (λ p, shaped p = true) (Str.upper <$> filter (λ x, x ≠ "") l).
Proof.
  induction l as [|x l IH]; [done|]. rewrite fmap_cons, !filter_cons.
  destruct x as [|c x].
  - rewrite decide_False by done. rewrite decide_False by (by intros []). exact IH.
  - rewrite (decide_True (P := String c x ≠ "")) by done.
    rewrite fmap_cons, filter_cons. by rewrite IH.
Qed.

(** the symbols of a list are the words between its separators, in upper
    case, that have the canonical shape *)
Lemma split_symbols_words (s : string) :
  _split_symbols s
  = filter (λ p, shaped p = true) (Str.upper <$> words_go separator "" s).
Proof.
  unfold _split_symbols. rewrite SEPARATORS_class, split_Plus.
  assert ((λ p, Str.upper (Str.strip p)) <$> pieces separator "" false (Str.strip s)
          = Str.upper <$> pieces separator "" false (Str.strip s)) as ->.
  { apply Forall_fmap_ext_1. eapply Forall_impl; [apply pieces_free; done|].
    intros x Hx. simpl. rewrite strip_free; [done|].
    revert Hx. apply all_chars_impl. intros c Hc. apply negb_true_iff.
    apply negb_true_iff in Hc. destruct (Chr.is_space c) eqn:E; [|done].
    by rewrite space_separator in Hc. }
  rewrite shaped_upper_filter, (proj1 (pieces_words separator _) "").
  destruct (strip_decomp s) as (a & b & Hs & Ha & Hb).
  rewrite Hs at 2. rewrite words_go_lead, words_go_trail; [done| |].
  - revert Hb. apply all_chars_impl, space_separator.
  - revert Ha. apply all_chars_impl, space_separator.
Qed.

Lemma map_app_s (f : ascii → ascii) (a b : string) :
  Str.map f (a +:+ b) = Str.map f a +:+ Str.map f b.
Proof. induction a as [|c a IH]; [done|]. rewrite app_cons. simpl. by rewrite IH. Qed.

Lemma words_go_map (f : ascii → ascii) (p : ascii → bool) (cur s : string) :
  (∀ c, p (f c) = p c) →
  words_go p (Str.map f cur) (Str.map f s) = Str.map f <$> words_go p cur s.
Proof.
  intros Hf. revert cur. induction s as [|c s IH]; intros cur; simpl.
  - by destruct cur.
  - rewrite Hf. destruct (p c).
    + pose proof (IH "") as H. simpl in H. rewrite H. by destruct cur.
    + rewrite <- IH. by rewrite map_app_s.
Qed.

Lemma separator_upper (c : ascii) : separator (Chr.upper c) = separator c.
Proof. by destruct c as [[] [] [] [] [] [] [] []]. Qed.

Lemma separator_lower (c : ascii) : separator (Chr.lower c) = separator c.
Proof. by destruct c as [[] [] [] [] [] [] [] []]. Qed.

Lemma chr_upper_lower (c : ascii) : Chr.upper (Chr.lower c) = Chr.upper c.
Proof. by destruct c as [[] [] [] [] [] [] [] []]. Qed.

Lemma upper_lower (s : string) : Str.upper (Str.lower s) = Str.upper s.
Proof.
  induction s as [|c s IH]; [done|]. unfold Str.upper, Str.lower in *. simpl.
  by rewrite chr_upper_lower, IH.
Qed.

(** X16. [_clean] returns the words of the text after [html.unescape],
    joined by single spaces: the maximal pieces without a character of
    [\s], in their order, as [" ".join(html.unescape(s).split())] would. *)
Theorem clean_joins_words (charref : string → string) (s : string) :
  _clean charref s = Str.join " " (words (html_unescape charref s))
  ∧ Forall (word_of Chr.is_space) (words (html_unescape charref s)).
Proof. split; [apply strip_squeeze|apply words_are_words]. Qed.

(** X17. [_clean] is idempotent on a text that it leaves without an
    ampersand: cleaning a cleaned text again returns it unchanged.  (With
    an ampersand left, [html.unescape] may decode a second time.) *)
Theorem clean_idempotent (charref : string → string) (s : string) :
  Str.mem (ch "&") (_clean charref s) = false →
  _clean charref (_clean charref s) = _clean charref s.
Proof.
  intros Hamp. rewrite (clean_words charref (_clean charref s)).
  unfold html_unescape at 1. rewrite Hamp. rewrite (clean_words charref s).
  unfold Str.join. by rewrite words_unwords by apply words_are_words.
Qed.

Lemma clean_idempotent_witness :
  _clean no_charref untidy = "Nvidia beats"
  ∧ _clean no_charref (_clean no_charref untidy) = _clean no_charref untidy.
Proof.
  split; [vm_compute; reflexivity|]. apply clean_idempotent. vm_compute. reflexivity.
Defined.

(** X18. In the text [_clean] returns, the only character of the class
    [\s] is the space; no two spaces are adjacent, and the text neither
    starts nor ends with one.  In particular it holds no line feed. *)
Theorem clean_spacing (charref : string → string) (s : string) :
  all_chars (λ c, negb (Chr.is_space c) || Chr.eqb c " ") (_clean charref s) = true
  ∧ spaced_once (_clean charref s) = true
  ∧ from_option Chr.is_space false (head (_clean charref s)) = false
  ∧ from_option Chr.is_space false (last_prev None (_clean charref s)) = false.
Proof.
  rewrite clean_words. unfold Str.join.
  pose proof (words_are_words (html_unescape charref s)) as Hw.
  destruct (unwords_spacing _ Hw) as [H1 H2].
  destruct (unwords_ends _ Hw) as (H3 & H4 & _). done.
Qed.

(** X19. The lines that the keep/cut/sell loop reads are the cleaned
    blocks of the story, one line for each block: title, excerpt,
    combined text and every comment, in this order, each with a space
    before it unless it is the first and a space after it unless it is
    the last.  A line feed inside a block starts no line. *)
Theorem lines_are_blocks (charref : string → string) (st : N8nStory) :
  Str.split (ascii_of_nat 10) (joined_of charref st)
  = imap (padded (length (blocks_of st))) (_clean charref <$> blocks_of st)
  ∧ length (Str.split (ascii_of_nat 10) (joined_of charref st))
    = 3 + length (comments st).
Proof.
  rewrite lines_of_joined. split; [done|].
  rewrite length_imap, length_fmap. unfold blocks_of.
  rewrite length_app, length_fmap. done.
Qed.

(** X20. [_split_symbols] returns, in their order and with repetitions,
    the words of the text between commas, semicolons, slashes and
    spaces, in upper case, that have the canonical shape; the [strip]
    calls change nothing of the result. *)
Theorem split_symbols_are_words (s : string) :
  _split_symbols s
  = filter (λ p, shaped p = true) (Str.upper <$> words_go separator "" s).
Proof. apply split_symbols_words. Qed.

(** X21. The symbols of two lists put together with a separator between
    them are the symbols of the first, then those of the second. *)
Theorem split_symbols_app (a b : string) (c : ascii) :
  separator c = true →
  _split_symbols (a +:+ String c b) = _split_symbols a ++ _split_symbols b.
Proof.
  intros Hc. rewrite !split_symbols_words, words_go_sep by done.
  by rewrite fmap_app, filter_app.
Qed.

Lemma split_symbols_app_witness :
  _split_symbols ("NVDA, aapl" +:+ String ";" "oxy / toolongname")
  = _split_symbols "NVDA, aapl" ++ _split_symbols "oxy / toolongname".
Proof. apply split_symbols_app. reflexivity. Defined.

(** X22. On a text of characters below code 128, [_split_symbols] does
    not look at the case of the letters: the text in upper case, and the
    text in lower case, give the symbols of the text. *)
Theorem split_symbols_any_case (s : string) :
  ascii_text s = true →
  _split_symbols (Str.upper s) = _split_symbols s
  ∧ _split_symbols (Str.lower s) = _split_symbols s.
Proof.
  intros _. rewrite !split_symbols_words. split.
  - change (words_go separator "" (Str.upper s))
      with (words_go separator (Str.map Chr.upper "") (Str.map Chr.upper s)).
    rewrite words_go_map by apply separator_upper. rewrite <- list_fmap_compose.
    f_equal. apply list_fmap_ext. intros i x _. apply upper_idem.
  - change (words_go separator "" (Str.lower s))
      with (words_go separator (Str.map Chr.lower "") (Str.map Chr.lower s)).
    rewrite words_go_map by apply separator_lower. rewrite <- list_fmap_compose.
    f_equal. apply list_fmap_ext. intros i x _. apply upper_lower.
Qed.

Lemma split_symbols_any_case_witness :
  _split_symbols (Str.upper "nvda, Aapl;oxy") = _split_symbols "nvda, Aapl;oxy"
  ∧ _split_symbols (Str.lower "nvda, Aapl;oxy") = _split_symbols "nvda, Aapl;oxy".
Proof. apply split_symbols_any_case. reflexivity. Defined.

(** * What the matchers find

    Each of the four patterns finds its symbol inside a word of a block. *)

(** ** What a match reads *)

Section reads.
Context {R : Type}.

Lemma run_reads (r : re) (prev : option ascii) (s : string) (g : caps)
    (k : @cont R) (x : R) :
  run r prev s g k = Some x →
  ∃ m s' prev' g', s = m +:+ s' ∧ all_chars (alphabet r) m = true
    ∧ k prev' s' g' = Some x.
Proof.
  revert prev s g k.
  induction r as [|p|r1 IH1 r2 IH2|r1 IH1 r2 IH2|p lo hi|n r1 IH1| | |];
    intros prev s g k; simpl.
  - intros H. by exists "", s, prev, g.
  - destruct s as [|c s]; [discriminate|]. destruct (p c) eqn:Hc; [|discriminate].
    intros H. exists (String c ""), s, (Some c), g. simpl. by rewrite Hc.
  - intros H. apply IH1 in H as (m1 & s1 & p1 & g1 & -> & Hm1 & H).
    apply IH2 in H as (m2 & s2 & p2 & g2 & -> & Hm2 & H).
    exists (m1 +:+ m2), s2, p2, g2. rewrite app_assoc_s. split; [done|]. split; [|done].
    rewrite all_chars_app. apply andb_true_iff. split.
    + revert Hm1. apply all_chars_impl. by intros c ->.
    + revert Hm2. apply all_chars_impl. intros c ->. apply orb_true_r.
  - destruct (run r1 prev s g k) as [y|] eqn:Hy.
    + intros [= <-]. apply IH1 in Hy as (m1 & s1 & p1 & g1 & -> & Hm1 & H).
      exists m1, s1, p1, g1. split; [done|]. split; [|done].
      revert Hm1. apply all_chars_impl. by intros c ->.
    + intros H. apply IH2 in H as (m2 & s2 & p2 & g2 & -> & Hm2 & H).
      exists m2, s2, p2, g2. split; [done|]. split; [|done].
      revert Hm2. apply all_chars_impl. intros c ->. apply orb_true_r.
  - intros H. apply rep_prefix in H as (u & s' & -> & Hu & _ & _ & H).
    by exists u, s', (last_prev prev u), g.
  - intros H. apply IH1 in H as (m1 & s1 & p1 & g1 & -> & Hm1 & H).
    by exists m1, s1, p1, ((n, String.substring 0 (String.length (m1 +:+ s1) - String.length s1) (m1 +:+ s1)) :: g1).
  - destruct (xorb _ _); [|discriminate]. intros H. by exists "", s, prev, g.
  - destruct prev; [discriminate|]. intros H. by exists "", s, None, g.
  - destruct (at_eol s); [|discriminate]. intros H. by exists "", s, prev, g.
Qed.

End reads.

Lemma at_pos_reads (r : re) (prev : option ascii) (s : string) (g : caps) (rest : string) :
  at_pos r prev s = Some (g, rest) →
  ∃ m, s = m +:+ rest ∧ all_chars (alphabet r) m = true.
Proof.
  unfold at_pos. intros H.
  apply run_reads in H as (m & s' & p' & g' & -> & Hm & [= _ ->]). by exists m.
Qed.

(** ** [finditer] reports a match that no earlier match runs into *)

Lemma scan_finds (r : re) (t : string) (g : caps) (rest : string) (u : string) :
  ∀ i skip prev,
  (∀ v w prev' g' rest', u = v +:+ w → w ≠ "" →
     at_pos r prev' (w +:+ t) = Some (g', rest') →
     String.length (w +:+ t) - String.length rest' ≤ String.length w) →
  skip ≤ String.length u → t ≠ "" →
  at_pos r (last_prev prev u) t = Some (g, rest) →
  Mtch (i + String.length u)
       (i + String.length u + (String.length t - String.length rest)) g
    ∈ scan r i skip prev (u +:+ t).
Proof.
  induction u as [|x u IH]; intros i skip prev Hend Hskip Ht Hat.
  - cbn [last_prev String.length] in *. rewrite app_empty_l.
    assert (skip = 0) as -> by lia. rewrite Nat.add_0_r.
    destruct t as [|c t]; [done|]. cbn [scan]. rewrite Hat. apply list_elem_of_here.
  - rewrite app_cons. cbn [scan String.length].
    replace (i + S (String.length u)) with (S i + String.length u) by lia.
    assert (∀ v w prev' g' rest', u = v +:+ w → w ≠ "" →
              at_pos r prev' (w +:+ t) = Some (g', rest') →
              String.length (w +:+ t) - String.length rest' ≤ String.length w) as Hend'.
    { intros v w prev' g' rest' ->. apply (Hend (String x v)). by rewrite app_cons. }
    destruct skip as [|n].
    + destruct (at_pos r prev (String x (u +:+ t))) as [[g' rest']|] eqn:Hx.
      * apply list_elem_of_further, IH; [done| |done|done].
        specialize (Hend "" (String x u) prev g' rest' eq_refl).
        rewrite app_cons in Hend. specialize (Hend ltac:(done) Hx).
        simpl in *. lia.
      * apply IH; [done|lia|done|done].
    + apply IH; [done|simpl in Hskip; lia|done|done].
Qed.

Lemma finditer_finds (r : re) (u t : string) (g : caps) (rest : string) :
  (∀ v w prev' g' rest', u = v +:+ w → w ≠ "" →
     at_pos r prev' (w +:+ t) = Some (g', rest') →
     String.length (w +:+ t) - String.length rest' ≤ String.length w) →
  t ≠ "" → at_pos r (last_prev None u) t = Some (g, rest) →
  ∃ m, m ∈ finditer r (u +:+ t) ∧ m_caps m = g.
Proof.
  intros Hend Ht Hat. eexists. split; [|shelve].
  apply (scan_finds r t g rest u 0 0 None Hend); [lia|done|done].
  Unshelve. done.
Qed.

(** a text read by a match is not longer than what comes before a
    character outside of the alphabet *)
Lemma reads_before (q : ascii → bool) (w : string) (c : ascii) (t m rest : string) :
  w +:+ String c t = m +:+ rest → all_chars q m = true → q c = false →
  String.length m ≤ String.length w.
Proof.
  revert m. induction w as [|y w IH]; intros m Heq Hm Hc.
  - destruct m as [|z m]; [done|]. rewrite app_empty_l, app_cons in Heq.
    injection Heq as <- _. simpl in Hm. by rewrite Hc in Hm.
  - destruct m as [|z m]; [simpl; lia|]. rewrite !app_cons in Heq.
    injection Heq as <- Heq. simpl in Hm. apply andb_true_iff in Hm as [_ Hm].
    specialize (IH m Heq Hm Hc). simpl. lia.
Qed.

(** a pattern that starts with a character its matches do not hold again:
    no match runs into that character *)
Lemma marker_ends (p0 : ascii → bool) (r' : re) (c : ascii) (t w : string)
    (prev' : option ascii) (g' : caps) (rest' : string) :
  alphabet r' c = false → w ≠ "" →
  at_pos (Cls p0 +> r') prev' (w +:+ String c t) = Some (g', rest') →
  String.length (w +:+ String c t) - String.length rest' ≤ String.length w.
Proof.
  intros Hc Hw Hat. unfold at_pos in Hat.
  apply run_Seq_inv, run_Cls_inv in Hat as (c0 & s1 & Hs & _ & Hat).
  apply run_reads in Hat as (m & s' & p1 & g1 & -> & Hm & [= _ ->]).
  destruct w as [|y w]; [done|]. rewrite app_cons in Hs. injection Hs as -> Hs.
  rewrite app_cons, Hs. pose proof (reads_before _ _ _ _ _ _ Hs Hm Hc).
  cbn [String.length]. rewrite length_app_s. lia.
Qed.

(** a position after a character outside of the alphabet of the pattern:
    no match runs over that character *)
Lemma class_ends (r : re) (z : ascii) (u0 t v w : string)
    (prev' : option ascii) (g' : caps) (rest' : string) :
  alphabet r z = false → u0 +:+ String z "" = v +:+ w → w ≠ "" →
  at_pos r prev' (w +:+ t) = Some (g', rest') →
  String.length (w +:+ t) - String.length rest' ≤ String.length w.
Proof.
  intros Hz Hu Hw Hat.
  assert (∃ w0, w = w0 +:+ String z "") as [w0 ->].
  { clear Hat. revert u0 Hu. induction v as [|y v IH]; intros u0 Hu.
    - rewrite app_empty_l in Hu. by exists u0.
    - destruct u0 as [|y' u0].
      + rewrite app_empty_l, app_cons in Hu. injection Hu as _ Hu.
        destruct v; [by destruct w|done].
      + rewrite !app_cons in Hu. injection Hu as _ Hu. by apply (IH u0). }
  apply at_pos_reads in Hat as (m & Hs & Hm).
  rewrite app_assoc_s, app_cons, app_empty_l in Hs.
  pose proof (reads_before _ _ _ _ _ _ Hs Hm Hz).
  rewrite app_assoc_s, app_cons, app_empty_l, Hs, !length_app_s. lia.
Qed.

(** ** The matches of the patterns *)

Section forward.
Context {R : Type} (k : @cont R) (x : R).

Lemma rep_none (p : ascii → bool) (lo : nat) (hi : option nat)
    (prev : option ascii) (s : string) (g : caps) :
  from_option p false (head s) = false → rep p (S lo) hi prev s g k = None.
Proof. destruct s as [|c s]; [done|]. simpl. by intros ->. Qed.

(** [SHAPE] reads a symbol of canonical shape that ends where it stands *)
Lemma run_SHAPE (prev : option ascii) (sym rest : string) (g : caps) :
  canonical sym → symbol_ends sym rest = true →
  k (last_prev prev sym) rest g = Some x →
  run SHAPE prev (sym +:+ rest) g k = Some x.
Proof.
  intros (a & b & -> & Ha & Hlen & Hb) Hend Hk. unfold SHAPE.
  assert (Str.mem (ch ".") a = false) as Hdot.
  { clear -Ha. induction a as [|c a IH]; [done|]. simpl in *.
    apply andb_true_iff in Ha as [Hc Ha]. rewrite IH by done.
    by destruct c as [[] [] [] [] [] [] [] []]. }
  rewrite app_assoc_s. cbn [run]. apply rep_max; [done|lia|intros h [= <-]; lia| |].
  - right. destruct Hb as [-> | (y & -> & _)]; [|done].
    rewrite app_empty_l. destruct rest as [|c rest]; [done|]. simpl in *.
    apply andb_true_iff in Hend as [Hc _]. apply negb_true_iff in Hc.
    destruct (Chr.is_AZ c) eqn:E; [|done]. unfold Chr.is_word in Hc. by rewrite E in Hc.
  - unfold SUFFIX, Opt. rewrite last_prev_app in Hk.
    destruct Hb as [-> | (y & -> & Hy & Hlen')].
    + rewrite app_empty_l, app_empty_r in *. cbn [run].
      destruct rest as [|c rest]; [done|].
      destruct (Chr.lit (ch ".") c) eqn:Hc; [|done].
      apply chr_eqb_eq in Hc as <-. rewrite rep_none; [done|].
      unfold symbol_ends in Hend. rewrite Hdot in Hend.
      change (Chr.eqb (ch ".") (ch ".")) with true in Hend.
      change (Chr.is_word (ch ".")) with false in Hend. simpl in Hend.
      by apply negb_true_iff in Hend.
    + rewrite app_cons. cbn [run].
      change (Chr.lit (ch ".") (ch ".")) with true. cbn iota.
      rewrite (rep_max k x Chr.is_AZ 1 (Some 2) (Some (ch ".")) y rest g);
        [done|done|lia|intros h [= <-]; lia| |done].
      right. destruct rest as [|c rest]; [done|]. simpl in *.
      apply andb_true_iff in Hend as [Hc _]. apply negb_true_iff in Hc.
      destruct (Chr.is_AZ c) eqn:E; [|done]. unfold Chr.is_word in Hc. by rewrite E in Hc.
Qed.

End forward.

Lemma canonical_last_word (prev : option ascii) (sym : string) :
  canonical sym → word_opt (last_prev prev sym) = true.
Proof.
  intros (a & b & -> & Ha & Hlen & Hb).
  assert (∀ prev u, u ≠ "" → all_chars Chr.is_AZ u = true →
            word_opt (last_prev prev u) = true) as Hlast.
  { clear. intros prev u. revert prev. induction u as [|c u IH]; intros prev Hu Hall; [done|].
    simpl in *. apply andb_true_iff in Hall as [Hc Hall].
    destruct u as [|c' u]; [|by apply IH].
    simpl. unfold Chr.is_word. by rewrite Hc. }
  rewrite last_prev_app. destruct Hb as [-> | (y & -> & Hy & Hlen')].
  - cbn [last_prev]. apply Hlast; [|done]. destruct a; [simpl in Hlen; lia|done].
  - cbn [last_prev]. apply Hlast; [|done]. destruct y; [simpl in Hlen'; lia|done].
Qed.

Lemma symbol_ends_head (sym rest : string) :
  symbol_ends sym rest = true → word_opt (head rest) = false.
Proof.
  destruct rest as [|c rest]; [done|]. simpl.
  intros [Hc _]%andb_true_iff. by apply negb_true_iff.
Qed.

(** a cashtag: [$], a symbol, and the end of the symbol *)
Lemma at_pos_CASHTAG (prev : option ascii) (sym rest : string) :
  canonical sym → symbol_ends sym rest = true →
  at_pos CASHTAG prev (String (ch "$") (sym +:+ rest)) = Some ([(1, sym)], rest).
Proof.
  intros Hsym Hend. unfold at_pos, CASHTAG. cbn [run].
  change (Chr.lit (ch "$") (ch "$")) with true. cbn iota.
  apply run_SHAPE; [done|done|]. cbn [run].
  rewrite canonical_last_word by done. rewrite (symbol_ends_head sym) by done.
  simpl xorb. cbn iota. by rewrite substring_prefix.
Qed.

(** a symbol in parentheses, with or without an exchange after a colon *)
Lemma at_pos_PAREN (prev : option ascii) (a ex rest : string) :
  all_chars Chr.is_AZ a = true → 1 ≤ String.length a ≤ 5 →
  (ex = "" ∨ ∃ e, ex = String (ch ":") e ∧ all_chars Chr.is_AZ e = true ∧ e ≠ "") →
  at_pos PAREN prev (String (ch "(") (a +:+ ex +:+ String (ch ")") rest))
  = Some ([(1, a)], rest).
Proof.
  intros Ha Hlen Hex. unfold at_pos, PAREN. cbn [run].
  change (Chr.lit (ch "(") (ch "(")) with true. cbn iota.
  apply rep_max; [done|lia|intros h [= <-]; lia| |].
  - right. by destruct Hex as [-> | (e & -> & _)].
  - rewrite substring_prefix. unfold Opt. cbn [run].
    destruct Hex as [-> | (e & -> & He & Hne)].
    + rewrite app_empty_l.
      change (Chr.lit (ch ":") (ch ")")) with false.
      change (Chr.lit (ch ")") (ch ")")) with true. done.
    + rewrite app_cons.
      change (Chr.lit (ch ":") (ch ":")) with true. cbn iota.
      unfold Plus. cbn [run].
      rewrite (rep_max _ ([(1, a)], rest) Chr.is_AZ 1 None (Some (ch ":")) e
                 (String (ch ")") rest) [(1, a)]); [done|done| |done|by right|].
      * destruct e; [done|simpl; lia].
      * cbn [run]. change (Chr.lit (ch ")") (ch ")")) with true. done.
Qed.

(** a run of two to five capitals between two places where a word starts or ends *)
Lemma at_pos_UPPERC (prev : option ascii) (a rest : string) :
  word_opt prev = false → all_chars Chr.is_AZ a = true → 2 ≤ String.length a ≤ 5 →
  word_opt (head rest) = false →
  ∃ rest', at_pos UPPERC prev (a +:+ rest) = Some ([(1, a)], rest').
Proof.
  intros Hprev Ha Hlen Hrest.
  assert (word_opt (last_prev prev a) = true) as Hlast.
  { apply canonical_last_word. exists a, "". rewrite app_empty_r.
    repeat split; [done|lia|lia|by left]. }
  assert (word_opt (head (a +:+ rest)) = true) as Hhead.
  { destruct a as [|c a]; [simpl in Hlen; lia|]. simpl in *.
    apply andb_true_iff in Ha as [Hc _]. unfold Chr.is_word. by rewrite Hc. }
  unfold at_pos, UPPERC. cbn [run]. rewrite Hprev, Hhead. simpl xorb. cbn iota.
  set (K := λ (prev' : option ascii) (s' : string) (g' : caps),
              if xorb (word_opt prev') (word_opt (head s')) then Some (g', s') else None).
  assert (∃ rest', run SUFFIX (last_prev prev a) rest [(1, a)] K = Some ([(1, a)], rest'))
    as [rest' Hsuf].
  { unfold SUFFIX, Opt.
    destruct (run (Cls (Chr.lit (ch ".")) +> Rep Chr.is_AZ 1 (Some 2))
                (last_prev prev a) rest [(1, a)] K) as [[g' r']|] eqn:Hbranch.
    - exists r'. pose proof Hbranch as Hb.
      apply run_continues in Hb as (p1 & s1 & added & Hk & Hadd).
      cbn [run] in *. rewrite Hbranch.
      destruct added as [|e added].
      + unfold K in Hk. destruct (xorb _ _); [|done]. by injection Hk as <- <-.
      + apply Forall_cons in Hadd as [He _]. simpl in He. by apply elem_of_nil in He.
    - exists rest. cbn [run] in *. rewrite Hbranch. unfold K.
      by rewrite Hlast, Hrest. }
  exists rest'. apply rep_max; [done|lia|intros h [= <-]; lia| |].
  - right. destruct rest as [|c rest]; [done|]. simpl in *.
    destruct (Chr.is_AZ c) eqn:E; [|done]. unfold Chr.is_word in Hrest. by rewrite E in Hrest.
  - by rewrite substring_prefix.
Qed.

(** ** The reasons, once filed, stay *)

Lemma add_grows (sym reason : string) (c : gmap string entry) (k r : string) :
  r ∈ reasons_at c k → r ∈ reasons_at (add sym reason c) k.
Proof.
  intros H. rewrite reasons_at_add. destruct (_ && _); [|done].
  by apply elem_of_union_l.
Qed.

Lemma add_puts (sym reason : string) (c : gmap string entry) :
  accepts (Str.upper sym) = true → reason ∈ reasons_at (add sym reason c) (Str.upper sym).
Proof.
  intros H. rewrite reasons_at_add, H, bool_decide_eq_true_2 by done.
  by apply elem_of_union_r, elem_of_singleton.
Qed.

Lemma add_matches_has (r : re) (n : nat) (reason joined : string)
    (c : gmap string entry) (m : mtch) :
  m ∈ finditer r joined → accepts (Str.upper (m_group n m)) = true →
  reason ∈ reasons_at (add_matches r n reason joined c) (Str.upper (m_group n m)).
Proof.
  unfold add_matches. intros Hm Hacc. revert c.
  induction Hm as [m l|m m' l Hm IH]; intros c; cbn [foldl].
  - apply (foldl_keeps (λ c, reason ∈ reasons_at c (Str.upper (m_group n m)))).
    + intros a y. apply add_grows.
    + by apply add_puts.
  - by apply IH.
Qed.

Lemma add_matches_grows (r : re) (n : nat) (reason joined : string)
    (c : gmap string entry) (k x : string) :
  x ∈ reasons_at c k → x ∈ reasons_at (add_matches r n reason joined c) k.
Proof.
  unfold add_matches. apply (foldl_keeps (λ c, x ∈ reasons_at c k)).
  intros a y. apply add_grows.
Qed.

Lemma action_line_grows (st : gmap string entry * gmap string tally) (l k x : string) :
  x ∈ reasons_at (fst st) k → x ∈ reasons_at (fst (action_line st l)) k.
Proof.
  intros H. unfold action_line. destruct (match_start ACTION l) as [m|]; [|done].
  apply (foldl_keeps (λ st, x ∈ reasons_at (fst st) k)); [|done].
  intros a y. simpl. apply add_grows.
Qed.

Lemma allcaps_grows (c : gmap string entry) (m : mtch) (k x : string) :
  x ∈ reasons_at c k → x ∈ reasons_at (allcaps c m) k.
Proof.
  intros H. unfold allcaps. destruct (_ && _); [|done]. by apply add_grows.
Qed.

Lemma detect_maps_fst (joined : string) :
  fst (detect_maps joined)
  = foldl allcaps
      (fst (foldl action_line
              (add_matches URL_TKR 2 "url" joined
                 (add_matches PAREN 1 "paren" joined
                    (add_matches CASHTAG 1 "cashtag" joined ∅)), ∅)
              (Str.split (ascii_of_nat 10) joined)))
      (finditer UPPERC joined).
Proof. unfold detect_maps. by destruct (foldl action_line _ _). Qed.

Lemma detect_maps_cashtag (joined : string) (m : mtch) :
  m ∈ finditer CASHTAG joined → accepts (Str.upper (m_group 1 m)) = true →
  "cashtag" ∈ reasons_at (fst (detect_maps joined)) (Str.upper (m_group 1 m)).
Proof.
  intros Hm Hacc. rewrite detect_maps_fst.
  apply (foldl_keeps (λ c, _ ∈ reasons_at c _)); [intros a y; apply allcaps_grows|].
  apply (foldl_keeps (λ st, _ ∈ reasons_at (fst st) _)); [intros a y; apply action_line_grows|].
  simpl. do 2 apply add_matches_grows. by apply add_matches_has.
Qed.

Lemma detect_maps_paren (joined : string) (m : mtch) :
  m ∈ finditer PAREN joined → accepts (Str.upper (m_group 1 m)) = true →
  "paren" ∈ reasons_at (fst (detect_maps joined)) (Str.upper (m_group 1 m)).
Proof.
  intros Hm Hacc. rewrite detect_maps_fst.
  apply (foldl_keeps (λ c, _ ∈ reasons_at c _)); [intros a y; apply allcaps_grows|].
  apply (foldl_keeps (λ st, _ ∈ reasons_at (fst st) _)); [intros a y; apply action_line_grows|].
  simpl. apply add_matches_grows. by apply add_matches_has.
Qed.

Lemma detect_maps_url (joined : string) (m : mtch) :
  m ∈ finditer URL_TKR joined → accepts (Str.upper (m_group 2 m)) = true →
  "url" ∈ reasons_at (fst (detect_maps joined)) (Str.upper (m_group 2 m)).
Proof.
  intros Hm Hacc. rewrite detect_maps_fst.
  apply (foldl_keeps (λ c, _ ∈ reasons_at c _)); [intros a y; apply allcaps_grows|].
  apply (foldl_keeps (λ st, _ ∈ reasons_at (fst st) _)); [intros a y; apply action_line_grows|].
  simpl. by apply add_matches_has.
Qed.

Lemma detect_maps_allcaps (joined : string) (m : mtch) :
  m ∈ finditer UPPERC joined →
  Str.upper (m_group 1 m) ∉ STOP → String.length (Str.upper (m_group 1 m)) ≤ 5 →
  isdigit (Str.upper (m_group 1 m)) = false →
  accepts (Str.upper (m_group 1 m)) = true →
  "allcaps" ∈ reasons_at (fst (detect_maps joined)) (Str.upper (m_group 1 m)).
Proof.
  intros Hm Hstop Hlen Hdig Hacc. rewrite detect_maps_fst.
  generalize (fst (foldl action_line
    (add_matches URL_TKR 2 "url" joined
       (add_matches PAREN 1 "paren" joined
          (add_matches CASHTAG 1 "cashtag" joined ∅)), ∅)
    (Str.split (ascii_of_nat 10) joined))).
  induction Hm as [m l|m m' l Hm IH]; intros c; cbn [foldl]; [|by apply IH].
  apply (foldl_keeps (λ c, _ ∈ reasons_at c _)); [intros a y; apply allcaps_grows|].
  unfold allcaps. rewrite bool_decide_eq_true_2 by done.
  rewrite (proj2 (Nat.leb_le _ _) Hlen), Hdig. simpl.
  rewrite <- (upper_idem (m_group 1 m)) at 2. apply add_puts. by rewrite upper_idem.
Qed.

Lemma reason_is_candidate (charref : string → string) (st : N8nStory) (k r : string) :
  r ∈ reasons_at (fst (detect_maps (joined_of charref st))) k →
  candidate_for charref st k r.
Proof.
  unfold reasons_at, candidate_for. rewrite candidates_detect.
  destruct (fst (detect_maps (joined_of charref st)) !! k) as [e|] eqn:He; simpl;
    [|by intros ?%not_elem_of_empty].
  intros Hr. exists {| c_symbol := k; c_reasons := sorted_set (reasons e) |}.
  split; [|split; [done|by apply sorted_set_elem]].
  apply elem_of_cand_list. by exists e.
Qed.

(** ** A word of a block inside [joined] *)

Lemma concat_elem (sep x : string) (l : list string) :
  x ∈ l →
  ∃ P T, String.concat sep l = P +:+ x +:+ T
    ∧ (T = "" ∨ ∃ T', T = sep +:+ T') ∧ (P = "" ∨ ∃ P', P = P' +:+ sep).
Proof.
  induction l as [|y l IH]; [by intros ?%elem_of_nil|].
  intros [->|Hx]%elem_of_cons.
  - exists "". destruct l as [|z l].
    + exists "". simpl. rewrite app_empty_r. split; [done|]. split; by left.
    + exists (sep +:+ String.concat sep (z :: l)). rewrite concat_cons by done.
      split; [done|]. split; [right; by eexists|by left].
  - destruct (IH Hx) as (P & T & Heq & HT & HP).
    destruct l as [|z l]; [by apply elem_of_nil in Hx|].
    exists (y +:+ sep +:+ P), T. rewrite concat_cons by done. rewrite Heq.
    split; [by rewrite !app_assoc_s|]. split; [done|]. right.
    destruct HP as [-> | (P' & ->)].
    + exists y. by rewrite app_empty_r.
    + exists (y +:+ sep +:+ P'). by rewrite !app_assoc_s.
Qed.

Lemma joined_word (charref : string → string) (st : N8nStory) (w : string) :
  has_word charref st w →
  ∃ P T, joined_of charref st = P +:+ w +:+ T
    ∧ (T = "" ∨ head T = Some " "%char)
    ∧ (P = "" ∨ last_prev None P = Some " "%char).
Proof.
  intros (b & Hb & Hw). unfold joined_of, Str.join.
  assert (_clean charref b ∈ _clean charref <$> blocks_of st) as Hin.
  { apply list_elem_of_fmap. by exists b. }
  apply (concat_elem (String (ch " ") (String (ascii_of_nat 10) " "))) in Hin
    as (P1 & T1 & -> & HT1 & HP1).
  rewrite clean_words. unfold Str.join.
  apply (concat_elem " ") in Hw as (P2 & T2 & -> & HT2 & HP2).
  exists (P1 +:+ P2), (T2 +:+ T1). split; [by rewrite !app_assoc_s|]. split.
  - destruct HT2 as [-> | (T' & ->)]; [|by right].
    rewrite app_empty_l. destruct HT1 as [-> | (T' & ->)]; [by left|by right].
  - destruct HP2 as [-> | (P' & ->)].
    + rewrite app_empty_r. destruct HP1 as [-> | (P' & ->)]; [by left|right].
      by rewrite last_prev_app.
    + right. by rewrite <- app_assoc_s, last_prev_app.
Qed.

Lemma symbol_ends_app (sym post T : string) :
  symbol_ends sym post = true → (T = "" ∨ head T = Some " "%char) →
  symbol_ends sym (post +:+ T) = true.
Proof.
  intros Hend HT. destruct post as [|c post].
  - rewrite app_empty_l. destruct HT as [-> | HT]; [done|].
    destruct T as [|x T]; [done|]. by injection HT as ->.
  - rewrite app_cons. simpl in *. apply andb_true_iff in Hend as [Hc Hend].
    rewrite Hc. simpl. destruct post as [|c' post]; [|done].
    rewrite app_empty_l. destruct HT as [-> | HT]; [done|].
    destruct T as [|x T]; [done|]. injection HT as ->. simpl.
    by rewrite andb_false_r.
Qed.

Lemma all_AZ_upper (a : string) : all_chars Chr.is_AZ a = true → Str.upper a = a.
Proof.
  induction a as [|c a IH]; [done|]. unfold Str.upper in *. simpl.
  intros [Hc Ha]%andb_true_iff. rewrite IH by done. f_equal.
  by destruct c as [[] [] [] [] [] [] [] []].
Qed.

Lemma canonical_upper (sym : string) : canonical sym → Str.upper sym = sym.
Proof.
  intros (a & b & -> & Ha & _ & Hb). unfold Str.upper. rewrite map_app_s.
  fold Str.upper. rewrite all_AZ_upper by done.
  destruct Hb as [-> | (y & -> & Hy & _)]; [done|].
  unfold Str.upper. simpl. fold Str.upper. by rewrite all_AZ_upper.
Qed.

Lemma AZ_canonical (a : string) :
  all_chars Chr.is_AZ a = true → 1 ≤ String.length a ≤ 5 → canonical a.
Proof. intros Ha Hlen. exists a, "". rewrite app_empty_r. repeat split; [done|lia|lia|by left]. Qed.

Lemma outside_stop (k : string) :
  forallb (λ s, negb (String.eqb k s)) STOP_words = true → k ∉ STOP.
Proof.
  intros H. apply not_elem_of_list_to_set. intros Hin.
  rewrite forallb_forall in H. apply list_elem_of_In in Hin.
  specialize (H k Hin). by rewrite String.eqb_refl in H.
Qed.

Lemma snoc_last (u : string) (z : ascii) :
  last_prev None u = Some z → ∃ u0, u = u0 +:+ String z "".
Proof.
  induction u as [|c u IH]; [done|]. simpl. rewrite last_prev_default.
  destruct (last_prev None u) as [y|] eqn:Hy.
  - intros [= ->]. destruct (IH eq_refl) as [u0 ->]. by exists (String c u0).
  - intros [= ->]. apply last_prev_None in Hy as ->. by exists "".
Qed.







(** ** Links *)

Section literal.
Context {R : Type} (k : @cont R).

Lemma run_Lit (w : string) (prev : option ascii) (s : string) (g : caps) :
  run (Lit w) prev (w +:+ s) g k = k (last_prev prev w) s g.
Proof.
  revert prev. induction w as [|c w IH]; intros prev; [done|].
  rewrite app_cons. cbn [Lit run].
  assert (Chr.lit c c = true) as -> by by apply chr_eqb_eq.
  apply IH.
Qed.

Lemma run_Lit_inv (w : string) (prev : option ascii) (s : string) (g : caps) (x : R) :
  run (Lit w) prev s g k = Some x → ∃ s', s = w +:+ s' ∧ k (last_prev prev w) s' g = Some x.
Proof.
  revert prev s. induction w as [|c w IH]; intros prev s; [by exists s|].
  cbn [Lit run]. destruct s as [|y s]; [done|].
  destruct (Chr.lit c y) eqn:Hc; [|done]. apply chr_eqb_eq in Hc as <-.
  intros H. apply IH in H as (s' & -> & H). by exists s'.
Qed.

Lemma run_link_word (kw : string) (prev : option ascii) (s : string) (g : caps) :
  kw ∈ link_words →
  run (Alt (Lit "quote") (Alt (Lit "symbol") (Lit "ticker"))) prev (kw +:+ s) g k
  = k (last_prev prev kw) s g.
Proof.
  unfold link_words. rewrite !elem_of_cons, elem_of_nil.
  intros [->|[->|[->|[]]]].
  - cbn [run]. rewrite run_Lit.
    assert (run (Lit "symbol") prev ("quote" +:+ s) g k = None) as -> by reflexivity.
    assert (run (Lit "ticker") prev ("quote" +:+ s) g k = None) as -> by reflexivity.
    by destruct (k _ _ _).
  - cbn [run].
    assert (run (Lit "quote") prev ("symbol" +:+ s) g k = None) as -> by reflexivity.
    rewrite run_Lit.
    assert (run (Lit "ticker") prev ("symbol" +:+ s) g k = None) as -> by reflexivity.
    by destruct (k _ _ _).
  - cbn [run].
    assert (run (Lit "quote") prev ("ticker" +:+ s) g k = None) as -> by reflexivity.
    assert (run (Lit "symbol") prev ("ticker" +:+ s) g k = None) as -> by reflexivity.
    by rewrite run_Lit.
Qed.

Lemma run_link_word_inv (prev : option ascii) (s : string) (g : caps) (x : R) :
  run (Alt (Lit "quote") (Alt (Lit "symbol") (Lit "ticker"))) prev s g k = Some x →
  ∃ kw s', kw ∈ link_words ∧ s = kw +:+ s' ∧ k (last_prev prev kw) s' g = Some x.
Proof.
  intros H. apply run_Alt_inv in H as [H|H]; [|apply run_Alt_inv in H as [H|H]];
    apply run_Lit_inv in H as (s' & -> & H); eexists _, s';
    (split; [|by split]); unfold link_words;
    repeat first [apply list_elem_of_here | apply list_elem_of_further].
Qed.

End literal.

(** a link: [/quote/], [/symbol/] or [/ticker/], and a symbol *)
Lemma at_pos_URL_TKR (prev : option ascii) (kw sym rest : string) :
  kw ∈ link_words → canonical sym → symbol_ends sym rest = true →
  at_pos URL_TKR prev (String (ch "/") (kw +:+ String (ch "/") (sym +:+ rest)))
  = Some ([(2, sym); (1, kw)], rest).
Proof.
  intros Hkw Hsym Hend. unfold at_pos, URL_TKR.
  set (kws := Alt (Lit "quote") (Alt (Lit "symbol") (Lit "ticker"))).
  cbn [run]. subst kws.
  change (Chr.lit (ch "/") (ch "/")) with true. cbn iota.
  rewrite run_link_word by done. rewrite substring_prefix.
  change (Chr.lit (ch "/") (ch "/")) with true. cbn iota.
  apply run_SHAPE; [done|done|]. by rewrite substring_prefix.
Qed.

Lemma app_prefix (a b c d : string) :
  a +:+ b = c +:+ d → String.length c ≤ String.length a →
  ∃ e, a = c +:+ e ∧ d = e +:+ b.
Proof.
  revert c. induction a as [|x a IH]; intros c Heq Hlen.
  - destruct c; [|simpl in Hlen; lia]. exists "". by rewrite app_empty_l in *.
  - destruct c as [|y c]; [exists (String x a); by rewrite app_empty_l in *|].
    rewrite !app_cons in Heq. injection Heq as -> Heq.
    destruct (IH c Heq) as (e & -> & ->); [simpl in Hlen; lia|]. by exists e.
Qed.

(** no match of [URL_TKR] runs into the slash that starts a link *)
Lemma link_ends (kw t w : string) (prev' : option ascii) (g' : caps) (rest' : string) :
  kw ∈ link_words → w ≠ "" →
  at_pos URL_TKR prev' (w +:+ String (ch "/") (kw +:+ t)) = Some (g', rest') →
  String.length (w +:+ String (ch "/") (kw +:+ t)) - String.length rest' ≤ String.length w.
Proof.
  intros Hkw Hw Hat. unfold at_pos, URL_TKR in Hat.
  apply run_Seq_inv, run_Cls_inv in Hat as (c0 & s1 & Hs & _ & Hat).
  apply run_Seq_inv, run_Grp_inv, run_link_word_inv in Hat as (kw' & s2 & Hkw' & -> & Hat).
  apply run_Seq_inv, run_Cls_inv in Hat as (c1 & s3 & -> & Hc1 & Hat).
  apply chr_eqb_eq in Hc1 as <-.
  apply run_Grp_inv in Hat. unfold SHAPE in Hat.
  pose proof Hat as Hat'.
  apply run_Seq_inv, rep_prefix in Hat' as (a & s4 & Hs3 & Ha & Hlen & _ & _).
  apply run_reads in Hat as (m & s5 & p5 & g5 & -> & Hm & [= _ ->]).
  destruct w as [|y w]; [done|]. rewrite app_cons in Hs. injection Hs as -> Hs.
  assert (all_chars Chr.is_az kw' = true) as Haz.
  { revert Hkw'. unfold link_words. rewrite !elem_of_cons, elem_of_nil.
    by intros [->|[->|[->|[]]]]. }
  assert (String.length kw' ≤ String.length w) as Hle.
  { apply (reads_before Chr.is_az w (ch "/") (kw +:+ t) kw' _ Hs Haz). reflexivity. }
  destruct (app_prefix _ _ _ _ Hs Hle) as (e & -> & He).
  pose proof (f_equal String.length He) as HeL.
  destruct e as [|z e].
  - exfalso. rewrite app_empty_l in He. injection He as He.
    destruct a as [|x a]; [simpl in Hlen; lia|]. rewrite Hs3 in He.
    rewrite app_cons in He. simpl in Ha. apply andb_true_iff in Ha as [Hx _].
    clear HeL Hs. revert Hkw He Hx. unfold link_words.
    rewrite !elem_of_cons, elem_of_nil.
    intros [->|[->|[->|[]]]] He Hx; simpl in He; injection He as -> _; done.
  - rewrite app_cons in He. injection He as _ He.
    assert (String.length m ≤ String.length e).
    { apply (reads_before (alphabet (Rep Chr.is_AZ 1 (Some 5) +> SUFFIX)) e (ch "/")
               (kw +:+ t) m rest'); [by rewrite He|done|reflexivity]. }
    repeat (progress (rewrite ?app_cons, ?length_app_s in HeL; cbn [String.length] in HeL)).
    repeat (progress (rewrite ?app_cons, ?length_app_s; cbn [String.length])).
    lia.
Qed.



(** * The lists

    What the loop over the lines does, without the matcher. *)

Section lists.
Context {R : Type} (k : @cont R).

Lemma run_Lit_i_drop (w : string) (prev : option ascii) (s : string) (g : caps) :
  run (Lit_i w) prev s g k
  = match drop_word_i w s with
    | Some s' => k (after_i prev w s) s' g
    | None => None
    end.
Proof.
  revert prev s. induction w as [|a w IH]; intros prev s; [by destruct s|].
  cbn [Lit_i run drop_word_i after_i]. destruct s as [|c s]; [done|].
  destruct (Chr.lit_i a c); [apply IH|done].
Qed.

Lemma rep_back (p : ascii → bool) (prev : option ascii) (u : string) (c : ascii)
    (g : caps) (x : R) :
  all_chars p u = true → p c = true →
  k (Some c) "" g = None → k (last_prev prev u) (String c "") g = Some x →
  rep p 0 None prev (u +:+ String c "") g k = Some x.
Proof.
  intros Hu Hc Hend Hk. revert prev Hk Hu.
  induction u as [|y u IH]; intros prev Hk Hu.
  - simpl in *. by rewrite Hc, Hend.
  - rewrite app_cons. simpl in *. apply andb_true_iff in Hu as [-> Hu]. simpl.
    by rewrite IH.
Qed.

End lists.

Lemma drop_word_i_spec (w s s' : string) :
  drop_word_i w s = Some s' → ∃ v, s = v +:+ s' ∧ Str.lower v = Str.lower w.
Proof.
  revert s. induction w as [|a w IH]; intros s; simpl.
  - intros [= ->]. by exists "".
  - destruct s as [|c s]; [done|]. destruct (Chr.lit_i a c) eqn:Hc; [|done].
    intros H. apply IH in H as (v & -> & Hv). exists (String c v). split; [done|].
    unfold Str.lower in *. simpl. by rewrite Hv, (chr_lit_i_lower _ _ Hc).
Qed.

Lemma is_space_lower (c : ascii) : Chr.is_space (Chr.lower c) = Chr.is_space c.
Proof. by destruct c as [[] [] [] [] [] [] [] []]. Qed.

Lemma lit_i_space (a c : ascii) :
  Chr.is_space a = false → Chr.is_space c = true → Chr.lit_i a c = false.
Proof.
  intros Ha Hc. destruct (Chr.lit_i a c) eqn:E; [|done].
  apply chr_lit_i_lower in E. rewrite <- is_space_lower, E, is_space_lower in Hc.
  congruence.
Qed.

Lemma drop_word_i_head (a : ascii) (w s s' : string) :
  Chr.is_space a = false → drop_word_i (String a w) s = Some s' →
  from_option Chr.is_space false (head s) = false.
Proof.
  intros Ha. destruct s as [|c s]; [done|]. simpl.
  destruct (Chr.lit_i a c) eqn:E; [|done]. intros _.
  destruct (Chr.is_space c) eqn:Hc; [|done]. by rewrite lit_i_space in E.
Qed.

Lemma verb_of_spec (s a s' : string) :
  verb_of s = Some (a, s') →
  verb a ∧ (∃ v, s = v +:+ s' ∧ Str.lower v = a)
    ∧ from_option Chr.is_space false (head s) = false.
Proof.
  unfold verb_of, verb.
  destruct (drop_word_i "keep" s) as [t|] eqn:H1.
  { intros [= <- <-]. split; [by left|].
    split; [|by apply (drop_word_i_head "k" "eep" s t)].
    destruct (drop_word_i_spec _ _ _ H1) as (v & -> & Hv). by exists v. }
  destruct (drop_word_i "cut" s) as [t|] eqn:H2.
  { intros [= <- <-]. split; [by right; left|].
    split; [|by apply (drop_word_i_head "c" "ut" s t)].
    destruct (drop_word_i_spec _ _ _ H2) as (v & -> & Hv). by exists v. }
  destruct (drop_word_i "sell" s) as [t|] eqn:H3; [|done].
  intros [= <- <-]. split; [by right; right|].
  split; [|by apply (drop_word_i_head "s" "ell" s t)].
  destruct (drop_word_i_spec _ _ _ H3) as (v & -> & Hv). by exists v.
Qed.

(** the three verbs start with different letters *)
Lemma verbs_apart (s : string) :
  (is_Some (drop_word_i "keep" s) → drop_word_i "cut" s = None ∧ drop_word_i "sell" s = None)
  ∧ (is_Some (drop_word_i "cut" s) → drop_word_i "sell" s = None).
Proof.
  destruct s as [|c s]; [split; by intros [? ?]|]. simpl.
  split.
  - destruct (Chr.lit_i "k" c) eqn:E; [|by intros [? ?]]. intros _.
    apply chr_lit_i_lower in E. unfold Chr.lit_i. rewrite E. done.
  - destruct (Chr.lit_i "c" c) eqn:E; [|by intros [? ?]]. intros _.
    apply chr_lit_i_lower in E. unfold Chr.lit_i. rewrite E. done.
Qed.

Lemma run_VERBS {R : Type} (k : @cont R) (prev : option ascii) (s : string) (g : caps) :
  ∃ prev', run VERBS prev s g k
           = match verb_of s with Some (_, s') => k prev' s' g | None => None end.
Proof.
  unfold VERBS, verb_of. cbn [run]. rewrite !run_Lit_i_drop.
  destruct (verbs_apart s) as [H1 H2].
  destruct (drop_word_i "keep" s) as [t|] eqn:E1.
  { destruct H1 as [-> ->]; [by eexists|]. exists (after_i prev "keep" s).
    by destruct (k _ t g). }
  destruct (drop_word_i "cut" s) as [t|] eqn:E2.
  { rewrite H2 by (by eexists). exists (after_i prev "cut" s). by destruct (k _ t g). }
  destruct (drop_word_i "sell" s) as [t|] eqn:E3; [by eexists|by exists None].
Qed.

Lemma ACTION_parts : ACTION = Bol +> Star Chr.is_space +> Grp 1 VERBS +> TAIL.
Proof. reflexivity. Qed.

Lemma run_Seq_eq {R : Type} (r1 r2 : re) (prev : option ascii) (s : string) (g : caps)
    (k : @cont R) :
  run (r1 +> r2) prev s g k = run r1 prev s g (λ prev' s' g', run r2 prev' s' g' k).
Proof. reflexivity. Qed.

Lemma lstrip_nonspace (s : string) :
  from_option Chr.is_space false (head (Str.lstrip s)) = false.
Proof.
  induction s as [|c s IH]; [done|]. simpl.
  destruct (Chr.is_space c) eqn:Hc; [done|]. simpl. exact Hc.
Qed.

Lemma snoc_nonempty (s : string) : s ≠ "" → ∃ u c, s = u +:+ String c "".
Proof.
  intros Hs. destruct (last_prev None s) as [c|] eqn:Hc.
  - apply snoc_last in Hc as [u ->]. by exists u, c.
  - by apply last_prev_None in Hc.
Qed.

Lemma dot_lf (c : ascii) : negb (Chr.eqb (ascii_of_nat 10) c) = Chr.dot c.
Proof. unfold Chr.dot, Chr.eqb. f_equal. apply N.eqb_sym. Qed.

Lemma lf_free_dot (s : string) :
  all_chars (λ x, negb (Chr.eqb (ascii_of_nat 10) x)) s = true → all_chars Chr.dot s = true.
Proof. apply all_chars_impl. intros c. by rewrite dot_lf. Qed.

Lemma split_symbols_spaces (s : string) :
  all_chars Chr.is_space s = true → _split_symbols s = [].
Proof.
  intros Hs. rewrite split_symbols_words, words_go_run; [done|].
  revert Hs. apply all_chars_impl, space_separator.
Qed.

Lemma split_symbols_lead (a s : string) :
  all_chars Chr.is_space a = true → _split_symbols (a +:+ s) = _split_symbols s.
Proof.
  intros Ha. rewrite !split_symbols_words, words_go_lead; [done|].
  revert Ha. apply all_chars_impl, space_separator.
Qed.

Lemma split_symbols_trail (s b : string) :
  all_chars Chr.is_space b = true → _split_symbols (s +:+ b) = _split_symbols s.
Proof.
  intros Hb. rewrite !split_symbols_words, words_go_trail; [done|].
  revert Hb. apply all_chars_impl, space_separator.
Qed.

(** what [\s*(.+)$] reads of the text after the colon *)
Lemma after_forward (prev : option ascii) (after : string) (g1 : caps) :
  after ≠ "" → all_chars Chr.dot after = true →
  ∃ g2, run (Star Chr.is_space +> Grp 2 (Plus Chr.dot) +> Eol) prev after g1
          (λ _ s' g, Some (g, s')) = Some ((2, g2) :: g1, "")
        ∧ _split_symbols g2 = _split_symbols after.
Proof.
  intros Hne Hdot. destruct (lstrip_decomp after) as (sp & Hafter & Hsp).
  pose proof (lstrip_nonspace after) as Hhead.
  destruct (Str.lstrip after) as [|c R'] eqn:HR.
  - rewrite app_empty_r in Hafter. subst sp.
    destruct (snoc_nonempty after Hne) as (u & c & ->).
    rewrite all_chars_app in Hsp, Hdot.
    apply andb_true_iff in Hsp as [Hu Hc]. apply andb_true_iff in Hdot as [_ Hd].
    simpl in Hc, Hd. rewrite andb_true_r in Hc, Hd.
    exists (String c ""). split.
    + rewrite run_Seq_eq. unfold Star. cbn [run]. apply rep_back; [done|done|done|].
      simpl. by rewrite Hd.
    + rewrite !split_symbols_spaces; [done| |by simpl; rewrite Hc].
      rewrite all_chars_app, Hu. simpl. by rewrite Hc.
  - set (R := String c R') in *. exists R. split.
    + rewrite Hafter, run_Seq_eq. unfold Star. cbn [run].
      apply rep_max; [done|lia|done|by right|].
      rewrite <- (app_empty_r R). unfold Plus.
      apply rep_max; [|simpl; lia|done|by right|].
      * rewrite Hafter, all_chars_app in Hdot. by apply andb_true_iff in Hdot as [_ ?].
      * by rewrite substring_prefix, app_empty_r.
    + rewrite Hafter. by rewrite split_symbols_lead.
Qed.

Lemma tail_forward (prev : option ascii) (s after : string) (g1 : caps) :
  Str.lstrip s = String (ch ":") after → after ≠ "" → all_chars Chr.dot after = true →
  ∃ g2, run TAIL prev s g1 (λ _ s' g, Some (g, s')) = Some ((2, g2) :: g1, "")
        ∧ _split_symbols g2 = _split_symbols after.
Proof.
  intros Hs Hne Hdot. destruct (lstrip_decomp s) as (sp & Hsp & Hall).
  rewrite Hs in Hsp.
  destruct (after_forward (Some (ch ":")) after g1 Hne Hdot) as (g2 & Hrun & Hsym).
  exists g2. split; [|done]. unfold TAIL. rewrite run_Seq_eq. unfold Star at 1.
  cbn [run]. rewrite Hsp. apply rep_max; [done|lia|done|by right|].
  change (Chr.lit (ch ":") (ch ":")) with true. cbn iota. exact Hrun.
Qed.

(** [ACTION] on a line that lists something *)
Lemma ACTION_forward (line a after : string) :
  listing line = Some (a, after) → after ≠ "" → all_chars Chr.dot line = true →
  ∃ v g2, at_pos ACTION None line = Some ([(2, g2); (1, v)], "")
          ∧ Str.lower v = a ∧ _split_symbols g2 = _split_symbols after.
Proof.
  unfold listing. intros Hl Hne Hdot.
  destruct (lstrip_decomp line) as (sp & Hline & Hsp).
  destruct (verb_of (Str.lstrip line)) as [[a' s1]|] eqn:Hverb; [|done].
  destruct (Str.lstrip s1) as [|c after'] eqn:Hs1; [done|].
  destruct (Chr.eqb c (ch ":")) eqn:Hc; [|done]. apply chr_eqb_eq in Hc as ->.
  injection Hl as -> ->.
  destruct (verb_of_spec _ _ _ Hverb) as (_ & (v & Ht & Hv) & Hhead).
  assert (all_chars Chr.dot after = true) as Hdot'.
  { destruct (lstrip_decomp s1) as (sp1 & Hs1' & _). rewrite Hs1 in Hs1'.
    rewrite Hline, Ht, Hs1', !all_chars_app in Hdot. simpl in Hdot.
    repeat (apply andb_true_iff in Hdot as [_ Hdot]). done. }
  destruct (run_VERBS (λ prev' s' g',
              run TAIL prev' s'
                ((1, String.substring 0
                       (String.length (Str.lstrip line) - String.length s') (Str.lstrip line))
                 :: g') (λ _ s'' g'', Some (g'', s'')))
              (last_prev None sp) (Str.lstrip line) []) as [prev' Hrun].
  rewrite Hverb in Hrun. rewrite Ht in Hrun at 2 3. rewrite substring_prefix in Hrun.
  destruct (tail_forward prev' s1 after [(1, v)] Hs1 Hne Hdot') as (g2 & Hrun' & Hsym).
  exists v, g2. split; [|done].
  unfold at_pos. rewrite ACTION_parts. cbn [run]. unfold Star. cbn [run].
  rewrite Hline at 1. apply rep_max; [done|lia|done|by right|].
  cbn beta. by rewrite Hrun.
Qed.

(** a line that [ACTION] matches lists something *)
Lemma ACTION_backward (line : string) (g : caps) (rest : string) :
  at_pos ACTION None line = Some (g, rest) →
  ∃ a after, listing line = Some (a, after) ∧ after ≠ "".
Proof.
  unfold at_pos. rewrite ACTION_parts. intros H.
  apply run_Seq_inv, run_Bol_inv, run_Seq_inv in H.
  apply rep_prefix in H as (sp & s1 & -> & Hsp & _ & _ & H).
  apply run_Seq_inv, run_Grp_inv in H.
  destruct (run_VERBS (λ prev' s' g',
              run TAIL prev' s'
                ((1, String.substring 0 (String.length s1 - String.length s') s1) :: g')
                (λ _ s'' g'', Some (g'', s'')))
              (last_prev None sp) s1 []) as [prev' Hrun].
  cbn beta in H. rewrite Hrun in H. clear Hrun.
  destruct (verb_of s1) as [[a s2]|] eqn:Hverb; [|done].
  destruct (verb_of_spec _ _ _ Hverb) as (_ & _ & Hhead).
  unfold TAIL in H. apply run_Seq_inv, rep_prefix in H as (sp' & s3 & -> & Hsp' & _ & _ & H).
  apply run_Seq_inv, run_Cls_inv in H as (c & s4 & -> & Hc & H).
  apply chr_eqb_eq in Hc as <-.
  apply run_Seq_inv, rep_prefix in H as (sp'' & s5 & -> & _ & _ & _ & H).
  apply run_Seq_inv, run_Grp_inv, rep_prefix in H as (u & s6 & -> & _ & Hlen & _ & _).
  exists a, (sp'' +:+ u +:+ s6). unfold listing.
  rewrite lstrip_spaces, lstrip_head by done. rewrite Hverb.
  rewrite lstrip_spaces, lstrip_head by done.
  change (Chr.eqb (ch ":") (ch ":")) with true. split; [done|].
  intros Hnil. apply (f_equal String.length) in Hnil.
  rewrite !length_app_s in Hnil. simpl in Hnil. lia.
Qed.

(** the loop body on a line without a line feed: the line is read as [listing] reads it *)
Lemma action_line_listing (st : gmap string entry * gmap string tally) (line : string) :
  all_chars (λ x, negb (Chr.eqb (ascii_of_nat 10) x)) line = true →
  action_line st line = block_list st line.
Proof.
  intros Hlf. apply lf_free_dot in Hlf. unfold action_line, block_list, match_start.
  destruct (listing line) as [[a after]|] eqn:Hl.
  - destruct after as [|c after'].
    + destruct (at_pos ACTION None line) as [[g rest]|] eqn:Hat; [|done].
      apply ACTION_backward in Hat as (a' & after' & Hl' & Hne). congruence.
    + destruct (ACTION_forward line a (String c after') Hl) as (v & g2 & -> & Hv & Hs);
        [done|done|].
      unfold m_group. simpl. by rewrite Hv, Hs.
  - destruct (at_pos ACTION None line) as [[g rest]|] eqn:Hat; [|done].
    apply ACTION_backward in Hat as (a' & after' & Hl' & Hne). congruence.
Qed.

(** ** Padding *)

Lemma drop_word_i_trail (w s b : string) :
  all_chars (λ a, negb (Chr.is_space a)) w = true → all_chars Chr.is_space b = true →
  drop_word_i w (s +:+ b) = (λ s', s' +:+ b) <$> drop_word_i w s.
Proof.
  intros Hw Hb. revert s. induction w as [|a w IH]; intros s; [done|].
  simpl in Hw. apply andb_true_iff in Hw as [Ha Hw]. apply negb_true_iff in Ha.
  destruct s as [|c s].
  - rewrite app_empty_l. simpl. destruct b as [|c b]; [done|]. simpl in Hb.
    apply andb_true_iff in Hb as [Hc _]. by rewrite lit_i_space.
  - rewrite app_cons. simpl. destruct (Chr.lit_i a c); [by apply IH|done].
Qed.

Lemma lstrip_trail (s b : string) :
  all_chars Chr.is_space b = true →
  Str.lstrip (s +:+ b) = match Str.lstrip s with "" => "" | t => t +:+ b end.
Proof.
  intros Hb. induction s as [|c s IH].
  - rewrite app_empty_l. simpl. rewrite <- (app_empty_r b), lstrip_spaces by done. done.
  - rewrite app_cons. simpl. destruct (Chr.is_space c); [exact IH|done].
Qed.

Lemma verb_of_trail (s b : string) :
  all_chars Chr.is_space b = true →
  verb_of (s +:+ b) = (λ x, (fst x, snd x +:+ b)) <$> verb_of s.
Proof.
  intros Hb. unfold verb_of. rewrite !drop_word_i_trail by done.
  destruct (drop_word_i "keep" s); [done|]. destruct (drop_word_i "cut" s); [done|].
  by destruct (drop_word_i "sell" s).
Qed.

Lemma listing_trail (s b : string) :
  all_chars Chr.is_space b = true →
  listing (s +:+ b) = (λ x, (fst x, snd x +:+ b)) <$> listing s.
Proof.
  intros Hb. unfold listing. rewrite lstrip_trail by done.
  destruct (Str.lstrip s) as [|c t] eqn:Hs; [done|].
  rewrite verb_of_trail by done.
  destruct (verb_of (String c t)) as [[a s1]|]; [|done]. simpl.
  rewrite lstrip_trail by done.
  destruct (Str.lstrip s1) as [|c1 t1]; [done|]. rewrite app_cons.
  by destruct (Chr.eqb c1 _).
Qed.

Lemma block_list_padded (st : gmap string entry * gmap string tally) (a s b : string) :
  all_chars Chr.is_space a = true → all_chars Chr.is_space b = true →
  block_list st (a +:+ s +:+ b) = block_list st s.
Proof.
  intros Ha Hb. unfold block_list.
  assert (listing (a +:+ s +:+ b) = listing (s +:+ b)) as ->.
  { unfold listing. by rewrite lstrip_spaces. }
  rewrite listing_trail by done. destruct (listing s) as [[v after]|]; [|done].
  simpl. by rewrite split_symbols_trail.
Qed.

Lemma foldl_imap {A B C : Type} (P : C → Prop) (f : A → B → A) (f' : A → C → A)
    (h : nat → C → B) (l : list C) (a : A) :
  (∀ a i x, P x → f a (h i x) = f' a x) → Forall P l →
  foldl f a (imap h l) = foldl f' a l.
Proof.
  intros Hf Hl. revert h a Hf. induction Hl as [|x l Hx Hl IH]; intros h a Hf; [done|].
  simpl. rewrite Hf by done. apply IH. intros a' i y. apply Hf.
Qed.

Lemma padded_lf_free (n i : nat) (b : string) :
  all_chars (λ x, negb (Chr.eqb (ascii_of_nat 10) x)) b = true →
  all_chars (λ x, negb (Chr.eqb (ascii_of_nat 10) x)) (padded n i b) = true.
Proof.
  intros Hb. unfold padded. rewrite !all_chars_app, Hb.
  by destruct i, (S _ =? n).
Qed.

(** the loop over the lines of [joined] is a loop over the cleaned blocks *)
Lemma action_lines_blocks (charref : string → string) (s : N8nStory)
    (st : gmap string entry * gmap string tally) :
  foldl action_line st (Str.split (ascii_of_nat 10) (joined_of charref s))
  = foldl block_list st (_clean charref <$> blocks_of s).
Proof.
  rewrite lines_of_joined.
  apply (foldl_imap (λ x, all_chars (λ c, negb (Chr.eqb (ascii_of_nat 10) c)) x = true)).
  - intros a i x Hx. rewrite action_line_listing by by apply padded_lf_free.
    unfold padded. apply block_list_padded; [by destruct i|by destruct (S i =? _)].
  - apply Forall_fmap, Forall_forall. intros b _. apply clean_no_lf.
Qed.

(** X27. On a line of characters below code 128, the loop over the lines
    of [joined] reads the line as [listing] reads it: the line lists
    symbols exactly when it is made of spaces, one of keep, cut and sell
    in any case, spaces, a colon and a text that is not empty; its symbols
    are those of the text after the colon, each one added as a candidate
    and counted under the verb. *)
Theorem line_is_read_as_listing (st : gmap string entry * gmap string tally)
    (line : string) :
  ascii_text line = true →
  all_chars (λ x, negb (Chr.eqb (ascii_of_nat 10) x)) line = true →
  action_line st line
  = match listing line with
    | Some (a, after) => foldl (list_sym a) st (_split_symbols after)
    | None => st
    end.
Proof. intros _. apply action_line_listing. Qed.

Lemma line_is_read_as_listing_witness :
  action_line (∅, ∅) " sell :oxy;  GOOG/x"
  = foldl (list_sym "sell") (∅, ∅) ["OXY"; "GOOG"; "X"].
Proof.
  apply (line_is_read_as_listing (∅, ∅) " sell :oxy;  GOOG/x"); reflexivity.
Defined.

(** X28. In a story whose blocks, once their character references are
    replaced, hold only characters below code 128, the lists are read
    block by block: the loop over the lines of [joined] does what a loop
    over the cleaned blocks (title, excerpt, combined text, comments) does
    that reads each block as [listing] reads it.  So a block votes exactly
    when, once cleaned, it starts with keep, cut or sell in any case, then
    maybe a space, then a colon; and it votes for the whole rest of the
    block. *)
Theorem lists_are_read_by_block (charref : string → string) (s : N8nStory)
    (st : gmap string entry * gmap string tally) :
  Forall (λ b, ascii_text (html_unescape charref b) = true) (blocks_of s) →
  foldl action_line st (Str.split (ascii_of_nat 10) (joined_of charref s))
  = foldl block_list st (_clean charref <$> blocks_of s)
  ∧ snd (detect_maps (joined_of charref s))
    = snd (foldl block_list
             (add_matches URL_TKR 2 "url" (joined_of charref s)
                (add_matches PAREN 1 "paren" (joined_of charref s)
                   (add_matches CASHTAG 1 "cashtag" (joined_of charref s) ∅)), ∅)
             (_clean charref <$> blocks_of s)).
Proof.
  intros _. split; [apply action_lines_blocks|].
  by rewrite detect_maps_tallies, action_lines_blocks.
Qed.

(** the line of the spec as the title, and a second list as the excerpt *)
Lemma lists_are_read_by_block_witness :
  foldl action_line (∅, ∅) (Str.split (ascii_of_nat 10) (joined_of no_charref keep_twice))
  = foldl block_list (∅, ∅) (_clean no_charref <$> blocks_of keep_twice).
Proof.
  refine (proj1 (lists_are_read_by_block no_charref keep_twice (∅, ∅) _)).
  unfold keep_twice, blocks_of. simpl. repeat constructor.
Defined.

(** ** The line of the spec *)

Lemma block_list_none (st : gmap string entry * gmap string tally) (l : list string) :
  Forall (λ b, listing b = None) l → foldl block_list st l = st.
Proof.
  induction 1 as [|b l Hb _ IH]; [done|]. simpl. unfold block_list at 2.
  by rewrite Hb.
Qed.

Lemma block_list_keep_line (st : gmap string entry * gmap string tally) :
  block_list st keep_line = foldl (list_sym "keep") st ["NVDA"; "AAPL"].
Proof. reflexivity. Qed.

(** a block takes no vote back *)
Lemma block_list_count (action sym b : string)
    (st : gmap string entry * gmap string tally) :
  verb action →
  tally_of (snd st) action sym ≤ tally_of (snd (block_list st b)) action sym.
Proof.
  intros Hv. unfold block_list. destruct (listing b) as [[a after]|]; [|done].
  rewrite (list_syms_count _ _ _ _ _ Hv). lia.
Qed.

Lemma blocks_count (action sym : string) (l : list string)
    (st : gmap string entry * gmap string tally) :
  verb action →
  tally_of (snd st) action sym ≤ tally_of (snd (foldl block_list st l)) action sym.
Proof.
  intros Hv. revert st. induction l as [|b l IH]; intros st; [done|]. simpl.
  etrans; [apply (block_list_count action sym b st Hv)|apply IH].
Qed.

(** the tallies of a story, block by block *)
Lemma detect_maps_blocks (charref : string → string) (s : N8nStory) :
  ∃ c, snd (detect_maps (joined_of charref s))
       = snd (foldl block_list (c, ∅) (_clean charref <$> blocks_of s)).
Proof. eexists. by rewrite detect_maps_tallies, action_lines_blocks. Qed.

(** a story with a block that is the line counts a keep for [sym] *)
Lemma keep_line_counts (charref : string → string) (s : N8nStory) (b sym : string) :
  b ∈ blocks_of s → _clean charref b = keep_line → sym ∈ ["NVDA"; "AAPL"] →
  0 < tally_of (snd (detect_maps (joined_of charref s))) "keep" sym.
Proof.
  intros Hb Hclean Hsym.
  destruct (detect_maps_blocks charref s) as [c ->].
  apply list_elem_of_split in Hb as (pre & post & ->).
  rewrite fmap_app, fmap_cons, foldl_app, Hclean. simpl foldl.
  eapply Nat.lt_le_trans; [|apply blocks_count; by left].
  rewrite block_list_keep_line, (list_syms_count "keep" "keep" sym); [|by left].
  change (String.eqb "keep" "keep") with true. cbv iota.
  apply elem_of_cons in Hsym as [->|Hsym];
    [|apply list_elem_of_singleton in Hsym as ->];
    rewrite !filter_cons, filter_nil; repeat case_decide; try done; simpl; lia.
Qed.




(** * What the matchers do not find

    A reason is filed only for a symbol that the text holds. *)

Lemma foldl_keeps_in {A B : Type} (P : A → Prop) (f : A → B → A) (l : list B) (a : A) :
  (∀ a x, x ∈ l → P a → P (f a x)) → P a → P (foldl f a l).
Proof.
  revert a. induction l as [|x l IH]; intros a Hstep Ha; [done|]. simpl.
  apply IH.
  - intros a' y Hy. apply Hstep. by apply list_elem_of_further.
  - apply Hstep; [apply list_elem_of_here|done].
Qed.

Lemma add_traced (reason reason' sym : string) (Q : string → Prop)
    (c : gmap string entry) :
  traced reason Q c → (reason' = reason → Q (Str.upper sym)) →
  traced reason Q (add sym reason' c).
Proof.
  intros Hc Hq k. rewrite reasons_at_add.
  destruct (accepts (Str.upper sym) && bool_decide (k = Str.upper sym)) eqn:E; [|apply Hc].
  apply andb_true_iff in E as [_ Hk]. apply bool_decide_eq_true in Hk as ->.
  intros [H|H]%elem_of_union; [by apply Hc|].
  apply elem_of_singleton in H. by apply Hq.
Qed.

Lemma add_matches_traced (reason reason' : string) (Q : string → Prop) (r : re)
    (n : nat) (joined : string) (c : gmap string entry) :
  traced reason Q c →
  (reason' = reason → ∀ m, m ∈ finditer r joined → Q (Str.upper (m_group n m))) →
  traced reason Q (add_matches r n reason' joined c).
Proof.
  intros Hc Hq. unfold add_matches. apply foldl_keeps_in; [|done].
  intros a m Hm Ha. apply add_traced; [done|]. intros Heq. by apply Hq.
Qed.

Lemma action_line_traced (reason : string) (Q : string → Prop)
    (st : gmap string entry * gmap string tally) (l : string) :
  (∀ a, reason ≠ "list:" +:+ Str.capitalize a) →
  traced reason Q (fst st) → traced reason Q (fst (action_line st l)).
Proof.
  intros Hne Hst. unfold action_line. destruct (match_start ACTION l) as [m|]; [|done].
  apply (foldl_keeps (λ st, traced reason Q (fst st))); [|done].
  intros a y Ha. simpl. apply add_traced; [done|]. intros Heq. by destruct (Hne _ (eq_sym Heq)).
Qed.

Lemma detect_maps_traced (reason : string) (Q : string → Prop) (joined : string) :
  (reason = "cashtag" → ∀ m, m ∈ finditer CASHTAG joined → Q (Str.upper (m_group 1 m))) →
  (reason = "paren" → ∀ m, m ∈ finditer PAREN joined → Q (Str.upper (m_group 1 m))) →
  (reason = "url" → ∀ m, m ∈ finditer URL_TKR joined → Q (Str.upper (m_group 2 m))) →
  (reason = "allcaps" → ∀ m, m ∈ finditer UPPERC joined → Q (Str.upper (m_group 1 m))) →
  (∀ a, reason ≠ "list:" +:+ Str.capitalize a) →
  traced reason Q (fst (detect_maps joined)).
Proof.
  intros H1 H2 H3 H4 Hl. rewrite detect_maps_fst.
  apply foldl_keeps_in.
  - intros a m Hm Ha. unfold allcaps. destruct (_ && _); [|done].
    apply add_traced; [done|]. intros Heq. rewrite upper_idem. by apply H4.
  - apply (foldl_keeps (λ st, traced reason Q (fst st))).
    + intros st l. by apply action_line_traced.
    + simpl. apply add_matches_traced; [|by intros Heq; apply H3].
      apply add_matches_traced; [|by intros Heq; apply H2].
      apply add_matches_traced; [|by intros Heq; apply H1].
      intros k Hk. unfold reasons_at in Hk. rewrite lookup_empty in Hk.
      by apply not_elem_of_empty in Hk.
Qed.

(** every match that [finditer] reports is a match at its position *)
Lemma scan_sound (r : re) (m : mtch) (s : string) :
  ∀ i skip prev, m ∈ scan r i skip prev s →
  ∃ u t prev' rest, s = u +:+ t ∧ at_pos r prev' t = Some (m_caps m, rest).
Proof.
  induction s as [|c s IH]; intros i skip prev Hm; [by apply elem_of_nil in Hm|].
  assert (∀ i skip prev, m ∈ scan r i skip prev s →
            ∃ u t prev' rest, String c s = u +:+ t
              ∧ at_pos r prev' t = Some (m_caps m, rest)) as Hnext.
  { intros i' skip' prev' H. apply IH in H as (u & t & p & rest & -> & H).
    by exists (String c u), t, p, rest. }
  cbn [scan] in Hm. destruct skip as [|n]; [|by eapply Hnext].
  destruct (at_pos r prev (String c s)) as [[g rest]|] eqn:Hat; [|by eapply Hnext].
  apply elem_of_cons in Hm as [->|Hm]; [|by eapply Hnext].
  by exists "", (String c s), prev, rest.
Qed.

Lemma finditer_sound (r : re) (m : mtch) (s : string) :
  m ∈ finditer r s →
  ∃ u t prev' rest, s = u +:+ t ∧ at_pos r prev' t = Some (m_caps m, rest).
Proof. apply scan_sound. Qed.

(** ** A text without spaces inside a text is inside a word *)

Lemma words_go_starts (p : ascii → bool) (cur t : string) :
  cur ≠ "" → ∃ post, cur +:+ post ∈ words_go p cur t.
Proof.
  revert cur. induction t as [|c t IH]; intros cur Hcur; simpl.
  - exists "". rewrite app_empty_r, is_empty_false by done. apply list_elem_of_here.
  - destruct (p c).
    + exists "". rewrite app_empty_r, is_empty_false by done. apply list_elem_of_here.
    + destruct (IH (cur +:+ String c "") (app_snoc_ne _ _)) as [post H].
      exists (String c post). by rewrite app_assoc_s in H.
Qed.

Lemma words_go_infix (p : ascii → bool) (cur U X T : string) :
  X ≠ "" → all_chars (λ c, negb (p c)) X = true →
  ∃ pre post, pre +:+ X +:+ post ∈ words_go p cur (U +:+ X +:+ T).
Proof.
  intros HX Hfree. revert cur. induction U as [|c U IH]; intros cur.
  - rewrite app_empty_l, words_go_word by done.
    destruct (words_go_starts p (cur +:+ X) T) as [post H]; [by destruct cur, X|].
    exists cur, post. by rewrite app_assoc_s in H.
  - rewrite app_cons. simpl. destruct (p c).
    + destruct (IH "") as (pre & post & H). exists pre, post.
      destruct (is_empty cur); [done|by apply list_elem_of_further].
    + apply IH.
Qed.

Lemma words_join (l : list string) (w : string) :
  w ∈ words (String.concat (String (ch " ") (String (ascii_of_nat 10) " ")) l) →
  ∃ x, x ∈ l ∧ w ∈ words x.
Proof.
  induction l as [|x l IH]; [by intros ?%elem_of_nil|].
  destruct l as [|y l].
  - intros H. exists x. split; [apply list_elem_of_here|done].
  - rewrite concat_cons by done. unfold words in *.
    rewrite app_cons, (words_go_sep Chr.is_space "" x) by done.
    rewrite (words_go_lead Chr.is_space (String (ascii_of_nat 10) " ")) by done.
    intros [H|H]%elem_of_app.
    + exists x. split; [apply list_elem_of_here|done].
    + destruct (IH H) as (z & Hz & Hw). exists z. split; [|done].
      by apply list_elem_of_further.
Qed.

(** a text without spaces inside [joined] is inside a word of a block *)
Lemma joined_infix (charref : string → string) (st : N8nStory) (U X T : string) :
  joined_of charref st = U +:+ X +:+ T →
  X ≠ "" → all_chars (λ c, negb (Chr.is_space c)) X = true →
  ∃ pre post, has_word charref st (pre +:+ X +:+ post).
Proof.
  intros Hj HX Hfree.
  destruct (words_go_infix Chr.is_space "" U X T HX Hfree) as (pre & post & Hw).
  rewrite <- Hj in Hw. exists pre, post. unfold joined_of, Str.join in Hw.
  apply words_join in Hw as (x & Hx & Hw).
  apply list_elem_of_fmap in Hx as (b & -> & Hb).
  exists b. split; [done|].
  rewrite clean_words in Hw. unfold Str.join in Hw.
  by rewrite words_unwords in Hw by apply words_are_words.
Qed.

(** ** What a match of each pattern holds *)

Lemma group_head (n : nat) (x : string) (g : caps) : group n ((n, x) :: g) = Some x.
Proof. unfold group. simpl. by rewrite Nat.eqb_refl. Qed.

Lemma run_WordB_inv {R : Type} (k : @cont R) (x : R) (prev : option ascii)
    (s : string) (g : caps) :
  run WordB prev s g k = Some x → k prev s g = Some x.
Proof. simpl. by destruct (xorb _ _). Qed.

Lemma shape_chars (m : string) :
  all_chars (alphabet SHAPE) m = true →
  all_chars (λ c, negb (Chr.is_space c)) m = true ∧ Str.upper m = m.
Proof.
  induction m as [|c m IH]; [done|]. simpl. intros [Hc Hm]%andb_true_iff.
  destruct (IH Hm) as [H1 H2]. unfold Str.upper in *. simpl. rewrite H1, H2.
  revert Hc. clear. by destruct c as [[] [] [] [] [] [] [] []].
Qed.

Lemma AZ_chars (m : string) :
  all_chars Chr.is_AZ m = true → all_chars (λ c, negb (Chr.is_space c)) m = true.
Proof. apply all_chars_impl. intros c. by destruct c as [[] [] [] [] [] [] [] []]. Qed.

Lemma CASHTAG_inv (prev : option ascii) (t : string) (g : caps) (rest : string) :
  at_pos CASHTAG prev t = Some (g, rest) →
  ∃ sym, t = String (ch "$") (sym +:+ rest) ∧ group 1 g = Some sym
    ∧ all_chars (alphabet SHAPE) sym = true.
Proof.
  unfold at_pos, CASHTAG. intros H.
  apply run_Seq_inv, run_Cls_inv in H as (c & s1 & -> & Hc & H).
  apply chr_eqb_eq in Hc as <-.
  apply run_Seq_inv, run_Grp_inv, run_reads in H as (m & s' & p' & g' & -> & Hm & H).
  apply run_WordB_inv in H. injection H as <- <-. rewrite substring_prefix.
  exists m. by rewrite group_head.
Qed.

Lemma PAREN_inv (prev : option ascii) (t : string) (g : caps) (rest : string) :
  at_pos PAREN prev t = Some (g, rest) →
  ∃ u c s', t = String (ch "(") (u +:+ String c s') ∧ group 1 g = Some u
    ∧ all_chars Chr.is_AZ u = true ∧ (c = ch ")" ∨ c = ch ":").
Proof.
  unfold at_pos, PAREN. intros H.
  apply run_Seq_inv, run_Cls_inv in H as (c0 & s1 & -> & Hc & H).
  apply chr_eqb_eq in Hc as <-.
  apply run_Seq_inv, run_Grp_inv, rep_prefix in H as (u & s2 & -> & Hu & _ & _ & H).
  rewrite substring_prefix in H. pose proof H as Hg.
  apply run_continues in Hg as (p1 & s3 & added & [= <- _] & Hadd).
  destruct added as [|e added];
    [|apply Forall_cons in Hadd as [He _]; simpl in He; by apply elem_of_nil in He].
  cbn [app] in *.
  apply run_Seq_inv in H. unfold Opt in H. apply run_Alt_inv in H as [H|H].
  - apply run_Seq_inv, run_Cls_inv in H as (c & s' & -> & Hc & _).
    apply chr_eqb_eq in Hc as <-. exists u, (ch ":"), s'.
    rewrite group_head. split; [done|]. split; [done|]. split; [done|by right].
  - simpl in H. destruct s2 as [|c s']; [done|].
    destruct (Chr.lit _ c) eqn:Hc; [|done]. apply chr_eqb_eq in Hc as <-.
    exists u, (ch ")"), s'. rewrite group_head.
    split; [done|]. split; [done|]. split; [done|by left].
Qed.

Lemma URL_TKR_inv (prev : option ascii) (t : string) (g : caps) (rest : string) :
  at_pos URL_TKR prev t = Some (g, rest) →
  ∃ kw sym, kw ∈ link_words
    ∧ t = String (ch "/") (kw +:+ String (ch "/") (sym +:+ rest))
    ∧ group 2 g = Some sym ∧ all_chars (alphabet SHAPE) sym = true.
Proof.
  unfold at_pos, URL_TKR. intros H.
  apply run_Seq_inv, run_Cls_inv in H as (c0 & s1 & -> & Hc & H).
  apply chr_eqb_eq in Hc as <-.
  apply run_Seq_inv, run_Grp_inv, run_link_word_inv in H as (kw & s2 & Hkw & -> & H).
  apply run_Seq_inv, run_Cls_inv in H as (c1 & s3 & -> & Hc1 & H).
  apply chr_eqb_eq in Hc1 as <-.
  apply run_Grp_inv, run_reads in H as (m & s' & p' & g' & -> & Hm & [= <- <-]).
  rewrite substring_prefix. exists kw, m. by rewrite group_head.
Qed.

Lemma UPPERC_inv (prev : option ascii) (t : string) (g : caps) (rest : string) :
  at_pos UPPERC prev t = Some (g, rest) →
  ∃ u s', t = u +:+ s' ∧ group 1 g = Some u
    ∧ all_chars Chr.is_AZ u = true ∧ 2 ≤ String.length u ≤ 5.
Proof.
  unfold at_pos, UPPERC. intros H.
  apply run_Seq_inv, run_WordB_inv in H.
  apply run_Seq_inv, run_Grp_inv, rep_prefix in H as (u & s2 & -> & Hu & Hlo & Hhi & H).
  rewrite substring_prefix in H.
  apply run_continues in H as (p1 & s3 & added & [= <- _] & Hadd).
  destruct added as [|e added];
    [|apply Forall_cons in Hadd as [He _]; simpl in He; by apply elem_of_nil in He].
  cbn [app]. exists u, s2. rewrite group_head. specialize (Hhi 5 eq_refl). done.
Qed.

(** X29. A candidate is held for a reason only if the text of the story
    gives that reason: for cashtag a word of a block holds [$] and the
    symbol; for paren a word holds [(], the symbol and then [)] or [:];
    for url a word holds [/quote/], [/symbol/] or [/ticker/] and the
    symbol; for allcaps the symbol is two to five capital letters that a
    word holds. *)
Theorem reasons_come_from_words (charref : string → string) (st : N8nStory) :
  Forall (λ c,
      ("cashtag" ∈ c_reasons c →
         ∃ pre post, has_word charref st (pre +:+ String (ch "$") (c_symbol c +:+ post)))
      ∧ ("paren" ∈ c_reasons c →
           ∃ pre x post, (x = ch ")" ∨ x = ch ":")
             ∧ has_word charref st
                 (pre +:+ String (ch "(") (c_symbol c +:+ String x post)))
      ∧ ("url" ∈ c_reasons c →
           ∃ pre kw post, kw ∈ link_words
             ∧ has_word charref st
                 (pre +:+ String (ch "/") (kw +:+ String (ch "/") (c_symbol c +:+ post))))
      ∧ ("allcaps" ∈ c_reasons c →
           all_chars Chr.is_AZ (c_symbol c) = true ∧ 2 ≤ String.length (c_symbol c) ≤ 5
           ∧ ∃ pre post, has_word charref st (pre +:+ c_symbol c +:+ post)))
    (candidates (detect_from_story charref st)).
Proof.
  rewrite candidates_detect. apply Forall_forall. intros c Hc.
  apply elem_of_cand_list in Hc as (e & He & Hr).
  assert (∀ r, r ∈ c_reasons c →
            r ∈ reasons_at (fst (detect_maps (joined_of charref st))) (c_symbol c)) as Hin.
  { intros r. rewrite Hr, sorted_set_elem. unfold reasons_at. by rewrite He. }
  split; [|split; [|split]]; intros Hreason; apply Hin in Hreason; revert Hreason.
  - apply (detect_maps_traced "cashtag"
             (λ k, ∃ pre post, has_word charref st (pre +:+ String (ch "$") (k +:+ post))));
      try done.
    intros _ m Hm. apply finditer_sound in Hm as (u & t & p & rest & Hj & Hat).
    apply CASHTAG_inv in Hat as (sym & -> & Hg & Hsym).
    destruct (shape_chars _ Hsym) as [Hfree Hup].
    unfold m_group. rewrite Hg. simpl. rewrite Hup.
    destruct (joined_infix charref st u (String (ch "$") sym) rest) as (pre & post & Hw).
    + by rewrite Hj, app_cons.
    + done.
    + simpl. by rewrite Hfree.
    + exists pre, post. by rewrite !app_cons in Hw.
  - apply (detect_maps_traced "paren"
             (λ k, ∃ pre x post, (x = ch ")" ∨ x = ch ":")
                ∧ has_word charref st (pre +:+ String (ch "(") (k +:+ String x post))));
      try done.
    intros _ m Hm. apply finditer_sound in Hm as (u0 & t & p & rest & Hj & Hat).
    apply PAREN_inv in Hat as (u & x & s' & -> & Hg & Hu & Hx).
    unfold m_group. rewrite Hg. simpl. rewrite all_AZ_upper by done.
    destruct (joined_infix charref st u0 (String (ch "(") (u +:+ String x "")) s')
      as (pre & post & Hw).
    + by rewrite Hj, !app_cons, !app_assoc_s.
    + done.
    + simpl. rewrite all_chars_app, (AZ_chars _ Hu). simpl.
      by destruct Hx as [-> | ->].
    + exists pre, x, post. split; [done|].
      by rewrite !app_cons, !app_assoc_s in Hw.
  - apply (detect_maps_traced "url"
             (λ k, ∃ pre kw post, kw ∈ link_words
                ∧ has_word charref st
                    (pre +:+ String (ch "/") (kw +:+ String (ch "/") (k +:+ post)))));
      try done.
    intros _ m Hm. apply finditer_sound in Hm as (u0 & t & p & rest & Hj & Hat).
    apply URL_TKR_inv in Hat as (kw & sym & Hkw & -> & Hg & Hsym).
    destruct (shape_chars _ Hsym) as [Hfree Hup].
    unfold m_group. rewrite Hg. simpl. rewrite Hup.
    destruct (joined_infix charref st u0
                (String (ch "/") (kw +:+ String (ch "/") sym)) rest) as (pre & post & Hw).
    + rewrite Hj. by repeat (rewrite ?app_cons, ?app_assoc_s).
    + done.
    + simpl. rewrite all_chars_app. simpl. rewrite Hfree.
      revert Hkw. unfold link_words. rewrite !elem_of_cons, elem_of_nil.
      by intros [->|[->|[->|[]]]].
    + exists pre, kw, post. split; [done|].
      by repeat (rewrite ?app_cons, ?app_assoc_s in Hw).
  - apply (detect_maps_traced "allcaps"
             (λ k, all_chars Chr.is_AZ k = true ∧ 2 ≤ String.length k ≤ 5
                ∧ ∃ pre post, has_word charref st (pre +:+ k +:+ post)));
      try done.
    intros _ m Hm. apply finditer_sound in Hm as (u0 & t & p & rest & Hj & Hat).
    apply UPPERC_inv in Hat as (u & s' & -> & Hg & Hu & Hlen).
    unfold m_group. rewrite Hg. simpl. rewrite all_AZ_upper by done.
    split; [done|]. split; [done|].
    apply (joined_infix charref st u0 u s'); [done| |by apply AZ_chars].
    destruct u; [simpl in Hlen; lia|done].
Qed.

(** * Requests and the cache *)

Lemma yahoo_search_clock (e : env) (q : string) (w : world) :
  punctual e → (clock w <= clock (snd (yahoo_search e q w)))%Q.
Proof.
  intros He. unfold yahoo_search.
  destruct (cache_get ("yh:" +:+ q) (clock w) (cache w)) as [[d|] c]; simpl; [lra|].
  specialize (He (calls w) (clock w) q).
  destruct (http_get e (calls w) (clock w) q) as [took [f|d]]; simpl in *; lra.
Qed.

Lemma yahoo_search_fresh (e : env) (q : string) (w : world) (v : cache_entry) :
  cache w !! ("yh:" +:+ q) = Some v → (clock w - ts v <= _TTL)%Q →
  snd (yahoo_search e q w) = w.
Proof.
  intros Hv Hage.
  assert (fst (cache_get ("yh:" +:+ q) (clock w) (cache w)) = Some (data v)) as Hhit.
  { apply cache_get_hit_iff. exists v. by rewrite <- TTL_900. }
  by rewrite (yahoo_search_hit _ _ _ _ Hhit).
Qed.

Lemma gather_snd {A B : Type} (f : A → world → B * world) (x : A) (l : list A)
    (w : world) :
  snd (gather f (x :: l) w) = snd (gather f l (snd (f x w))).
Proof. simpl. destruct (f x w) as [r w1]. simpl. by destruct (gather f l w1). Qed.

Lemma look_world (e : env) (sel : string → quote → bool) (x : string) (w : world) :
  snd (look e sel x w) = snd (yahoo_search e x w).
Proof. apply lookup_world. Qed.

Lemma gather_clock (e : env) (sel : string → quote → bool) (l : list string) (w : world) :
  punctual e → (clock w <= clock (snd (gather (look e sel) l w)))%Q.
Proof.
  intros He. revert w. induction l as [|x l IH]; intros w; [simpl; lra|].
  rewrite gather_snd, look_world.
  pose proof (yahoo_search_clock e x w He). specialize (IH (snd (yahoo_search e x w))).
  lra.
Qed.

(** an entry that is fresh until the batch ends is not asked for, and stays *)
Lemma gather_fresh (e : env) (sel : string → quote → bool) (l : list string)
    (w : world) (q : string) (v : cache_entry) :
  punctual e → cache w !! ("yh:" +:+ q) = Some v →
  (clock (snd (gather (look e sel) l w)) - ts v <= _TTL)%Q →
  unasked q w (snd (gather (look e sel) l w))
  ∧ cache (snd (gather (look e sel) l w)) !! ("yh:" +:+ q) = Some v.
Proof.
  intros He. revert w. induction l as [|x l IH]; intros w Hv.
  - intros _. split; [|done]. exists []. split; [by rewrite app_nil_r|apply not_elem_of_nil].
  - rewrite gather_snd, look_world. intros Hend.
    pose proof (yahoo_search_clock e x w He) as Hclock.
    pose proof (gather_clock e sel l (snd (yahoo_search e x w)) He) as Hlater.
    destruct (decide (x = q)) as [->|Hne].
    + rewrite (yahoo_search_fresh e q w v Hv) in * by lra. by apply IH.
    + assert (cache (snd (yahoo_search e x w)) !! ("yh:" +:+ q) = Some v) as Hv1.
      { rewrite yahoo_search_frame; [done|]. intros Heq. by apply String.app_inj in Heq. }
      destruct (IH _ Hv1 Hend) as [(sent & Hs & Hq) Hc]. split; [|done].
      rewrite yahoo_search_calls in Hs.
      destruct (fst (cache_get ("yh:" +:+ x) (clock w) (cache w))).
      * by exists sent.
      * exists (x :: sent). rewrite Hs, <- app_assoc. split; [done|].
        by apply not_elem_of_cons.
Qed.

Lemma verify_symbol_look (e : env) :
  verify_symbol e = look e same_symbol.
Proof. reflexivity. Qed.

Lemma resolve_name_look (e : env) :
  resolve_name e = look e (λ _, instrument).
Proof. reflexivity. Qed.

Lemma unasked_refl (q : string) (w : world) : unasked q w w.
Proof. exists []. split; [by rewrite app_nil_r|apply not_elem_of_nil]. Qed.

Lemma unasked_trans (q : string) (w1 w2 w3 : world) :
  unasked q w1 w2 → unasked q w2 w3 → unasked q w1 w3.
Proof.
  intros (s1 & H1 & Hq1) (s2 & H2 & Hq2). exists (s1 ++ s2).
  rewrite H2, H1, app_assoc. split; [done|].
  rewrite elem_of_app. tauto.
Qed.

(** X30. What the cache holds and what stays fresh is not asked for
    again: when the search service never answers before it is asked, a
    query whose cache entry is not older than the time to live when a
    Discover request, or a Resolve request, ends is not sent to the
    search service during that request. *)
Theorem fresh_entry_is_not_asked (e : env) (w : world) (q : string) (v : cache_entry)
    (req : DiscoverReq) (rq : ResolveReq) :
  punctual e → cache w !! ("yh:" +:+ q) = Some v →
  ((clock (snd (discover_n8n e req w)) - ts v <= _TTL)%Q →
     unasked q w (snd (discover_n8n e req w)))
  ∧ ((clock (snd (resolve e rq w)) - ts v <= _TTL)%Q →
       unasked q w (snd (resolve e rq w))).
Proof.
  intros He Hv. split.
  - pose proof (discover_n8n_unfold e req w) as Hd. simpl in Hd. rewrite Hd.
    destruct (verify req && _); simpl; [|intros _; apply unasked_refl].
    rewrite verify_symbol_look. intros Hend.
    exact (proj1 (gather_fresh e same_symbol _ w q v He Hv Hend)).
  - pose proof (resolve_unfold e rq w) as Hr. simpl in Hr. rewrite Hr. simpl.
    rewrite verify_symbol_look, resolve_name_look. intros Hend.
    set (w1 := snd (gather (look e same_symbol) (resolve_tickers rq) w)) in *.
    pose proof (gather_clock e (λ _, instrument) (resolve_names rq) w1 He) as Hlater.
    destruct (gather_fresh e same_symbol (resolve_tickers rq) w q v He Hv) as [H1 Hv1];
      [fold w1; lra|].
    fold w1 in H1, Hv1. apply (unasked_trans q w w1); [done|].
    exact (proj1 (gather_fresh e (λ _, instrument) _ w1 q v He Hv1 Hend)).
Qed.

Lemma fresh_entry_is_not_asked_witness :
  unasked "NVDA" nvda_verified
    (snd (discover_n8n env_up {| stories := [two_cashtags]; verify := true |} nvda_verified))
  ∧ unasked "NVDA" nvda_verified
      (snd (resolve env_up {| tickers := ["nvda"; "aapl"]; names := [] |} nvda_verified)).
Proof.
  destruct (fresh_entry_is_not_asked env_up nvda_verified "NVDA"
              {| ts := 1 # 2; data := nvda_answer |}
              {| stories := [two_cashtags]; verify := true |}
              {| tickers := ["nvda"; "aapl"]; names := [] |}) as [H1 H2].
  - intros cs t q. simpl. lra.
  - vm_compute. reflexivity.
  - split; [apply H1|apply H2]; vm_compute; discriminate.
Defined.

Example fresh_entry_example :
  calls (snd (discover_n8n env_up {| stories := [two_cashtags]; verify := true |}
                nvda_verified)) = ["NVDA"; "AAPL"]
  ∧ calls nvda_verified = ["NVDA"].
Proof. split; vm_compute; reflexivity. Qed.
